(** * aCOSMIC [sample.py]: initial conditions of binary-star populations

    A shallow embedding of [src/aCOSMIC/sample.py] (classes [Sample] and
    [MultiDimSample]) and the properties of its samplers.

    Numbers.  The program computes in binary64; the embedding computes in
    exact rational arithmetic ([Q], compared with [==]), so rounding is
    idealised away, with two exceptions.  The special values of binary64 in a
    division by a zero maximum in the grid builder are written out with the
    type [fval].  The sample positions that [idl_tabulate] hands to
    [scipy.integrate.newton_cotes] are tested by scipy for exact equality
    with [0] and [N]; there rounding decides between a value and an
    exception, so the positions are also computed in [Binary64]
    ([rn64], [idl_tabulate64]).

    Library functions.  [np.log10], [**] with a real exponent, [np.exp],
    [math.log], [np.pi] and the two non-uniform generators of [np.random]
    have no rational closed form; they are the fields of the interface
    [NumLib], and every statement holds for each of its implementations.

    Randomness.  [np.random] is a global generator; it is threaded through
    the samplers as the sequence of its unit draws and a position in it. *)

From Stdlib Require Import ZArith QArith Qminmax Qabs Qround Qfield Qpower.
From Stdlib Require Import List String Bool Arith Lia Lra Lqa Psatz.
From Stdlib Require Import Sorting.Permutation.
Import ListNotations.

Open Scope Q_scope.

(** ** numpy on one-dimensional arrays *)

Module Np.

(** A binary64 result of a division: finite, an infinity, or not a number. *)
Inductive fval : Type :=
| Fin (q : Q)
| PInf
| NInf
| NaN.

(** [a / b] of numpy: a zero divisor gives [nan] for [0/0] and a signed
    infinity otherwise (with a warning, not an exception). *)
Definition np_div (a b : Q) : fval :=
  if Qeq_bool b 0 then
    (if Qeq_bool a 0 then NaN
     else if Qlt_le_dec 0 a then PInf else NInf)
  else Fin (a / b).

(** [v * c] for a finite scalar [c]. *)
Definition fmul (v : fval) (c : Q) : fval :=
  match v with
  | Fin q => Fin (q * c)
  | NaN => NaN
  | PInf => if Qeq_bool c 0 then NaN else if Qlt_le_dec 0 c then PInf else NInf
  | NInf => if Qeq_bool c 0 then NaN else if Qlt_le_dec 0 c then NInf else PInf
  end.


(** Boolean comparisons, as the masks of [np.where] need them. *)
Definition Qleb (a b : Q) : bool := if Qlt_le_dec b a then false else true.
Definition Qltb (a b : Q) : bool := if Qlt_le_dec a b then true else false.

(** [np.sum]. *)
Definition np_sum (a : list Q) : Q := fold_right Qplus 0 a.

(** [np.cumsum], with the running total made explicit. *)
Fixpoint cumsum_from (acc : Q) (a : list Q) : list Q :=
  match a with
  | [] => []
  | x :: r => (acc + x) :: cumsum_from (acc + x) r
  end.

Definition np_cumsum (a : list Q) : list Q := cumsum_from 0 a.

(** [np.max] / [max] of a non-empty array (numpy raises on an empty one;
    every array reduced in the program has a fixed positive length). *)
Definition np_max (a : list Q) : Q :=
  match a with
  | [] => 0
  | x :: r => fold_left Qmax r x
  end.

Definition np_min (a : list Q) : Q :=
  match a with
  | [] => 0
  | x :: r => fold_left Qmin r x
  end.

(** [np.where(mask)[0]]: the indices at which the mask holds. *)
Fixpoint where_from (i : nat) (mask : list bool) : list nat :=
  match mask with
  | [] => []
  | b :: r => if b then i :: where_from (S i) r else where_from (S i) r
  end.

Definition np_where (mask : list bool) : list nat := where_from 0 mask.

(** [a[idx]] for an index array [idx]. *)
Definition take_idx (a : list Q) (idx : list nat) : list Q :=
  map (fun i => nth i a 0) idx.

(** [np.linspace(lo, hi, num)]. *)
Definition np_linspace (lo hi : Q) (num : nat) : list Q :=
  map (fun k => lo + inject_Z (Z.of_nat k) * ((hi - lo) / inject_Z (Z.of_nat (num - 1))))
      (seq 0 num).

(** [np.interp(x, xp, fp)] for a scalar [x] and increasing [xp]: [fp[0]]
    left of the table, [fp[-1]] right of it; inside, with [j] the last index
    such that [xp[j] <= x], the value [fp[j]] when [j] is the last index or
    [xp[j] = x], and the chord through the points [j] and [j+1] otherwise. *)
Fixpoint interp_scan (x : Q) (xp fp : list Q) : Q :=
  match xp, fp with
  | x0 :: ((x1 :: _) as xr), f0 :: ((f1 :: _) as fr) =>
      if Qleb x1 x then interp_scan x xr fr
      else if Qeq_bool x0 x then f0
      else (f1 - f0) / (x1 - x0) * (x - x0) + f0
  | _ :: _, f0 :: _ => f0
  | _, _ => 0
  end.

Definition np_interp (x : Q) (xp fp : list Q) : Q :=
  if Qltb (last xp 0) x then last fp 0
  else if Qltb x (hd 0 xp) then hd 0 fp
  else interp_scan x xp fp.

(** The global generator: the sequence of its draws from [[0, 1)], and a
    computation that reads it from a position and returns the next one. *)
Definition rng : Type := nat -> Q.

Definition unit_draws (g : rng) : Prop := forall n, 0 <= g n /\ g n < 1.

Definition Rand (A : Type) : Type := rng -> nat -> A * nat.

Definition ret {A} (a : A) : Rand A := fun _ s => (a, s).

Definition bind {A B} (m : Rand A) (k : A -> Rand B) : Rand B :=
  fun g s => let (a, s') := m g s in k a g s'.

(** [np.random.rand()]. *)
Definition random_rand : Rand Q := fun g s => (g s, S s).

(** [np.random.uniform(lo, hi, n)]: [lo + (hi - lo) * u] for [n] unit draws. *)
Definition random_uniform (lo hi : Q) (n : nat) : Rand (list Q) :=
  fun g s => (map (fun k => lo + (hi - lo) * g (s + k)%nat) (seq 0 n), (s + n)%nat).

End Np.

Import Np.

Notation "x <- m ;; k" := (bind m (fun x => k))
  (at level 61, m at next level, right associativity).

(** The functions of [numpy] and [math] that leave the rationals. *)
Class NumLib : Type := {
  log10 : Q -> Q;                       (* np.log10 *)
  pow : Q -> Q -> Q;                    (* x ** y *)
  exp : Q -> Q;                         (* np.exp *)
  ln : Q -> Q;                          (* math.log *)
  pi : Q;                               (* np.pi *)
  random_power : Q -> nat -> Rand (list Q);            (* np.random.power *)
  random_lognormal : Q -> Q -> nat -> Rand (list Q)    (* np.random.lognormal *)
}.

(** What a Python call does: return a value, return [None] by running off
    the end of the body, or raise. *)
Inductive pyresult (A : Type) : Type :=
| Returns (v : A)
| ReturnsNone
| Raises (msg : string).

Arguments Returns {A} v.
Arguments ReturnsNone {A}.
Arguments Raises {A} msg.

Definition is_error {A} (r : pyresult A) : Prop :=
  match r with Raises _ => True | _ => False end.

(** ** Module constants *)

Definition G : Q := 667384 # 10000000000000000.
Definition Rsun : Q := 695500000.
Definition Msun : Q := 1989100000000000000000000000000.
Definition sec_in_day : Q := 86400.

(** ** class [Sample] *)

Module Sample.
Section Methods.

Context {NL : NumLib}.

(** The piecewise inverse CDF that [sample_primary] writes into [a_0]
    through the index arrays [lowIdx], [midIdx] and [highIdx]; the three
    index arrays are taken before the first assignment, so each entry is
    transformed once, by the band of its uniform draw. *)
Definition kroupa93_mass (a : Q) : Q :=
  let low_cutoff := (740074 # 1000000) in
  let high_cutoff := (908422 # 1000000) in
  if Qleb a low_cutoff then
    pow (pow (1 # 10) (-(3 # 10)) - a / (968533 # 1000000)) (-(10 # 3))
  else if Qltb a high_cutoff then
    pow (pow (5 # 10) (-(6 # 5)) - (a - low_cutoff) / (129758 # 1000000)) (-(5 # 6))
  else
    pow (1 - (a - high_cutoff) / (915941 # 10000000)) (-(10 # 17)).

(** [np.random.power(a, n)]: numpy accepts a positive exponent only and
    raises before it draws anything otherwise. *)
Definition np_random_power (a : Q) (n : nat) : Rand (pyresult (list Q)) :=
  if Qleb a 0 then ret (Raises "ValueError: a <= 0")
  else x <- random_power a n ;; ret (Returns x).

(** The cut on the progenitor mass, shared by the two models. *)
Definition remnant_cut (kstar1_final : Q) (a_0 : list Q) : list Q :=
  if Qltb 13 kstar1_final then filter (fun a => Qltb 15 a) a_0
  else if Qltb 12 kstar1_final then filter (fun a => Qltb 8 a) a_0
  else a_0.

Definition sample_primary (kstar1_final : Q) (model : string) (size : nat)
  : Rand (pyresult (list Q * Q)) :=
  if String.eqb model "kroupa93" then
    let n := if Qltb 14 kstar1_final then (size * 500)%nat
             else if Qltb 12 kstar1_final then (size * 50)%nat
             else size in
    u <- random_uniform 0 (9999797 # 10000000) n ;;
    let a_0 := map kroupa93_mass u in
    let total_sampled_mass := np_sum a_0 in
    ret (Returns (remnant_cut kstar1_final a_0, total_sampled_mass))
  else if String.eqb model "salpeter55" then
    let n := if Qltb 14 kstar1_final then (size * 500)%nat
             else if Qltb 12 kstar1_final then (size * 50)%nat
             else (size * 500)%nat in
    r <- np_random_power (-(13 # 10)) n ;;
    match r with
    | Returns mSamp =>
        let a_0 := map (fun m => m * (100 - (1 # 10)) + (1 # 10)) mSamp in
        let total_sampled_mass := np_sum a_0 in
        ret (Returns (remnant_cut kstar1_final a_0, total_sampled_mass))
    | ReturnsNone => ret ReturnsNone
    | Raises msg => ret (Raises msg)
    end
  else ret ReturnsNone.

(** [primary_mass * a_0], element by element. *)
Fixpoint mul_arrays (a b : list Q) : list Q :=
  match a, b with
  | x :: a', y :: b' => x * y :: mul_arrays a' b'
  | _, _ => []
  end.

Definition sample_secondary (primary_mass : list Q) : Rand (list Q) :=
  a_0 <- random_uniform (1 # 1000) 1 (List.length primary_mass) ;;
  ret (mul_arrays primary_mass a_0).

(** The van Haaften binary fraction of one primary. *)
Definition binary_fraction (m : Q) : Q := (1 # 2) + (1 # 4) * log10 m.

Fixpoint mask2 (cmp : Q -> Q -> bool) (a b : list Q) : list bool :=
  match a, b with
  | x :: a', y :: b' => cmp x y :: mask2 cmp a' b'
  | _, _ => []
  end.

(** The two comparisons of a binary fraction with its draw.  [np.log10] is
    [nan] below zero and [-inf] at zero: the fraction of a negative mass
    compares false both ways, the fraction of a zero mass is below every
    draw. *)
Definition fraction_above (m c : Q) : bool :=
  Qltb 0 m && Qltb c (binary_fraction m).

Definition fraction_below (m c : Q) : bool :=
  Qeq_bool m 0 || (Qltb 0 m && Qltb (binary_fraction m) c).

Definition binary_select (primary_mass : list Q) (model : string)
  : Rand (pyresult (list Q * list Q)) :=
  if String.eqb model "vanHaaften" then
    binary_choose <- random_uniform 0 1 (List.length primary_mass) ;;
    let binaryIdx := np_where (mask2 fraction_above primary_mass binary_choose) in
    let singleIdx := np_where (mask2 fraction_below primary_mass binary_choose) in
    ret (Returns (take_idx primary_mass binaryIdx, take_idx primary_mass singleIdx))
  else ret ReturnsNone.

(** Separation in solar radii of the Han model from one uniform draw. *)
Definition han_separation (a : Q) : Q :=
  let low_cutoff := (583333 # 10000000) in
  if Qleb a low_cutoff then pow (a / (368058 # 100000000)) (5 # 6)
  else exp (a / (7 # 100) + ln 10).

Fixpoint porb_arrays (mass1 mass2 a_0 : list Q) : list Q :=
  match mass1, mass2, a_0 with
  | m1 :: r1, m2 :: r2, a :: r =>
      pow (4 * pow pi 2 / (G * (m1 + m2) * Msun) * pow a 3) (1 # 2)
        :: porb_arrays r1 r2 r
  | _, _, _ => []
  end.

Definition sample_porb (mass1 mass2 : list Q) (model : string) (size : nat)
  : Rand (pyresult (list Q)) :=
  if String.eqb model "Han" then
    u <- random_uniform 0 1 size ;;
    let a_0 := map (fun a => han_separation a * Rsun) u in
    ret (Returns (porb_arrays mass1 mass2 a_0))
  else if String.eqb model "log_normal" then
    porb <- random_lognormal (pow 10 (503 # 100)) (pow 10 (228 # 100)) size ;;
    ret (Returns (map (fun p => p * sec_in_day) porb))
  else ret ReturnsNone.

Definition sample_ecc (model : string) (size : nat) : Rand (pyresult (list Q)) :=
  if String.eqb model "thermal" then
    a_0 <- random_uniform 0 1 size ;;
    ret (Returns (map (fun a => pow a (1 # 2)) a_0))
  else if String.eqb model "uniform" then
    ecc <- random_uniform 0 1 size ;;
    ret (Returns ecc)
  else ret ReturnsNone.

Definition sample_SFH (model : string) (size : nat) : Rand (pyresult (list Q)) :=
  if String.eqb model "const" then
    tphys <- random_uniform 0 10000 size ;;
    ret (Returns tphys)
  else if String.eqb model "burst" then
    u <- random_uniform 0 1000 size ;;
    ret (Returns (map (fun t => 10000 - t) u))
  else ret ReturnsNone.

Definition set_kstar (mass : list Q) : list Q :=
  map (fun m => if Qltb m (7 # 10) then 0 else 1) mass.

End Methods.
End Sample.

(** ** binary64 arithmetic

    A finite binary64 number is a rational [m * 2^e] with [|m| < 2^53];
    [round] is the rounding of IEEE 754 to the nearest such number, ties to
    the even mantissa, and every operation is the exact one followed by
    [round].  The exponent range is not modelled: the quantities it is used
    for are grid coordinates and sample positions, far from overflow and
    from the subnormal numbers. *)

Module Binary64.

(** Numerator and denominator of [(n / d) * 2^s]. *)
Definition shifted (n d s : Z) : Z * Z :=
  if (0 <=? s)%Z then (n * 2 ^ s, d)%Z else (n, d * 2 ^ (- s))%Z.

(** The integer nearest to [num / den], the even one at a tie. *)
Definition nearest_even (num den : Z) : Z :=
  let m := (num / den)%Z in
  let r := (num mod den)%Z in
  match (2 * r ?= den)%Z with
  | Lt => m
  | Gt => (m + 1)%Z
  | Eq => if Z.even m then m else (m + 1)%Z
  end.

(** [m * 2^(-s)]. *)
Definition scale (m s : Z) : Q :=
  if (0 <=? s)%Z then inject_Z m / inject_Z (2 ^ s) else inject_Z (m * 2 ^ (- s)).

(** Rounding of [n / d > 0]: the shift [s] brings the quotient into
    [[2^52, 2^53)], where the mantissa is its nearest integer. *)
Definition round_pos (n d : Z) : Q :=
  let s0 := (52 - (Z.log2 n - Z.log2 d))%Z in
  let (num0, den0) := shifted n d s0 in
  let s := if (num0 / den0 <? 2 ^ 52)%Z then (s0 + 1)%Z else s0 in
  let (num, den) := shifted n d s in
  scale (nearest_even num den) s.

Definition round (q : Q) : Q :=
  match Qnum q with
  | Z0 => 0
  | Zpos n => round_pos (Zpos n) (Zpos (Qden q))
  | Zneg n => - round_pos (Zpos n) (Zpos (Qden q))
  end.

Definition sub (a b : Q) : Q := round (a - b).
Definition mul (a b : Q) : Q := round (a * b).
Definition div (a b : Q) : Q := round (a / b).

End Binary64.

(** ** [scipy.integrate.newton_cotes] on sample positions

    For positions [rn] (running from [0] to [N = len(rn) - 1]) scipy returns
    the weights of the interpolatory rule on them: the weight of a position
    is the integral over [[0, N]] of its Lagrange basis polynomial.
    Polynomials in [t] are coefficient lists, lowest degree first.

    Before it computes anything scipy tests the positions: when all their
    differences are exactly [1] and [N] is in its table of the equally
    spaced rules it takes the weights from the table; otherwise it raises
    [ValueError] unless the first position is exactly [0] and the last
    exactly [N] ([positions_rejected]).  [newton_cotes] below is the weights
    of accepted positions. *)

Module Scipy.

Fixpoint padd (p q : list Q) : list Q :=
  match p, q with
  | [], _ => q
  | _, [] => p
  | a :: p', b :: q' => (a + b) :: padd p' q'
  end.

Definition pscale (c : Q) (p : list Q) : list Q := map (Qmult c) p.

(** [p * (t - r)]. *)
Definition pmul_lin (r : Q) (p : list Q) : list Q :=
  padd (0 :: p) (pscale (- r) p).

(** Integral over [[0, N]] of [t^k * p], by Horner's scheme. *)
Fixpoint pint_from (k : nat) (N : Q) (p : list Q) : Q :=
  match p with
  | [] => 0
  | c :: r => N * (c / inject_Z (Z.of_nat (S k))) + N * pint_from (S k) N r
  end.

(** The basis polynomial of the position [ri] against the other positions. *)
Fixpoint lagrange (ri : Q) (others : list Q) : list Q :=
  match others with
  | [] => [1]
  | rj :: o => pscale (1 / (ri - rj)) (pmul_lin rj (lagrange ri o))
  end.

Fixpoint remove_nth (i : nat) (l : list Q) : list Q :=
  match i, l with
  | _, [] => []
  | O, _ :: r => r
  | S i', x :: r => x :: remove_nth i' r
  end.

Definition newton_cotes (rn : list Q) : list Q :=
  let N := inject_Z (Z.of_nat (List.length rn - 1)) in
  map (fun i => pint_from 0 N (lagrange (nth i rn 0) (remove_nth i rn)))
      (seq 0 (List.length rn)).

(** [np.diff(rn)] in binary64. *)
Fixpoint diff64 (rn : list Q) : list Q :=
  match rn with
  | a :: ((b :: _) as r) => Binary64.sub b a :: diff64 r
  | _ => []
  end.

(** [np.all(np.diff(rn) == 1)]. *)
Definition equally_spaced (rn : list Q) : bool :=
  forallb (fun d => Qeq_bool d 1) (diff64 rn).

(** [equal and N in _builtincoeffs]: the table holds the rules of
    [N = 1 .. 14]. *)
Definition uses_table (rn : list Q) : bool :=
  let N := (List.length rn - 1)%nat in
  equally_spaced rn && (1 <=? N)%nat && (N <=? 14)%nat.

(** [(rn[0] != 0) or (rn[-1] != N)], reached when the table is not used. *)
Definition positions_rejected (rn : list Q) : bool :=
  let N := inject_Z (Z.of_nat (List.length rn - 1)) in
  negb (uses_table rn) &&
  (negb (Qeq_bool (hd 0 rn) 0) || negb (Qeq_bool (last rn 0) N)).

End Scipy.

(** ** class [MultiDimSample]

    The class body does not run as distributed: [populate_pdfs] and
    [idl_tabulate] are called by their bare names, [idl_tabulate] reads
    [scipy], [numpy] and [xrange], the builder reads [num1M1] where it bound
    [numM1] and [logPv] where it bound [logP], the sampler reads the grids
    [M1v], [logPv], [qv] and [ev] of the builder, and calls the array
    [mycumPbindist] that it first bound to the method [flatten].  The
    embedding follows the data flow of the statements: every such name
    denotes the one object the file binds under it ([logP] and [logPv] the
    period grid, [num1M1] the number [numM1]), and [mycumPbindist] is the
    flattened column throughout.  The accumulator [total_mass], which the
    sampler updates without binding it first, starts from an explicit
    argument.  The statements about the sampler are about its statements
    and fragments read in this way; what Python does with the names as they
    stand is the subject of [Scope] below. *)

Module MultiDimSample.

(** [x[i:j]]. *)
Definition slice (a : list Q) (i j : nat) : list Q := firstn (j - i) (skipn i a).

(** [numpy.dot] of two one-dimensional arrays. *)
Fixpoint dot (a b : list Q) : Q :=
  match a, b with
  | x :: a', y :: b' => x * y + dot a' b'
  | _, _ => 0
  end.

(** The inner function [newton_cotes(x, f)] of [idl_tabulate]: one window,
    in exact arithmetic and with the positions accepted by scipy (the test
    and the binary64 positions are in [newton_cotes64] below). *)
Definition newton_cotes (x f : list Q) : Q :=
  if (List.length x <? 2)%nat then 0
  else
    let n1 := inject_Z (Z.of_nat (List.length x - 1)) in
    let rn := map (fun xi => n1 * (xi - hd 0 x) / (last x 0 - hd 0 x)) x in
    let weights := Scipy.newton_cotes rn in
    (last x 0 - hd 0 x) / n1 * dot weights f.

(** [xrange(0, n, step)] for a positive step. *)
Definition xrange0 (n step : nat) : list nat :=
  map (fun k => (k * step)%nat) (seq 0 ((n + step - 1) / step)).

Definition idl_tabulate_p (x f : list Q) (p : nat) : Q :=
  fold_left
    (fun ret idx => ret + newton_cotes (slice x idx (idx + p)) (slice f idx (idx + p)))
    (xrange0 (List.length x) (p - 1)) 0.

(** The default [p=5], which every call in the file uses. *)
Definition idl_tabulate (x f : list Q) : Q := idl_tabulate_p x f 5.

(** The sample positions of line 272 as binary64 computes them:
    [rn = (x.shape[0] - 1) * (x - x[0]) / (x[-1] - x[0])]. *)
Definition rn64 (x : list Q) : list Q :=
  let n1 := inject_Z (Z.of_nat (List.length x - 1)) in
  map (fun xi =>
         Binary64.div (Binary64.mul n1 (Binary64.sub xi (hd 0 x)))
                      (Binary64.sub (last x 0) (hd 0 x)))
      x.

(** One window with the test of scipy on the binary64 positions.  When a
    window of two points or more has zero width, the division of line 272
    gives [nan] or an infinity at every position (a warning of numpy, not an
    exception), and [rn[0] != 0] holds: the positions are rejected.  The
    value of an accepted window is the exact one. *)
Definition newton_cotes64 (x f : list Q) : pyresult Q :=
  if (List.length x <? 2)%nat then Returns 0
  else if Qeq_bool (Binary64.sub (last x 0) (hd 0 x)) 0 then
    Raises "ValueError: The sample positions must start at 0 and end at N"
  else if Scipy.positions_rejected (rn64 x) then
    Raises "ValueError: The sample positions must start at 0 and end at N"
  else Returns (newton_cotes x f).

(** The loop of [idl_tabulate] with the windows tested: the first rejected
    window ends the call. *)
Fixpoint tabulate_windows64 (x f : list Q) (p : nat) (idxs : list nat) (ret : Q)
  : pyresult Q :=
  match idxs with
  | [] => Returns ret
  | idx :: rest =>
      match newton_cotes64 (slice x idx (idx + p)) (slice f idx (idx + p)) with
      | Returns v => tabulate_windows64 x f p rest (ret + v)
      | ReturnsNone => ReturnsNone
      | Raises msg => Raises msg
      end
  end.

Definition idl_tabulate64 (x f : list Q) : pyresult Q :=
  tabulate_windows64 x f 5 (xrange0 (List.length x) 4) 0.

(** *** The grid builder [populate_pdfs] *)

(** The normalisation of a tabulated density into a CDF, as the builder
    writes it for [fq] and for [fe]:
    [cum = np.cumsum(f) - f[0]; cum = cum / np.max(cum)]. *)
Definition cum_offset (f : list Q) : list Q :=
  map (fun c => c - hd 0 f) (np_cumsum f).

Definition normalise_cdf (f : list Q) : list fval :=
  let cumf := cum_offset f in
  map (fun c => np_div c (np_max cumf)) cumf.

(** The normalisation of the period column [w = flogP_sq[:,i] * probbin[:,i]]:
    [cum = np.cumsum(w) - w[0]; cum = cum / np.max(cum) * idl_tabulate(logPv, w)]. *)
Definition normalise_period (logPv w : list Q) : list fval :=
  let cum := cum_offset w in
  map (fun c => fmul (np_div c (np_max cum)) (idl_tabulate logPv w)) cum.

Definition numM1 : nat := 101.
Definition numlogP : nat := 158.
Definition numq : nat := 91.
Definition nume : nat := 100.

Definition logP : list Q := np_linspace (15 # 100) 8 numlogP.
Definition logPv : list Q := logP.
Definition qv : list Q := np_linspace (1 # 10) 1 numq.
Definition ev : list Q := map (fun e => e + (1 # 10000)) (np_linspace 0 (99 # 100) nume).

Definition alpha : Q := (18 # 1000).
Definition DlogP : Q := (7 # 10).

(** The step function of the twins, [H[qv >= 0.95] = 1], normalised to a
    unit integral. *)
Definition H_step : list Q := map (fun q => if Qleb (95 # 100) q then 1 else 0) qv.
Definition H : list Q := map (fun h => h / idl_tabulate qv H_step) H_step.

Definition indlq : list nat := np_where (map (fun q => Qleb (3 # 10) q) qv).
Definition indsq : list nat := np_where (map (fun q => Qltb q (3 # 10)) qv).
Definition indq0p3 : nat := fold_right Nat.min (hd 0%nat indlq) indlq.

Fixpoint map2 (f : Q -> Q -> Q) (a b : list Q) : list Q :=
  match a, b with
  | x :: a', y :: b' => f x y :: map2 f a' b'
  | _, _ => []
  end.

Section Builder.

Context {NL : NumLib}.

(** [np.logspace(np.log10(0.8), np.log10(40), numM1)]. *)
Definition M1v : list Q :=
  map (pow 10) (np_linspace (log10 (8 # 10)) (log10 40) numM1).

(** [np.interp(np.log10(myM1), np.log10([a, b]), [va, vb])]. *)
Definition interp_logM (myM1 a b va vb : Q) : Q :=
  np_interp (log10 myM1) [log10 a; log10 b] [va; vb].

Definition FtwinlogPle1 (myM1 : Q) : Q := (3 # 10) - (15 # 100) * log10 myM1.

Definition logPtwin (myM1 : Q) : Q :=
  if Qleb (65 # 10) myM1 then (15 # 10) else 8 - myM1.

Definition Ftwin (myM1 mylogP : Q) : Q :=
  let Ftwin :=
    if Qleb mylogP 1 then FtwinlogPle1 myM1
    else FtwinlogPle1 myM1 * (1 - (mylogP - 1) / (logPtwin myM1 - 1)) in
  if Qleb (logPtwin myM1) mylogP then 0 else Ftwin.

(** The slopes of the mass-ratio density above [q = 0.3] (Eqns. 9 to 11). *)
Definition gl_1p2 (mylogP : Q) : Q :=
  if Qleb mylogP 5 then - (5 # 10) else - (5 # 10) - (3 # 10) * (mylogP - 5).

Definition gl_3p5 (mylogP : Q) : Q :=
  if Qleb mylogP 1 then - (5 # 10)
  else if Qleb mylogP (45 # 10) then - (5 # 10) - (2 # 10) * (mylogP - 1)
  else if Qleb mylogP (65 # 10) then - (12 # 10) - (4 # 10) * (mylogP - (45 # 10))
  else - 2.

Definition gl_6 (mylogP : Q) : Q :=
  if Qleb mylogP 1 then - (5 # 10)
  else if Qleb mylogP 2 then - (5 # 10) - (9 # 10) * (mylogP - 1)
  else if Qleb mylogP 4 then - (14 # 10) - (3 # 10) * (mylogP - 2)
  else - 2.

Definition gl (myM1 mylogP : Q) : Q :=
  if Qleb myM1 (12 # 10) then gl_1p2 mylogP
  else if Qleb myM1 (35 # 10) then
    interp_logM myM1 (12 # 10) (35 # 10) (gl_1p2 mylogP) (gl_3p5 mylogP)
  else if Qleb myM1 6 then
    interp_logM myM1 (35 # 10) 6 (gl_3p5 mylogP) (gl_6 mylogP)
  else gl_6 mylogP.

(** The slopes below [q = 0.3] (Eqns. 13 to 15). *)
Definition gs_1p2 : Q := (3 # 10).

Definition gs_3p5 (mylogP : Q) : Q :=
  if Qleb mylogP (25 # 10) then (2 # 10)
  else if Qleb mylogP (55 # 10) then (2 # 10) - (3 # 10) * (mylogP - (25 # 10))
  else - (7 # 10) - (2 # 10) * (mylogP - (55 # 10)).

Definition gs_6 (mylogP : Q) : Q :=
  if Qleb mylogP 1 then (1 # 10)
  else if Qleb mylogP 3 then (1 # 10) - (15 # 100) * (mylogP - 1)
  else if Qleb mylogP (56 # 10) then - (2 # 10) - (50 # 100) * (mylogP - 3)
  else - (15 # 10).

Definition gs (myM1 mylogP : Q) : Q :=
  if Qleb myM1 (12 # 10) then gs_1p2
  else if Qleb myM1 (35 # 10) then
    interp_logM myM1 (12 # 10) (35 # 10) gs_1p2 (gs_3p5 mylogP)
  else if Qleb myM1 6 then
    interp_logM myM1 (35 # 10) 6 (gs_3p5 mylogP) (gs_6 mylogP)
  else gs_6 mylogP.

(** The tabulated mass-ratio density of one cell, from its twin fraction
    and its two slopes.  The last assignment goes through the index array
    [indsq = np.where(qv < 0.3)]; its right-hand side reads [fq[indq0p3]],
    which the assignment leaves in place. *)
Definition fq_of (Ftw gl gs : Q) : list Q :=
  let fq := map (fun q => pow q gl) qv in
  let norm := idl_tabulate (take_idx qv indlq) (take_idx fq indlq) in
  let fq := map (fun v => v / norm) fq in
  let fq := map2 (fun v h => v * (1 - Ftw) + h * Ftw) fq H in
  let f0p3 := nth indq0p3 fq 0 in
  map2 (fun q v => if Qltb q (3 # 10) then f0p3 * pow (q / (3 # 10)) gs else v) qv fq.

Definition fq (myM1 mylogP : Q) : list Q :=
  fq_of (Ftwin myM1 mylogP) (gl myM1 mylogP) (gs myM1 mylogP).

(** The slope of the eccentricity density (Eqns. 17 and 18). *)
Definition eta_3 (mylogP : Q) : Q :=
  if Qleb (7 # 10) mylogP then (6 # 10) - (7 # 10) / (mylogP - (5 # 10)) else - (29 # 10).

Definition eta_7 (mylogP : Q) : Q :=
  if Qleb (7 # 10) mylogP then (9 # 10) - (2 # 10) / (mylogP - (5 # 10)) else - (1 # 10).

Definition eta (myM1 mylogP : Q) : Q :=
  if Qleb myM1 3 then eta_3 mylogP
  else if Qleb myM1 7 then interp_logM myM1 3 7 (eta_3 mylogP) (eta_7 mylogP)
  else eta_7 mylogP.

(** The tabulated eccentricity density of one cell.  Beyond two days it is
    cut at [e_max] and turned over linearly above [0.8 * e_max]; the
    turnover starts from the entry before the first index of the band
    ([fe[-1]], the last entry, when that index is [0]), and [np.min] raises
    when the band holds no grid point. *)
Definition fe (mylogP eta : Q) : pyresult (list Q) :=
  if Qleb (pow 10 mylogP) 2 then Returns (map (fun e => pow e (- (32 # 10))) ev)
  else
    let fe := map (fun e => pow e eta) ev in
    let e_max := 1 - pow (pow 10 mylogP / 2) (- (2 # 3)) in
    let fe := map2 (fun e v => if Qleb e_max e then 0 else v) ev fe in
    let band := fun e => Qleb ((8 # 10) * e_max) e && Qleb e (1 * e_max) in
    match np_where (map band ev) with
    | [] => Raises "ValueError: zero-size array to reduction operation minimum which has no identity"
    | i0 :: ind =>
        let fe_cont :=
          match fold_right Nat.min i0 ind with
          | O => last fe 0
          | S ind_cont => nth ind_cont fe 0
          end in
        Returns (map2 (fun e v =>
                         if band e
                         then np_interp e [(8 # 10) * e_max; 1 * e_max] [fe_cont; 0]
                         else v) ev fe)
    end.

(** The frequency of companions per decade of period (Eqns. 20 to 23). *)
Definition flogPle1 (myM1 : Q) : Q :=
  (20 # 1000) + (4 # 100) * log10 myM1 + (7 # 100) * (log10 myM1) ^ 2.

Definition flogPeq2p7 (myM1 : Q) : Q :=
  (39 # 1000) + (7 # 100) * log10 myM1 + (1 # 100) * (log10 myM1) ^ 2.

Definition flogPeq5p5 (myM1 : Q) : Q :=
  (78 # 1000) - (5 # 100) * log10 myM1 + (4 # 100) * (log10 myM1) ^ 2.

Definition flogP (myM1 mylogP : Q) : Q :=
  if Qleb mylogP 1 then flogPle1 myM1
  else if Qleb mylogP ((27 # 10) - DlogP) then
    flogPle1 myM1 + (mylogP - 1) / ((17 # 10) - DlogP)
                    * (flogPeq2p7 myM1 - flogPle1 myM1 - alpha * DlogP)
  else if Qleb mylogP ((27 # 10) + DlogP) then
    flogPeq2p7 myM1 + alpha * (mylogP - (27 # 10))
  else if Qleb mylogP (55 # 10) then
    flogPeq2p7 myM1 + alpha * DlogP
    + (mylogP - (27 # 10) - DlogP) / ((28 # 10) - DlogP)
      * (flogPeq5p5 myM1 - flogPeq2p7 myM1 - alpha * DlogP)
  else flogPeq5p5 myM1 * exp (- (3 # 10) * (mylogP - (55 # 10))).

(** The probability that the companion belongs to the inner binary. *)
Definition probbin (myM1 mylogP : Q) : Q :=
  let p :=
    if Qleb mylogP (15 # 10) then 1
    else 1 - (11 # 100) * pow (mylogP - (15 # 10)) (143 # 100) * pow (myM1 / 10) (56 # 100) in
  if Qleb p 0 then 0 else p.

(** What the body of the period loop leaves for one cell. *)
Record cell : Type := {
  cumfq : list fval;       (* cumqdist[:, j, i] *)
  cumfe : list fval;       (* cumedist[:, j, i] *)
  flogP_sq : Q;            (* flogP_sq[j, i] *)
  probbin_c : Q            (* probbin[j, i] *)
}.

Definition build_cell (myM1 mylogP : Q) : pyresult cell :=
  let fq := fq myM1 mylogP in
  let q_factor := idl_tabulate qv fq in
  match fe mylogP (eta myM1 mylogP) with
  | Returns fe =>
      Returns {| cumfq := normalise_cdf fq;
                 cumfe := normalise_cdf fe;
                 flogP_sq := flogP myM1 mylogP * q_factor;
                 probbin_c := probbin myM1 mylogP |}
  | ReturnsNone => ReturnsNone
  | Raises msg => Raises msg
  end.

(** The cells of one mass, in the order of the period loop; the first
    exception ends the loop. *)
Fixpoint build_cells (myM1 : Q) (periods : list Q) : pyresult (list cell) :=
  match periods with
  | [] => Returns []
  | mylogP :: rest =>
      match build_cell myM1 mylogP with
      | Returns c =>
          match build_cells myM1 rest with
          | Returns cs => Returns (c :: cs)
          | ReturnsNone => ReturnsNone
          | Raises msg => Raises msg
          end
      | ReturnsNone => ReturnsNone
      | Raises msg => Raises msg
      end
  end.

(** One mass of the grid: its cells and its period column
    [cumPbindist[:, i]]. *)
Record column : Type := {
  cells : list cell;
  mycumPbindist : list fval
}.

Definition build_column (myM1 : Q) : pyresult column :=
  match build_cells myM1 logPv with
  | Returns cs =>
      let w := map (fun c => flogP_sq c * probbin_c c) cs in
      Returns {| cells := cs; mycumPbindist := normalise_period logPv w |}
  | ReturnsNone => ReturnsNone
  | Raises msg => Raises msg
  end.

Fixpoint build_columns (masses : list Q) : pyresult (list column) :=
  match masses with
  | [] => Returns []
  | myM1 :: rest =>
      match build_column myM1 with
      | Returns c =>
          match build_columns rest with
          | Returns cs => Returns (c :: cs)
          | ReturnsNone => ReturnsNone
          | Raises msg => Raises msg
          end
      | ReturnsNone => ReturnsNone
      | Raises msg => Raises msg
      end
  end.

(** The three tables, stored by mass and then by period: the entry
    [cumqdist[k, j, i]] of the program is entry [k] of the slice [j] of the
    column [i]. *)
Definition populate_pdfs : pyresult (list column) := build_columns M1v.

Definition cumqdist (t : list column) (i j : nat) : list fval :=
  match nth_error t i with
  | Some c => match nth_error (cells c) j with Some x => cumfq x | None => [] end
  | None => []
  end.

Definition cumedist (t : list column) (i j : nat) : list fval :=
  match nth_error t i with
  | Some c => match nth_error (cells c) j with Some x => cumfe x | None => [] end
  | None => []
  end.

Definition cumPbindist (t : list column) (i : nat) : list fval :=
  match nth_error t i with
  | Some c => mycumPbindist c
  | None => []
  end.

End Builder.

(** *** The sampler [initial_sample] *)

(** The tables that the sampler reads, as finite numbers and in the layout
    of the builder: [cumq !! i !! j] is [cumqdist[:, j, i]], and
    [cumPbin !! i] is [cumPbindist[:, i]]. *)
Record tables : Type := {
  cumq : list (list (list Q));
  cume : list (list (list Q));
  cumPbin : list (list Q)
}.

Definition entry2 (t : list (list Q)) (j i : nat) : Q := nth j (nth i t []) 0.

Definition entry3 (t : list (list (list Q))) (k j i : nat) : Q :=
  nth k (nth j (nth i t []) []) 0.

(** [np.where(abs(v - grid) == min(abs(v - grid)))[0]]: every index at the
    least distance. *)
Definition nearest (v : Q) (grid : list Q) : list nat :=
  let d := map (fun g => Qabs (v - g)) grid in
  np_where (map (fun x => Qeq_bool x (np_min d)) d).

(** [cumPbindist[:, indM1].flatten()]: row by row. *)
Definition column_of (t : list (list Q)) (indM1 : list nat) : list Q :=
  flat_map (fun j => map (fun i => entry2 t j i) indM1) (seq 0 numlogP).

(** Two index arrays in one subscript are broadcast against each other. *)
Definition broadcast (a b : list nat) : pyresult (list (nat * nat)) :=
  if (List.length a =? List.length b)%nat then Returns (combine a b)
  else if (List.length a =? 1)%nat then Returns (map (fun y => (hd 0%nat a, y)) b)
  else if (List.length b =? 1)%nat then Returns (map (fun x => (x, hd 0%nat b)) a)
  else Raises "IndexError: shape mismatch: indexing arrays could not be broadcast together".

(** [t[:, indlogP, indM1].flatten()] for a table with [n] rows. *)
Definition slice_of (t : list (list (list Q))) (n : nat) (indlogP indM1 : list nat)
  : pyresult (list Q) :=
  match broadcast indlogP indM1 with
  | Returns ji =>
      Returns (flat_map (fun k => map (fun ji => entry3 t k (fst ji) (snd ji)) ji) (seq 0 n))
  | ReturnsNone => ReturnsNone
  | Raises msg => Raises msg
  end.

(** [np.interp] refuses tables of different lengths. *)
Definition np_interp_chk (x : Q) (xp fp : list Q) : pyresult Q :=
  if (List.length xp =? List.length fp)%nat then Returns (np_interp x xp fp)
  else Raises "ValueError: fp and xp are not of the same length.".

(** One trial: a single star, or a binary with its secondary mass, its
    period entry and its eccentricity. *)
Inductive trial : Type :=
| Single (myM1 : Q)
| Binary (myM1 myq : Q) (porb : list Q) (mye : Q).

(** The accumulators of the loop. *)
Record population : Type := {
  primary_mass_list : list Q;
  secondary_mass_list : list Q;
  porb_list : list (list Q);
  ecc_list : list Q;
  total_mass : Q
}.

Section Sampler.

Context {NL : NumLib}.

(** The primary mass function on [0.08 < M1 < 150] and its CDF. *)
Definition M1 : list Q :=
  map (fun m => m + (8 # 100)) (np_linspace 0 150 (Z.to_nat 150000)).

Definition fM1 : list Q :=
  map (fun m =>
         if Qleb m (5 # 10) then pow m (- (8 # 10)) / pow (5 # 10) ((16 # 10) - (8 # 10))
         else if Qleb m 1 then pow m (- (16 # 10))
         else pow m (- (23 # 10))) M1.

Definition cumfM1 : list Q :=
  let cum := cum_offset fM1 in
  map (fun c => c / np_max cum) cum.

Definition cumf_M1min (M1min : Q) : Q := np_interp M1min M1 cumfM1.

(** Line 603: the primary mass of a trial from its unit draw. *)
Definition select_primary (M1min u : Q) : Q :=
  np_interp (cumf_M1min M1min + (1 - cumf_M1min M1min) * u) cumfM1 M1.

(** Lines 616 to 619: the period CDF of the trial, scaled down below
    [0.8] solar masses. *)
Definition period_cdf (tb : tables) (myM1 : Q) (indM1 : list nat) : list Q :=
  let c := column_of (cumPbin tb) indM1 in
  if Qleb myM1 (8 # 10) then
    map (fun v => v * np_interp (log10 myM1) [log10 (8 # 100); log10 (8 # 10)] [0; 1]) c
  else c.

(** Lines 642 to 652: the mass-ratio CDF of the trial, cut below
    [q_min = 0.08 / myM1] for a primary under [0.8] solar masses. *)
Definition truncate_q (myM1 : Q) (mycumqdist : list Q) : pyresult (list Q) :=
  if Qltb myM1 (8 # 10) then
    let q_min := (8 # 100) / myM1 in
    match np_interp_chk q_min qv mycumqdist with
    | Returns cum_qmin =>
        let c := map (fun v => v - cum_qmin) mycumqdist in
        let c := map (fun v => v / np_max c) c in
        Returns (map2 (fun q v => if Qleb q q_min then 0 else v) qv c)
    | ReturnsNone => ReturnsNone
    | Raises msg => Raises msg
    end
  else Returns mycumqdist.

(** Lines 642 to 655: the mass ratio of a binary from its unit draw. *)
Definition select_q (myM1 u : Q) (mycumqdist : list Q) : pyresult Q :=
  match truncate_q myM1 mycumqdist with
  | Returns c => np_interp_chk u c qv
  | ReturnsNone => ReturnsNone
  | Raises msg => Raises msg
  end.

(** Line 660 appends [10**logP * sec_in_day].  [logP] is the name of the
    period grid in [populate_pdfs]; the log-period selected for the trial
    is [mylogP].  ([initial_sample] itself does not bind [logP]: see
    [Scope].) *)
Definition porb_entry : list Q := map (fun lp => pow 10 lp * sec_in_day) logP.

(** The body of the loop for the binary branch, after [myrand]. *)
Definition draw_binary (tb : tables) (myM1 myrand : Q) (indM1 : list nat)
                       (mycumPbindist : list Q) : Rand (pyresult trial) :=
  match np_interp_chk myrand mycumPbindist logPv with
  | Returns mylogP =>
      let indlogP := nearest mylogP logPv in
      u_e <- random_rand ;;
      match slice_of (cume tb) nume indlogP indM1 with
      | Returns cumedist_ji =>
          match np_interp_chk u_e cumedist_ji ev with
          | Returns mye =>
              match slice_of (cumq tb) numq indlogP indM1 with
              | Returns mycumqdist =>
                  u_q <- random_rand ;;
                  match select_q myM1 u_q mycumqdist with
                  | Returns myq => ret (Returns (Binary myM1 myq porb_entry mye))
                  | ReturnsNone => ret ReturnsNone
                  | Raises msg => ret (Raises msg)
                  end
              | ReturnsNone => ret ReturnsNone
              | Raises msg => ret (Raises msg)
              end
          | ReturnsNone => ret ReturnsNone
          | Raises msg => ret (Raises msg)
          end
      | ReturnsNone => ret ReturnsNone
      | Raises msg => ret (Raises msg)
      end
  | ReturnsNone => ret ReturnsNone
  | Raises msg => ret (Raises msg)
  end.

(** Lines 603 to 666 without the appends: one pass of the loop body. *)
Definition draw_trial (tb : tables) (M1min : Q) : Rand (pyresult trial) :=
  u <- random_rand ;;
  let myM1 := select_primary M1min u in
  let indM1 := nearest myM1 M1v in
  let mycumPbindist := period_cdf tb myM1 indM1 in
  let mybinfrac := np_max mycumPbindist in
  myrand <- random_rand ;;
  if Qltb myrand mybinfrac then draw_binary tb myM1 myrand indM1 mycumPbindist
  else ret (Returns (Single myM1)).

(** Lines 658 to 666: what a trial adds to the accumulators. *)
Definition record_trial (st : population) (t : trial) : population :=
  match t with
  | Binary myM1 myq porb mye =>
      {| primary_mass_list := primary_mass_list st ++ [myM1];
         secondary_mass_list := secondary_mass_list st ++ [myq * myM1];
         porb_list := porb_list st ++ [porb];
         ecc_list := ecc_list st ++ [mye];
         total_mass := total_mass st + myM1 + myq * myM1 |}
  | Single myM1 =>
      {| primary_mass_list := primary_mass_list st;
         secondary_mass_list := secondary_mass_list st;
         porb_list := porb_list st;
         ecc_list := ecc_list st;
         total_mass := total_mass st + myM1 |}
  end.

(** [for i in range(0, int(size))]; an exception leaves the loop. *)
Fixpoint sample_loop (tb : tables) (M1min : Q) (size : nat) (st : population)
  : Rand (pyresult population) :=
  match size with
  | O => ret (Returns st)
  | S size' =>
      r <- draw_trial tb M1min ;;
      match r with
      | Returns t => sample_loop tb M1min size' (record_trial st t)
      | ReturnsNone => ret ReturnsNone
      | Raises msg => ret (Raises msg)
      end
  end.

Definition initial_sample (tb : tables) (total_mass0 M1min : Q) (size : nat)
  : Rand (pyresult population) :=
  sample_loop tb M1min size
    {| primary_mass_list := []; secondary_mass_list := []; porb_list := [];
       ecc_list := []; total_mass := total_mass0 |}.

(** [sample_SFH] and [set_kstar] are repeated verbatim in this class. *)
Definition sample_SFH (model : string) (size : nat) : Rand (pyresult (list Q)) :=
  if String.eqb model "const" then
    tphys <- random_uniform 0 10000 size ;;
    ret (Returns tphys)
  else if String.eqb model "burst" then
    u <- random_uniform 0 1000 size ;;
    ret (Returns (map (fun t => 10000 - t) u))
  else ret ReturnsNone.

Definition set_kstar (mass : list Q) : list Q :=
  map (fun m => if Qltb m (7 # 10) then 0 else 1) mass.

End Sampler.

End MultiDimSample.

(** ** The names of [initial_sample]

    Python decides where a name lives when it compiles a function: a
    parameter, or a name that the body assigns anywhere, is a local of the
    function; every other name is looked up outside it, in the module and
    then among the builtins (the body of a class and the locals of another
    function are not searched).  Reading a local before its first
    assignment raises [UnboundLocalError]; reading a name that is found
    nowhere raises [NameError].  The statements of [initial_sample] are
    listed with their line, the names they read and the names they bind,
    and [run] follows a path through them until the first name that cannot
    be read.  Other failures (of types, shapes or values) are outside this
    analysis: a path that [run] stops cannot complete, a path that it lets
    through may still fail. *)

Module Scope.

Record stmt : Type := {
  line : nat;
  reads : list string;
  binds : list string
}.

Inductive failure : Type :=
| NameError (at_line : nat) (name : string)
| UnboundLocalError (at_line : nat) (name : string).

Definition mem (n : string) (l : list string) : bool := existsb (String.eqb n) l.

(** Reading the name [n] at line [l], with the locals of the function, the
    names visible outside it, and the locals bound so far. *)
Definition read_name (locals outer bound : list string) (l : nat) (n : string)
  : option failure :=
  if mem n locals then
    (if mem n bound then None else Some (UnboundLocalError l n))
  else if mem n outer then None
  else Some (NameError l n).

Fixpoint read_names (locals outer bound : list string) (l : nat) (ns : list string)
  : option failure :=
  match ns with
  | [] => None
  | n :: r =>
      match read_name locals outer bound l n with
      | Some f => Some f
      | None => read_names locals outer bound l r
      end
  end.

(** The first name failure along a path, if any. *)
Fixpoint run (locals outer bound : list string) (path : list stmt) : option failure :=
  match path with
  | [] => None
  | s :: rest =>
      match read_names locals outer bound (line s) (reads s) with
      | Some f => Some f
      | None => run locals outer (binds s ++ bound) rest
      end
  end.

Definition at_line (l : nat) (r b : list string) : stmt :=
  {| line := l; reads := r; binds := b |}.

Definition params : list string := ["self"; "M1min"; "size"]%string.

(** Lines 575 to 598, before the loop. *)
Definition prologue : list stmt :=
  [ at_line 575 [] ["primary_mass_list"];
    at_line 576 [] ["secondary_mass_list"];
    at_line 577 [] ["porb_list"];
    at_line 578 [] ["ecc_list"];
    at_line 580 ["populate_pdfs"] ["cumqdist"; "cumedist"; "cumPbindist"];
    at_line 583 ["np"] ["M1"];
    at_line 585 ["M1"] ["fM1"];
    at_line 587 ["np"; "M1"] ["ind"];
    at_line 588 ["M1"; "ind"; "fM1"] [];
    at_line 590 ["np"; "M1"] ["ind"];
    at_line 591 ["M1"; "ind"; "fM1"] [];
    at_line 593 ["np"; "fM1"] ["cumfM1"];
    at_line 594 ["cumfM1"; "np"] ["cumfM1"];
    at_line 598 ["np"; "M1min"; "M1"; "cumfM1"] ["cumf_M1min"] ]%string.

(** Lines 600 to 618: the head of a trial. *)
Definition trial_head : list stmt :=
  [ at_line 600 ["range"; "int"; "size"] ["i"];
    at_line 603 ["np"; "cumf_M1min"; "cumfM1"; "M1"] ["myM1"];
    at_line 611 ["np"; "abs"; "myM1"; "M1v"; "min"] ["indM1"];
    at_line 612 ["indM1"] ["indM1"];
    at_line 616 ["cumPbindist"; "indM1"] ["mycumPbindist"];
    at_line 618 ["myM1"] [] ]%string.

(** Line 619, run when [myM1 <= 0.8]. *)
Definition rescale : list stmt :=
  [ at_line 619 ["mycumPbindist"; "np"; "myM1"] ["mycumPbindist"] ]%string.

(** Lines 622 to 628: the binary fraction and the draw against it. *)
Definition binary_test : list stmt :=
  [ at_line 622 ["np"; "mycumPbindist"] ["mybinfrac"];
    at_line 626 ["np"] ["myrand"];
    at_line 628 ["myrand"; "mybinfrac"] [] ]%string.

(** Lines 630 to 643: period, eccentricity and the mass-ratio CDF. *)
Definition binary_head : list stmt :=
  [ at_line 630 ["np"; "myrand"; "mycumPbindist"; "logPv"] ["mylogP"];
    at_line 631 ["np"; "abs"; "mylogP"; "logPv"; "min"] ["indlogP"];
    at_line 632 ["indlogP"] ["indlogP"];
    at_line 636 ["np"; "cumedist"; "indlogP"; "indM1"; "ev"] ["mye"];
    at_line 642 ["cumqdist"; "indlogP"; "indM1"] ["mycumqdist"];
    at_line 643 ["myM1"] [] ]%string.

(** Lines 644 to 652, run when [myM1 < 0.8]. *)
Definition truncation : list stmt :=
  [ at_line 644 ["myM1"] ["q_min"];
    at_line 646 ["np"; "q_min"; "qv"; "mycumqdist"] ["cum_qmin"];
    at_line 648 ["mycumqdist"; "cum_qmin"] ["mycumqdist"];
    at_line 649 ["mycumqdist"; "max"] ["mycumqdist"];
    at_line 651 ["np"; "qv"; "q_min"] ["indq"];
    at_line 652 ["mycumqdist"; "indq"] [] ]%string.

(** Lines 655 to 664: the mass ratio, the four appends and the total. *)
Definition binary_tail : list stmt :=
  [ at_line 655 ["np"; "mycumqdist"; "qv"] ["myq"];
    at_line 658 ["primary_mass_list"; "myM1"] [];
    at_line 659 ["secondary_mass_list"; "myq"; "myM1"] [];
    at_line 660 ["porb_list"; "logP"; "sec_in_day"] [];
    at_line 661 ["ecc_list"; "mye"] [];
    at_line 663 ["total_mass"; "myM1"] ["total_mass"];
    at_line 664 ["total_mass"; "myq"; "myM1"] ["total_mass"] ]%string.

(** Line 666: the single star. *)
Definition single_branch : list stmt :=
  [ at_line 666 ["total_mass"; "myM1"] ["total_mass"] ]%string.

(** Line 667. *)
Definition epilogue : list stmt :=
  [ at_line 667 ["np"; "primary_mass_list"; "secondary_mass_list"; "porb_list";
                 "ecc_list"; "total_mass"] [] ]%string.

(** The locals of [initial_sample]: its parameters and every name that a
    statement of its body binds. *)
Definition locals : list string :=
  params ++ flat_map binds
    (prologue ++ trial_head ++ rescale ++ binary_test ++ binary_head ++ truncation
     ++ binary_tail ++ single_branch ++ epilogue).

(** The first trial of a call, by the three tests on its way:
    [myM1 <= 0.8] (line 618), [myrand < mybinfrac] (line 628) and
    [myM1 < 0.8] (line 643). *)
Definition first_trial (rescaled binary truncated : bool) : list stmt :=
  prologue ++ trial_head ++ (if rescaled then rescale else []) ++ binary_test
  ++ (if binary
      then binary_head ++ (if truncated then truncation else []) ++ binary_tail
      else single_branch).

(** The names bound at module level (lines 22 to 222) and the builtins
    that the body reads. *)
Definition module_names : list string :=
  ["np"; "math"; "random"; "__author__"; "__credits__"; "__all__";
   "G"; "c"; "parsec"; "Rsun"; "Msun"; "day"; "rsun_in_au"; "day_in_year";
   "sec_in_day"; "sec_in_hour"; "hrs_in_day"; "sec_in_year"; "Tobs"; "geo_mass";
   "Sample"; "MultiDimSample"]%string.

Definition builtins : list string := ["abs"; "min"; "max"; "range"; "int"]%string.

(** The other names that the body reads without binding them: the function
    [populate_pdfs] of the class body, its locals [M1v], [qv] and [ev], and
    [logPv], which no statement of the file binds. *)
Definition borrowed_names : list string :=
  ["populate_pdfs"; "M1v"; "logPv"; "qv"; "ev"]%string.

End Scope.

(** ** A rational implementation of [NumLib]

    Used to run the samplers on concrete inputs.  [log10] is the chord
    interpolation of the decimal logarithm through the powers of ten
    (exact at [0.01], [0.1], [1], [10], [100]); [pow] and [exp] are exact
    for integer exponents; the two generators return uniform draws. *)

Definition log10_chord (x : Q) : Q :=
  np_interp x [(1 # 100); (1 # 10); 1; 10; 100] [- 2; - 1; 0; 1; 2].

#[export] Instance RationalLib : NumLib := {|
  log10 := log10_chord;
  pow := fun x y => Qpower x (Qfloor y);
  exp := fun x => Qpower (2718 # 1000) (Qfloor x);
  ln := fun x => (2302 # 1000) * log10_chord x;
  pi := (3141 # 1000);
  random_power := fun _ n => random_uniform 0 1 n;
  random_lognormal := fun _ _ n => random_uniform 0 1 n
|}.

(** Tables of the right shape for running the sampler: every conditional
    CDF is the uniform one on its grid, and the period CDF of every mass
    rises linearly to a binary fraction of one half. *)
Definition ramp (n : nat) (top : Q) : list Q :=
  map (fun k => inject_Z (Z.of_nat k) / inject_Z (Z.of_nat (n - 1)) * top) (seq 0 n).

Definition uniform_tables : MultiDimSample.tables :=
  {| MultiDimSample.cumq :=
       repeat (repeat (ramp MultiDimSample.numq 1) MultiDimSample.numlogP) MultiDimSample.numM1;
     MultiDimSample.cume :=
       repeat (repeat (ramp MultiDimSample.nume 1) MultiDimSample.numlogP) MultiDimSample.numM1;
     MultiDimSample.cumPbin :=
       repeat (ramp MultiDimSample.numlogP (1 # 2)) MultiDimSample.numM1 |}.

(** A generator whose draws are all equal. *)
Definition constant_draws (u : Q) : rng := fun _ => u.

(** ** Vocabulary of the statements *)

(** A slice that never decreases along its axis. *)
Fixpoint nondecreasing (l : list Q) : Prop :=
  match l with
  | x :: ((y :: _) as r) => x <= y /\ nondecreasing r
  | _ => True
  end.

(** Strictly increasing abscissas. *)
Fixpoint increasing (l : list Q) : Prop :=
  match l with
  | x :: ((y :: _) as r) => x < y /\ increasing r
  | _ => True
  end.

(** Abscissas at the constant distance [h]. *)
Fixpoint equispaced (h : Q) (l : list Q) : Prop :=
  match l with
  | x :: ((y :: _) as r) => y == x + h /\ equispaced h r
  | _ => True
  end.

(** The steps of the period grid and of the mass-ratio grid. *)
Definition logP_step : Q :=
  (8 - (15 # 100)) / inject_Z (Z.of_nat (MultiDimSample.numlogP - 1)).
Definition qv_step : Q :=
  (1 - (1 # 10)) / inject_Z (Z.of_nat (MultiDimSample.numq - 1)).

(** A stored slice that is a CDF up to [top]: finite, never decreasing
    along its axis, with its final value in [[0, top]]. *)
Definition cdf_slice (top : Q) (s : list fval) : Prop :=
  exists c, s = map Fin c /\ nondecreasing c /\ 0 <= last c 0 /\ last c 0 <= top.

(** What the statements ask of the library: powers of positive numbers and
    exponentials are positive. *)
Definition pow_positive {NL : NumLib} : Prop := forall x y, 0 < x -> 0 < pow x y.
Definition exp_positive {NL : NumLib} : Prop := forall x, 0 < exp x.

(** What the tables ask of the library beyond positivity: at every grid
    period beyond two days the largest eccentricity
    [e_max = 1 - (P / 2)^(-2/3)] is at least [0.05], five steps of the
    eccentricity grid.  (At the first such period, [log P = 0.35], it is
    [0.072], and it grows with the period.) *)
Definition eccentricity_resolved {NL : NumLib} : Prop :=
  forall mylogP, In mylogP MultiDimSample.logPv -> 2 < pow 10 mylogP ->
    (5 # 100) <= 1 - pow (pow 10 mylogP / 2) (- (2 # 3)).

(** The decimal logarithm of a grid mass, between [0.8] and [40] solar
    masses, lies in [[-0.1, 1.7]]. *)
Definition grid_mass {NL : NumLib} (myM1 : Q) : Prop :=
  - (1 # 10) <= log10 myM1 /\ log10 myM1 <= (17 # 10).

(** The column [flogP_sq[:, i] * probbin[:, i]] of a mass, cell by cell. *)
Definition period_weights {NL : NumLib} (myM1 : Q) : list Q :=
  map (fun mylogP =>
         MultiDimSample.flogP myM1 mylogP
         * MultiDimSample.idl_tabulate MultiDimSample.qv (MultiDimSample.fq myM1 mylogP)
         * MultiDimSample.probbin myM1 mylogP) MultiDimSample.logPv.

(** The mass that a trial adds to the total besides its secondary. *)
Definition trial_mass (t : MultiDimSample.trial) : Q :=
  match t with
  | MultiDimSample.Single myM1 => myM1
  | MultiDimSample.Binary myM1 _ _ _ => myM1
  end.

(** The secondary mass that a trial appends, if any. *)
Definition trial_secondary (t : MultiDimSample.trial) : list Q :=
  match t with
  | MultiDimSample.Single _ => []
  | MultiDimSample.Binary myM1 myq _ _ => [myq * myM1]
  end.

Definition is_binary (t : MultiDimSample.trial) : bool :=
  match t with
  | MultiDimSample.Single _ => false
  | MultiDimSample.Binary _ _ _ _ => true
  end.
(** * Properties *)

(** ** Comparisons *)

Lemma Qleb_true (a b : Q) : Qleb a b = true <-> a <= b.
Proof.
  unfold Qleb. destruct (Qlt_le_dec b a); split; intro; try discriminate; try reflexivity; try assumption.
  exfalso. apply (Qlt_not_le _ _ q). assumption.
Qed.

Lemma Qleb_false (a b : Q) : Qleb a b = false <-> b < a.
Proof.
  unfold Qleb. destruct (Qlt_le_dec b a); split; intro; try discriminate; try reflexivity; try assumption.
  exfalso. apply (Qlt_not_le _ _ H). assumption.
Qed.

Lemma Qltb_true (a b : Q) : Qltb a b = true <-> a < b.
Proof.
  unfold Qltb. destruct (Qlt_le_dec a b); split; intro; try discriminate; try reflexivity; try assumption.
  exfalso. apply (Qlt_not_le _ _ H). assumption.
Qed.

Lemma Qltb_false (a b : Q) : Qltb a b = false <-> b <= a.
Proof.
  unfold Qltb. destruct (Qlt_le_dec a b); split; intro; try discriminate; try reflexivity; try assumption.
  exfalso. apply (Qlt_not_le _ _ q). assumption.
Qed.

Lemma Qeq_bool_true (a b : Q) : Qeq_bool a b = true <-> a == b.
Proof. split; [apply Qeq_bool_eq | apply Qeq_eq_bool]. Qed.

Lemma Qeq_bool_false (a b : Q) : Qeq_bool a b = false <-> ~ a == b.
Proof.
  split.
  - intros H E. apply Qeq_eq_bool in E. congruence.
  - intro H. destruct (Qeq_bool a b) eqn:E; [|reflexivity].
    apply Qeq_bool_eq in E. contradiction.
Qed.

(** ** class [Sample] *)

Section SampleProps.

Context {NL : NumLib}.

Lemma mul_arrays_uniform (lo hi : Q) (g : rng) (l : list Q) (a : nat) (P : Q -> Q -> Prop) :
  (forall m k, In m l -> P m (m * (lo + (hi - lo) * g k))) ->
  Forall2 P l (Sample.mul_arrays l (map (fun k => lo + (hi - lo) * g k) (seq a (List.length l)))).
Proof.
  revert a. induction l as [|m l IH]; intros a HP; simpl.
  - constructor.
  - constructor.
    + apply HP. left. reflexivity.
    + apply IH. intros m' k Hin. apply HP. right. assumption.
Qed.

(** C10.  For strictly positive primaries and unit draws, each secondary
    mass returned by [sample_secondary] is at least [0.001] times its
    primary and strictly below it. *)
Theorem sample_secondary_below_primary (primary_mass : list Q) (g : rng) (s : nat) :
  unit_draws g ->
  Forall (fun m => 0 < m) primary_mass ->
  Forall2 (fun m m2 => (1 # 1000) * m <= m2 /\ m2 < m)
          primary_mass (fst (Sample.sample_secondary primary_mass g s)).
Proof.
  intros Hg Hpos. unfold Sample.sample_secondary, bind, random_uniform, ret. simpl.
  apply (mul_arrays_uniform ((1 # 1000)) 1 (fun k => g (s + k)%nat) primary_mass 0).
  intros m k Hin. rewrite Forall_forall in Hpos. specialize (Hpos m Hin).
  destruct (Hg (s + k)%nat) as [H0 H1].
  set (u := g (s + k)%nat) in *.
  assert (Hmu : 0 <= m * u) by (apply Qmult_le_0_compat; lra).
  assert (Hmu1 : m * u < m * 1) by (apply Qmult_lt_l; assumption).
  split.
  - setoid_replace (m * ((1 # 1000) + (1 - (1 # 1000)) * u))
      with ((1 # 1000) * m + (999 # 1000) * (m * u)) by ring. lra.
  - setoid_replace (m * ((1 # 1000) + (1 - (1 # 1000)) * u))
      with ((1 # 1000) * m + (999 # 1000) * (m * u)) by ring. lra.
Qed.

(** C6 (as amended).  A selector outside the recognised set makes each
    sampler return [None]: no exception is raised and the generator is left
    where it was. *)
Theorem unknown_selector_returns_none (model : string) (g : rng) (s : nat) :
  (forall kstar1_final size, ~ In model ["kroupa93"; "salpeter55"]%string ->
     Sample.sample_primary kstar1_final model size g s = (ReturnsNone, s)) /\
  (forall mass1 mass2 size, ~ In model ["Han"; "log_normal"]%string ->
     Sample.sample_porb mass1 mass2 model size g s = (ReturnsNone, s)) /\
  (forall size, ~ In model ["thermal"; "uniform"]%string ->
     Sample.sample_ecc model size g s = (ReturnsNone, s)) /\
  (forall size, ~ In model ["const"; "burst"]%string ->
     Sample.sample_SFH model size g s = (ReturnsNone, s) /\
     MultiDimSample.sample_SFH model size g s = (ReturnsNone, s)).
Proof.
  assert (Hneq : forall a b : string, ~ In model [a; b] ->
                 String.eqb model a = false /\ String.eqb model b = false).
  { intros a b Hn. split; apply String.eqb_neq; intro E; apply Hn; subst; simpl; auto. }
  repeat split; intros;
    match goal with H : ~ In model _ |- _ => destruct (Hneq _ _ H) as [E1 E2] end.
  - unfold Sample.sample_primary. rewrite E1, E2. reflexivity.
  - unfold Sample.sample_porb. rewrite E1, E2. reflexivity.
  - unfold Sample.sample_ecc. rewrite E1, E2. reflexivity.
  - unfold Sample.sample_SFH. rewrite E1, E2. reflexivity.
  - unfold MultiDimSample.sample_SFH. rewrite E1, E2. reflexivity.
Qed.

End SampleProps.

Lemma sample_secondary_below_primary_witness :
  Forall2 (fun m m2 => (1 # 1000) * m <= m2 /\ m2 < m)
          [1; 10] (fst (Sample.sample_secondary [1; 10] (constant_draws (1 # 2)) 0%nat)).
Proof.
  apply sample_secondary_below_primary.
  - intro n. unfold constant_draws. split; lra.
  - repeat constructor; lra.
Defined.

(** C7.  A draw equal to the binary fraction puts the primary in neither
    subset: at mass [10] the fraction is [0.75], and with the draw [0.75]
    both returned arrays are empty. *)
Theorem binary_select_drops_tie :
  @Sample.binary_fraction RationalLib 10 == (3 # 4) /\
  fst (@Sample.binary_select RationalLib [10] "vanHaaften" (constant_draws (3 # 4)) 0%nat)
  = Returns ([], []).
Proof. split; reflexivity. Qed.

(** C6 (counterexample).  [sample_ecc] with the selector ["gaussian"]
    returns [None]; it does not raise. *)
Lemma sample_ecc_unknown_selector_no_error :
  fst (@Sample.sample_ecc RationalLib "gaussian" 3 (constant_draws (1 # 2)) 0%nat) = ReturnsNone /\
  ~ is_error (fst (@Sample.sample_ecc RationalLib "gaussian" 3 (constant_draws (1 # 2)) 0%nat)).
Proof. split; [reflexivity | simpl; tauto]. Qed.

Lemma unknown_selector_returns_none_witness :
  @Sample.sample_ecc RationalLib "gaussian" 3 (constant_draws (1 # 2)) 0%nat = (ReturnsNone, 0%nat).
Proof.
  apply (@unknown_selector_returns_none RationalLib "gaussian" (constant_draws (1 # 2)) 0%nat).
  simpl. intros [H | [H | []]]; discriminate H.
Defined.

(** ** The normalisation of a density into a CDF *)

Import MultiDimSample.

Lemma nondecreasing_map (g : Q -> Q) (l : list Q) :
  (forall a b, a <= b -> g a <= g b) ->
  nondecreasing l -> nondecreasing (map g l).
Proof.
  intro Hg. induction l as [|x [|y r] IH]; simpl; auto.
  intros [Hxy Hr]. split; [apply Hg; assumption | apply IH; assumption].
Qed.

Lemma cumsum_from_nondecreasing (f : list Q) (acc : Q) :
  Forall (fun v => 0 <= v) f -> nondecreasing (cumsum_from acc f).
Proof.
  revert acc. induction f as [|x [|y r] IH]; intros acc Hf; simpl; auto.
  inversion Hf as [|? ? Hx Hr]; subst. inversion Hr as [|? ? Hy Hr']; subst.
  split; [lra | apply (IH (acc + x) Hr)].
Qed.

Lemma fold_left_Qmax_ge (l : list Q) (a : Q) : a <= fold_left Qmax l a.
Proof.
  revert a. induction l as [|x l IH]; intro a; simpl; [lra|].
  eapply Qle_trans; [apply (Q.le_max_l a x) | apply IH].
Qed.

Lemma fold_left_Qmax_le (l : list Q) (a b : Q) :
  a <= b -> Forall (fun v => v <= b) l -> fold_left Qmax l a <= b.
Proof.
  revert a. induction l as [|x l IH]; intros a Ha Hl; simpl; [assumption|].
  inversion Hl; subst. apply IH; [apply Q.max_lub; assumption | assumption].
Qed.

Lemma nondecreasing_le_last (l : list Q) (x : Q) :
  nondecreasing (x :: l) -> Forall (fun v => v <= last (x :: l) 0) (x :: l).
Proof.
  revert x. induction l as [|y l IH]; intros x H.
  - simpl. constructor; [lra | constructor].
  - destruct H as [Hxy Hr]. specialize (IH y Hr).
    change (last (x :: y :: l) 0) with (last (y :: l) 0).
    constructor; [|assumption].
    inversion IH; subst. lra.
Qed.

Lemma last_In (l : list Q) (x : Q) : In (last (x :: l) 0) (x :: l).
Proof.
  revert x. induction l as [|y l IH]; intro x; [left; reflexivity|].
  right. apply IH.
Qed.

Lemma fold_left_Qmax_upper (l : list Q) (a : Q) :
  Forall (fun v => v <= fold_left Qmax l a) l.
Proof.
  revert a. induction l as [|x l IH]; intro a; simpl; constructor.
  - eapply Qle_trans; [apply (Q.le_max_r a x) | apply fold_left_Qmax_ge].
  - apply IH.
Qed.

Lemma np_max_upper (l : list Q) : Forall (fun v => v <= np_max l) l.
Proof.
  destruct l as [|x l]; simpl; constructor.
  - apply fold_left_Qmax_ge.
  - apply fold_left_Qmax_upper.
Qed.

Lemma np_max_le (l : list Q) (b : Q) :
  0 <= b -> Forall (fun v => v <= b) l -> np_max l <= b.
Proof.
  intros Hb Hl. destruct l as [|x l]; simpl; [assumption|].
  inversion Hl; subst. apply fold_left_Qmax_le; assumption.
Qed.

Lemma np_max_nondecreasing (l : list Q) :
  l <> [] -> nondecreasing l -> np_max l == last l 0.
Proof.
  intros Hne Hl. destruct l as [|x l]; [congruence|].
  apply Qle_antisym.
  - pose proof (nondecreasing_le_last l x Hl) as Hle.
    inversion Hle; subst. simpl np_max. apply fold_left_Qmax_le; assumption.
  - pose proof (np_max_upper (x :: l)) as Hup.
    rewrite Forall_forall in Hup. apply Hup. apply last_In.
Qed.

Lemma last_map (g : Q -> Q) (l : list Q) :
  l <> [] -> last (map g l) 0 = g (last l 0).
Proof.
  induction l as [|x [|y r] IH]; intro Hne; [congruence | reflexivity |].
  change (last (map g (y :: r)) 0 = g (last (y :: r) 0)). apply IH. discriminate.
Qed.

Lemma cum_offset_nondecreasing (f : list Q) :
  Forall (fun v => 0 <= v) f -> nondecreasing (cum_offset f).
Proof.
  intro Hf. unfold cum_offset. apply nondecreasing_map.
  - intros a b Hab. lra.
  - apply cumsum_from_nondecreasing. assumption.
Qed.

Lemma np_div_pos (c m : Q) : 0 < m -> np_div c m = Fin (c / m).
Proof.
  intro Hm. unfold np_div.
  destruct (Qeq_bool m 0) eqn:E; [|reflexivity].
  apply Qeq_bool_eq in E. lra.
Qed.

(** The finite values of a normalised slice, when its divisor is positive. *)
Lemma normalise_cdf_finite (f : list Q) :
  0 < np_max (cum_offset f) ->
  normalise_cdf f = map Fin (map (fun c => c / np_max (cum_offset f)) (cum_offset f)).
Proof.
  intro Hm. unfold normalise_cdf. rewrite map_map.
  apply map_ext. intro c. apply np_div_pos. assumption.
Qed.

Lemma normalise_period_finite (x w : list Q) :
  0 < np_max (cum_offset w) ->
  normalise_period x w
  = map Fin (map (fun c => c / np_max (cum_offset w) * idl_tabulate x w) (cum_offset w)).
Proof.
  intro Hm. unfold normalise_period. rewrite map_map.
  apply map_ext. intro c. rewrite np_div_pos by assumption. reflexivity.
Qed.

Lemma scaled_cdf_shape (f : list Q) (B : Q) :
  Forall (fun v => 0 <= v) f -> 0 < np_max (cum_offset f) -> 0 <= B ->
  let c := map (fun c => c / np_max (cum_offset f) * B) (cum_offset f) in
  nondecreasing c /\ last c 0 == B.
Proof.
  intros Hf Hm HB c. subst c.
  pose proof (cum_offset_nondecreasing f Hf) as Hnd.
  assert (Hne : cum_offset f <> []).
  { intro E. rewrite E in Hm. simpl in Hm. lra. }
  split.
  - apply nondecreasing_map; [|assumption].
    intros a b Hab. apply Qmult_le_compat_r; [|assumption].
    apply Qmult_le_compat_r; [assumption|].
    apply Qlt_le_weak, Qinv_lt_0_compat. assumption.
  - rewrite last_map by assumption.
    rewrite <- (np_max_nondecreasing _ Hne Hnd).
    field. lra.
Qed.

(** ** The quadrature [idl_tabulate] *)

Lemma last_nth_pred (l : list Q) : last l 0 = nth (List.length l - 1) l 0.
Proof.
  induction l as [|x l IH]; [reflexivity|].
  destruct l as [|y r]; [reflexivity|].
  transitivity (last (y :: r) 0); [reflexivity|].
  rewrite IH. simpl. rewrite Nat.sub_0_r. reflexivity.
Qed.

Lemma hd_skipn (l : list Q) (i : nat) : hd 0 (skipn i l) = nth i l 0.
Proof.
  revert l. induction i as [|i IH]; intros [|x l]; simpl; auto.
Qed.

Lemma nth_skipn_add (l : list Q) (i j : nat) : nth j (skipn i l) 0 = nth (i + j) l 0.
Proof.
  revert l. induction i as [|i IH]; intros [|x l]; simpl; auto. destruct j; reflexivity.
Qed.

Lemma nth_firstn_lt (l : list Q) (m j : nat) : (j < m)%nat -> nth j (firstn m l) 0 = nth j l 0.
Proof.
  revert l j. induction m as [|m IH]; intros l j Hj; [lia|].
  destruct l as [|x l]; [destruct j; reflexivity|].
  destruct j; simpl; [reflexivity | apply IH; lia].
Qed.

Lemma slice_length (a : list Q) (i p : nat) :
  List.length (slice a i (i + p)) = Nat.min p (List.length a - i).
Proof.
  unfold slice. replace (i + p - i)%nat with p by lia.
  rewrite length_firstn, length_skipn. reflexivity.
Qed.

Lemma slice_hd (a : list Q) (i p : nat) :
  (0 < p)%nat -> hd 0 (slice a i (i + p)) = nth i a 0.
Proof.
  intro Hp. unfold slice. replace (i + p - i)%nat with p by lia.
  destruct p as [|p]; [lia|].
  rewrite <- hd_skipn. destruct (skipn i a); reflexivity.
Qed.

Lemma slice_last (a : list Q) (i p : nat) :
  (0 < p)%nat -> (i < List.length a)%nat ->
  last (slice a i (i + p)) 0 = nth (Nat.min (i + p - 1) (List.length a - 1)) a 0.
Proof.
  intros Hp Hi. rewrite last_nth_pred, slice_length.
  unfold slice. replace (i + p - i)%nat with p by lia.
  rewrite nth_firstn_lt by lia. rewrite nth_skipn_add.
  f_equal. lia.
Qed.

Lemma slice_map (g : Q -> Q) (a : list Q) (i j : nat) :
  slice (map g a) i j = map g (slice a i j).
Proof. unfold slice. rewrite skipn_map, firstn_map. reflexivity. Qed.

Lemma increasing_tail (x : Q) (l : list Q) : increasing (x :: l) -> increasing l.
Proof. destruct l; simpl; tauto. Qed.

Lemma increasing_skipn (l : list Q) (i : nat) : increasing l -> increasing (skipn i l).
Proof.
  revert l. induction i as [|i IH]; intros l Hl; [assumption|].
  destruct l as [|x l]; [exact I|]. simpl. apply IH. eapply increasing_tail. eassumption.
Qed.

Lemma increasing_firstn (l : list Q) (m : nat) : increasing l -> increasing (firstn m l).
Proof.
  revert l. induction m as [|m IH]; intros l Hl; [exact I|].
  destruct l as [|x [|y r]]; [exact I | destruct m; exact I |].
  destruct Hl as [Hxy Hr]. specialize (IH (y :: r) Hr).
  destruct m as [|m]; [exact I|]. simpl in *. split; assumption.
Qed.

Lemma increasing_slice (l : list Q) (i j : nat) : increasing l -> increasing (slice l i j).
Proof. intro H. unfold slice. apply increasing_firstn, increasing_skipn, H. Qed.

(** One window on a constant: the weights add up to the number of
    intervals, so the window returns [k] times its width. *)
Lemma window_const (k : Q) (w : list Q) :
  (1 <= List.length w <= 5)%nat -> increasing w ->
  newton_cotes w (map (fun _ => k) w) == k * (last w 0 - hd 0 w).
Proof.
  intros Hlen Hinc.
  destruct w as [|x0 [|x1 [|x2 [|x3 [|x4 [|x5 w]]]]]]; simpl in Hlen; try lia.
  - unfold newton_cotes. simpl. ring.
  - destruct Hinc as [H01 _].
    unfold newton_cotes, Scipy.newton_cotes.
    cbn -[Qplus Qmult Qdiv Qminus Qopp Qinv]. field. repeat split; lra.
  - destruct Hinc as [H01 [H12 _]].
    unfold newton_cotes, Scipy.newton_cotes.
    cbn -[Qplus Qmult Qdiv Qminus Qopp Qinv]. field. repeat split; lra.
  - destruct Hinc as [H01 [H12 [H23 _]]].
    unfold newton_cotes, Scipy.newton_cotes.
    cbn -[Qplus Qmult Qdiv Qminus Qopp Qinv]. field. repeat split; lra.
  - destruct Hinc as [H01 [H12 [H23 [H34 _]]]].
    unfold newton_cotes, Scipy.newton_cotes.
    cbn -[Qplus Qmult Qdiv Qminus Qopp Qinv]. field. repeat split; lra.
Qed.

Lemma window_at_const (k : Q) (x : list Q) (idx : nat) :
  increasing x -> (idx < List.length x)%nat ->
  newton_cotes (slice x idx (idx + 5)) (slice (map (fun _ => k) x) idx (idx + 5))
  == k * (nth (Nat.min (idx + 4) (List.length x - 1)) x 0 - nth idx x 0).
Proof.
  intros Hinc Hidx. rewrite slice_map.
  rewrite window_const.
  - rewrite slice_last, slice_hd by lia.
    replace (idx + 5 - 1)%nat with (idx + 4)%nat by lia. reflexivity.
  - rewrite slice_length. lia.
  - apply increasing_slice. assumption.
Qed.

Lemma tabulate_const_partial (k : Q) (x : list Q) (c : nat) :
  increasing x -> (0 < List.length x)%nat -> (4 * (c - 1) < List.length x)%nat ->
  fold_left
    (fun ret idx => ret + newton_cotes (slice x idx (idx + 5))
                                       (slice (map (fun _ => k) x) idx (idx + 5)))
    (map (fun j => (j * 4)%nat) (seq 0 c)) 0
  == k * (nth (Nat.min (4 * c) (List.length x - 1)) x 0 - nth 0 x 0).
Proof.
  intros Hinc Hpos. induction c as [|c IH]; intro Hc.
  - simpl. ring.
  - rewrite seq_S, map_app, fold_left_app. simpl fold_left.
    rewrite IH by lia.
    rewrite window_at_const by (try assumption; lia).
    replace (Nat.min (4 * c) (List.length x - 1)) with (c * 4)%nat by lia.
    replace (Nat.min (c * 4 + 4) (List.length x - 1))
      with (Nat.min (4 * S c) (List.length x - 1)) by lia.
    ring.
Qed.

(** In exact arithmetic, where every window passes the test of scipy, the
    quadrature of the constant [k] on strictly increasing abscissas (two or
    more) is [k] times the length of the interval. *)
Lemma tabulate_constant_exact (k : Q) (x : list Q) :
  increasing x -> (2 <= List.length x)%nat ->
  idl_tabulate x (map (fun _ => k) x) == k * (last x 0 - hd 0 x).
Proof.
  intros Hinc Hlen. unfold idl_tabulate, idl_tabulate_p, xrange0.
  change (5 - 1)%nat with 4%nat.
  rewrite tabulate_const_partial; try assumption; try lia.
  - rewrite last_nth_pred.
    replace (Nat.min (4 * ((List.length x + 4 - 1) / 4)) (List.length x - 1))
      with (List.length x - 1)%nat.
    + destruct x; reflexivity.
    + pose proof (Nat.div_mod_eq (List.length x + 4 - 1) 4).
      pose proof (Nat.mod_upper_bound (List.length x + 4 - 1) 4). lia.
  - pose proof (Nat.div_mod_eq (List.length x + 4 - 1) 4).
    pose proof (Nat.mod_upper_bound (List.length x + 4 - 1) 4). lia.
Qed.

(** ** Quadrature of a non-negative tabulation on an even grid *)

(** Congruence of an arithmetic expression, node by node. *)
Ltac qcong :=
  repeat first
    [ apply Qplus_comp | apply Qmult_comp | apply Qminus_comp
    | apply Qdiv_comp | apply Qopp_comp | apply Qinv_comp
    | assumption
    | apply Qeq_refl ].

Ltac unfold_window :=
  unfold newton_cotes, Scipy.newton_cotes;
  cbn -[Qplus Qmult Qdiv Qminus Qopp Qinv].

(** On evenly spaced positions the windows are the closed Newton-Cotes
    rules: trapezium, Simpson, three-eighths and Boole. *)
Lemma window2_even (h x0 x1 f0 f1 : Q) :
  x1 == x0 + h -> ~ h == 0 ->
  newton_cotes [x0; x1] [f0; f1] == h * ((1 # 2) * f0 + (1 # 2) * f1).
Proof.
  intros H1 Hh.
  transitivity (newton_cotes [x0; x0 + h] [f0; f1]).
  - unfold_window. qcong.
  - unfold_window. field. repeat split; try lra; intro E; apply Hh; lra.
Qed.

Lemma window3_even (h x0 x1 x2 f0 f1 f2 : Q) :
  x1 == x0 + h -> x2 == x0 + 2 * h -> ~ h == 0 ->
  newton_cotes [x0; x1; x2] [f0; f1; f2]
  == h * ((1 # 3) * f0 + (4 # 3) * f1 + (1 # 3) * f2).
Proof.
  intros H1 H2 Hh.
  transitivity (newton_cotes [x0; x0 + h; x0 + 2 * h] [f0; f1; f2]).
  - unfold_window. qcong.
  - unfold_window. field. repeat split; try lra; intro E; apply Hh; lra.
Qed.

Lemma window4_even (h x0 x1 x2 x3 f0 f1 f2 f3 : Q) :
  x1 == x0 + h -> x2 == x0 + 2 * h -> x3 == x0 + 3 * h -> ~ h == 0 ->
  newton_cotes [x0; x1; x2; x3] [f0; f1; f2; f3]
  == h * ((3 # 8) * f0 + (9 # 8) * f1 + (9 # 8) * f2 + (3 # 8) * f3).
Proof.
  intros H1 H2 H3 Hh.
  transitivity (newton_cotes [x0; x0 + h; x0 + 2 * h; x0 + 3 * h] [f0; f1; f2; f3]).
  - unfold_window. qcong.
  - unfold_window. field. repeat split; try lra; intro E; apply Hh; lra.
Qed.

Lemma window5_even (h x0 x1 x2 x3 x4 f0 f1 f2 f3 f4 : Q) :
  x1 == x0 + h -> x2 == x0 + 2 * h -> x3 == x0 + 3 * h -> x4 == x0 + 4 * h -> ~ h == 0 ->
  newton_cotes [x0; x1; x2; x3; x4] [f0; f1; f2; f3; f4]
  == h * ((14 # 45) * f0 + (64 # 45) * f1 + (24 # 45) * f2 + (64 # 45) * f3 + (14 # 45) * f4).
Proof.
  intros H1 H2 H3 H4 Hh.
  transitivity (newton_cotes [x0; x0 + h; x0 + 2 * h; x0 + 3 * h; x0 + 4 * h] [f0; f1; f2; f3; f4]).
  - unfold_window. qcong.
  - unfold_window. field. repeat split; try lra; intro E; apply Hh; lra.
Qed.

(** A window of an even grid, on values that are all at least [m >= 0],
    is at least [m] times ... its sign is all the statements need: it is
    non-negative, and positive when the values are and the window has two
    points or more. *)
Lemma window_even_nonneg (h : Q) (w fw : list Q) :
  0 < h -> equispaced h w -> List.length fw = List.length w ->
  (List.length w <= 5)%nat -> Forall (fun v => 0 <= v) fw ->
  0 <= newton_cotes w fw.
Proof.
  intros Hh He Hlen H5 Hf.
  assert (Hh0 : ~ h == 0) by lra.
  destruct w as [|x0 [|x1 [|x2 [|x3 [|x4 [|x5 w]]]]]]; simpl in H5; try lia;
    destruct fw as [|f0 [|f1 [|f2 [|f3 [|f4 [|f5 fw]]]]]]; simpl in Hlen; try discriminate;
    try (unfold newton_cotes; simpl; lra).
  - destruct He as [E1 _].
    rewrite (window2_even h) by assumption.
    inversion Hf as [|? ? P0 Hf1]; subst. inversion Hf1 as [|? ? P1 Hf2]; subst.
    apply Qmult_le_0_compat; lra.
  - destruct He as [E1 [E2 _]].
    rewrite (window3_even h) by (try assumption; lra).
    inversion Hf as [|? ? P0 Hf1]; subst. inversion Hf1 as [|? ? P1 Hf2]; subst.
    inversion Hf2 as [|? ? P2 Hf3]; subst.
    apply Qmult_le_0_compat; lra.
  - destruct He as [E1 [E2 [E3 _]]].
    rewrite (window4_even h) by (try assumption; lra).
    inversion Hf as [|? ? P0 Hf1]; subst. inversion Hf1 as [|? ? P1 Hf2]; subst.
    inversion Hf2 as [|? ? P2 Hf3]; subst. inversion Hf3 as [|? ? P3 Hf4]; subst.
    apply Qmult_le_0_compat; lra.
  - destruct He as [E1 [E2 [E3 [E4 _]]]].
    rewrite (window5_even h) by (try assumption; lra).
    inversion Hf as [|? ? P0 Hf1]; subst. inversion Hf1 as [|? ? P1 Hf2]; subst.
    inversion Hf2 as [|? ? P2 Hf3]; subst. inversion Hf3 as [|? ? P3 Hf4]; subst.
    inversion Hf4 as [|? ? P4 Hf5]; subst.
    apply Qmult_le_0_compat; lra.
Qed.

Lemma window_even_pos (h : Q) (w fw : list Q) :
  0 < h -> equispaced h w -> List.length fw = List.length w ->
  (2 <= List.length w <= 5)%nat -> Forall (fun v => 0 < v) fw ->
  0 < newton_cotes w fw.
Proof.
  intros Hh He Hlen H5 Hf.
  assert (Hh0 : ~ h == 0) by lra.
  destruct w as [|x0 [|x1 [|x2 [|x3 [|x4 [|x5 w]]]]]]; simpl in H5; try lia;
    destruct fw as [|f0 [|f1 [|f2 [|f3 [|f4 [|f5 fw]]]]]]; simpl in Hlen; try discriminate.
  - destruct He as [E1 _].
    rewrite (window2_even h) by assumption.
    inversion Hf as [|? ? P0 Hf1]; subst. inversion Hf1 as [|? ? P1 Hf2]; subst.
    apply Qmult_lt_0_compat; lra.
  - destruct He as [E1 [E2 _]].
    rewrite (window3_even h) by (try assumption; lra).
    inversion Hf as [|? ? P0 Hf1]; subst. inversion Hf1 as [|? ? P1 Hf2]; subst.
    inversion Hf2 as [|? ? P2 Hf3]; subst.
    apply Qmult_lt_0_compat; lra.
  - destruct He as [E1 [E2 [E3 _]]].
    rewrite (window4_even h) by (try assumption; lra).
    inversion Hf as [|? ? P0 Hf1]; subst. inversion Hf1 as [|? ? P1 Hf2]; subst.
    inversion Hf2 as [|? ? P2 Hf3]; subst. inversion Hf3 as [|? ? P3 Hf4]; subst.
    apply Qmult_lt_0_compat; lra.
  - destruct He as [E1 [E2 [E3 [E4 _]]]].
    rewrite (window5_even h) by (try assumption; lra).
    inversion Hf as [|? ? P0 Hf1]; subst. inversion Hf1 as [|? ? P1 Hf2]; subst.
    inversion Hf2 as [|? ? P2 Hf3]; subst. inversion Hf3 as [|? ? P3 Hf4]; subst.
    inversion Hf4 as [|? ? P4 Hf5]; subst.
    apply Qmult_lt_0_compat; lra.
Qed.

Lemma equispaced_tail (h x : Q) (l : list Q) : equispaced h (x :: l) -> equispaced h l.
Proof. destruct l; simpl; tauto. Qed.

Lemma equispaced_skipn (h : Q) (l : list Q) (i : nat) :
  equispaced h l -> equispaced h (skipn i l).
Proof.
  revert l. induction i as [|i IH]; intros l Hl; [assumption|].
  destruct l as [|x l]; [exact I|]. simpl. apply IH. eapply equispaced_tail. eassumption.
Qed.

Lemma equispaced_firstn (h : Q) (l : list Q) (m : nat) :
  equispaced h l -> equispaced h (firstn m l).
Proof.
  revert l. induction m as [|m IH]; intros l Hl; [exact I|].
  destruct l as [|x [|y r]]; [exact I | destruct m; exact I |].
  destruct Hl as [Hxy Hr]. specialize (IH (y :: r) Hr).
  destruct m as [|m]; [exact I|]. simpl in *. split; assumption.
Qed.

Lemma equispaced_slice (h : Q) (l : list Q) (i j : nat) :
  equispaced h l -> equispaced h (slice l i j).
Proof. intro H. unfold slice. apply equispaced_firstn, equispaced_skipn, H. Qed.

Lemma Forall_skipn_Q (P : Q -> Prop) (l : list Q) (i : nat) :
  Forall P l -> Forall P (skipn i l).
Proof.
  revert l. induction i as [|i IH]; intros l H; [assumption|].
  destruct l as [|x l]; [constructor|]. inversion H; subst. simpl. apply IH. assumption.
Qed.

Lemma Forall_firstn_Q (P : Q -> Prop) (l : list Q) (m : nat) :
  Forall P l -> Forall P (firstn m l).
Proof.
  revert l. induction m as [|m IH]; intros l H; [constructor|].
  destruct l as [|x l]; [constructor|]. inversion H; subst. simpl.
  constructor; [assumption | apply IH; assumption].
Qed.

Lemma Forall_slice (P : Q -> Prop) (l : list Q) (i j : nat) :
  Forall P l -> Forall P (slice l i j).
Proof. intro H. unfold slice. apply Forall_firstn_Q, Forall_skipn_Q, H. Qed.

Lemma fold_windows_nonneg (F : nat -> Q) (l : list nat) (acc : Q) :
  (forall idx, 0 <= F idx) -> 0 <= acc ->
  0 <= fold_left (fun ret idx => ret + F idx) l acc.
Proof.
  intro HF. revert acc. induction l as [|i l IH]; intros acc Hacc; simpl; [assumption|].
  apply IH. specialize (HF i). lra.
Qed.

Lemma fold_windows_mono (F : nat -> Q) (l : list nat) (acc : Q) :
  (forall idx, 0 <= F idx) ->
  acc <= fold_left (fun ret idx => ret + F idx) l acc.
Proof.
  intro HF. revert acc. induction l as [|i l IH]; intros acc; simpl; [lra|].
  eapply Qle_trans; [|apply IH]. specialize (HF i). lra.
Qed.

(** On an even grid the quadrature of a non-negative tabulation is
    non-negative. *)
Lemma idl_tabulate_nonneg (h : Q) (x f : list Q) :
  0 < h -> equispaced h x -> List.length f = List.length x ->
  Forall (fun v => 0 <= v) f -> 0 <= idl_tabulate x f.
Proof.
  intros Hh He Hlen Hf. unfold idl_tabulate, idl_tabulate_p.
  apply (fold_windows_nonneg
           (fun idx => newton_cotes (slice x idx (idx + 5)) (slice f idx (idx + 5)))); [|lra].
  intro idx. apply (window_even_nonneg h).
  - assumption.
  - apply equispaced_slice. assumption.
  - rewrite !slice_length. lia.
  - rewrite slice_length. lia.
  - apply Forall_slice. assumption.
Qed.

(** ... and positive for a positive tabulation of two points or more. *)
Lemma idl_tabulate_pos (h : Q) (x f : list Q) :
  0 < h -> equispaced h x -> List.length f = List.length x ->
  (2 <= List.length x)%nat ->
  Forall (fun v => 0 < v) f -> 0 < idl_tabulate x f.
Proof.
  intros Hh He Hlen H2 Hf. unfold idl_tabulate, idl_tabulate_p, xrange0.
  change (5 - 1)%nat with 4%nat.
  assert (Hnn : forall idx, 0 <= newton_cotes (slice x idx (idx + 5)) (slice f idx (idx + 5))).
  { intro idx. apply (window_even_nonneg h).
    - assumption.
    - apply equispaced_slice. assumption.
    - rewrite !slice_length. lia.
    - rewrite slice_length. lia.
    - apply Forall_slice. apply Forall_impl with (2 := Hf). intros; lra. }
  destruct ((List.length x + 4 - 1) / 4)%nat as [|m] eqn:Em.
  { apply Nat.div_small_iff in Em; lia. }
  rewrite <- cons_seq. simpl map. simpl fold_left.
  apply Qlt_le_trans with (0 + newton_cotes (slice x 0 5) (slice f 0 5)).
  - assert (Hw : 0 < newton_cotes (slice x 0 (0 + 5)) (slice f 0 (0 + 5))).
    { apply (window_even_pos h).
      - assumption.
      - apply equispaced_slice. assumption.
      - rewrite !slice_length. lia.
      - rewrite slice_length. lia.
      - apply Forall_slice. assumption. }
    simpl Nat.add in Hw. lra.
  - apply (fold_windows_mono
             (fun idx => newton_cotes (slice x idx (idx + 5)) (slice f idx (idx + 5)))).
    exact Hnn.
Qed.

Lemma inject_Z_S (a : nat) : inject_Z (Z.of_nat (S a)) == inject_Z (Z.of_nat a) + 1.
Proof. rewrite Nat2Z.inj_succ. unfold Z.succ. rewrite inject_Z_plus. reflexivity. Qed.

Lemma ramp_equispaced (lo step : Q) (a n : nat) :
  equispaced step (map (fun k => lo + inject_Z (Z.of_nat k) * step) (seq a n)).
Proof.
  revert a. induction n as [|n IH]; intro a; [exact I|].
  destruct n as [|n]; [exact I|].
  change (lo + inject_Z (Z.of_nat (S a)) * step == lo + inject_Z (Z.of_nat a) * step + step
          /\ equispaced step (map (fun k => lo + inject_Z (Z.of_nat k) * step) (seq (S a) (S n)))).
  split; [|apply IH].
  rewrite inject_Z_S. ring.
Qed.

Lemma np_linspace_equispaced (lo hi : Q) (num : nat) :
  equispaced ((hi - lo) / inject_Z (Z.of_nat (num - 1))) (np_linspace lo hi num).
Proof. unfold np_linspace. apply ramp_equispaced. Qed.

Lemma np_linspace_length (lo hi : Q) (num : nat) : List.length (np_linspace lo hi num) = num.
Proof. unfold np_linspace. rewrite length_map, length_seq. reflexivity. Qed.

Lemma logPv_equispaced : equispaced logP_step logPv.
Proof. apply np_linspace_equispaced. Qed.

Lemma qv_equispaced : equispaced qv_step qv.
Proof. apply np_linspace_equispaced. Qed.

Lemma logP_step_pos : 0 < logP_step.
Proof. reflexivity. Qed.

Lemma qv_step_pos : 0 < qv_step.
Proof. reflexivity. Qed.

Lemma logPv_length : List.length logPv = numlogP.
Proof. apply np_linspace_length. Qed.

Lemma qv_length : List.length qv = numq.
Proof. apply np_linspace_length. Qed.

(** ** The tables of the grid builder *)

Lemma cdf_slice_of_density (f : list Q) :
  Forall (fun v => 0 <= v) f -> 0 < np_max (cum_offset f) ->
  cdf_slice 1 (normalise_cdf f).
Proof.
  intros Hf Hm.
  exists (map (fun c => c / np_max (cum_offset f)) (cum_offset f)).
  split; [apply normalise_cdf_finite; assumption|].
  destruct (scaled_cdf_shape f 1 Hf Hm) as [Hnd Hlast]; [lra|].
  assert (Heq : map (fun c => c / np_max (cum_offset f)) (cum_offset f)
                = map (fun c => c / np_max (cum_offset f) * 1) (cum_offset f) -> True) by auto.
  clear Heq.
  assert (Hnd' : nondecreasing (map (fun c => c / np_max (cum_offset f)) (cum_offset f))).
  { apply nondecreasing_map; [|apply cum_offset_nondecreasing; assumption].
    intros a b Hab. apply Qmult_le_compat_r; [assumption|].
    apply Qlt_le_weak, Qinv_lt_0_compat. assumption. }
  assert (Hne : cum_offset f <> []).
  { intro E. rewrite E in Hm. simpl in Hm. lra. }
  assert (Hl : last (map (fun c => c / np_max (cum_offset f)) (cum_offset f)) 0 == 1).
  { rewrite last_map by assumption.
    rewrite <- (np_max_nondecreasing _ Hne (cum_offset_nondecreasing f Hf)).
    field. lra. }
  split; [assumption|]. rewrite Hl. split; lra.
Qed.

Lemma cdf_slice_of_period (x w : list Q) :
  Forall (fun v => 0 <= v) w -> 0 < np_max (cum_offset w) -> 0 <= idl_tabulate x w ->
  cdf_slice (idl_tabulate x w) (normalise_period x w).
Proof.
  intros Hw Hm HB.
  exists (map (fun c => c / np_max (cum_offset w) * idl_tabulate x w) (cum_offset w)).
  split; [apply normalise_period_finite; assumption|].
  destruct (scaled_cdf_shape w (idl_tabulate x w) Hw Hm HB) as [Hnd Hlast].
  split; [assumption|]. rewrite Hlast. split; lra.
Qed.

(** A density with a positive entry after the first has a positive
    cumulative maximum. *)
Lemma cum_offset_second (f0 f1 : Q) (r : list Q) :
  exists c1 r', cum_offset (f0 :: f1 :: r) = (0 + f0 - f0) :: c1 :: r' /\ c1 == f1.
Proof.
  unfold cum_offset, np_cumsum. simpl.
  eexists. eexists. split; [reflexivity|]. ring.
Qed.

Lemma np_max_cum_offset_pos (f0 f1 : Q) (r : list Q) :
  0 < f1 -> 0 < np_max (cum_offset (f0 :: f1 :: r)).
Proof.
  intro H1. destruct (cum_offset_second f0 f1 r) as [c1 [r' [E Hc]]].
  pose proof (np_max_upper (cum_offset (f0 :: f1 :: r))) as Hup.
  rewrite E in Hup. inversion Hup as [|? ? _ Hup']; subst.
  inversion Hup' as [|? ? Hc1 _]; subst. rewrite E. lra.
Qed.

(** *** The mass-ratio density of a cell *)

Lemma map2_length (f : Q -> Q -> Q) (a b : list Q) :
  List.length (map2 f a b) = Nat.min (List.length a) (List.length b).
Proof.
  revert b. induction a as [|x a IH]; intros [|y b]; simpl; auto.
Qed.

Lemma Forall_map2 (P P' R : Q -> Prop) (f : Q -> Q -> Q) (a b : list Q) :
  (forall x y, P x -> P' y -> R (f x y)) ->
  Forall P a -> Forall P' b -> Forall R (map2 f a b).
Proof.
  intro Hf. revert b. induction a as [|x a IH]; intros [|y b] Ha Hb; simpl; try constructor.
  - inversion Ha; inversion Hb; subst. apply Hf; assumption.
  - inversion Ha; inversion Hb; subst. apply IH; assumption.
Qed.

Lemma nth_ramp (f : nat -> Q) (n k : nat) :
  (k < n)%nat -> nth k (map f (seq 0 n)) 0 = f k.
Proof.
  intro Hk. rewrite (nth_indep _ 0 (f 0%nat)) by (rewrite length_map, length_seq; exact Hk).
  rewrite map_nth. rewrite seq_nth by exact Hk. reflexivity.
Qed.

Lemma inject_Z_of_nat_nonneg (k : nat) : 0 <= inject_Z (Z.of_nat k).
Proof. unfold Qle. simpl. lia. Qed.

Lemma qv_positive : Forall (fun q => 0 < q) qv.
Proof.
  unfold qv, np_linspace. rewrite Forall_forall. intros q Hin.
  apply in_map_iff in Hin. destruct Hin as [k [E _]]. subst q.
  pose proof (inject_Z_of_nat_nonneg k) as Hk.
  assert (Hs : 0 < (1 - (1 # 10)) / inject_Z (Z.of_nat (numq - 1))) by reflexivity.
  assert (0 <= inject_Z (Z.of_nat k) * ((1 - (1 # 10)) / inject_Z (Z.of_nat (numq - 1)))).
  { apply Qmult_le_0_compat; lra. }
  lra.
Qed.

Lemma indlq_eq : indlq = seq 20 71.
Proof. vm_compute. reflexivity. Qed.

Lemma indq0p3_eq : indq0p3 = 20%nat.
Proof. vm_compute. reflexivity. Qed.

Lemma take_idx_length (a : list Q) (idx : list nat) :
  List.length (take_idx a idx) = List.length idx.
Proof. unfold take_idx. apply length_map. Qed.

Lemma take_idx_Forall (P : Q -> Prop) (a : list Q) (idx : list nat) :
  Forall P a -> Forall (fun i => (i < List.length a)%nat) idx ->
  Forall P (take_idx a idx).
Proof.
  intros Ha Hidx. unfold take_idx. rewrite Forall_forall in *.
  intros v Hin. apply in_map_iff in Hin. destruct Hin as [i [E Hi]]. subst v.
  apply Ha. apply nth_In. apply Hidx. assumption.
Qed.

Lemma qv_indlq_equispaced : equispaced qv_step (take_idx qv indlq).
Proof.
  rewrite indlq_eq. unfold take_idx.
  rewrite (map_ext_in _ (fun k => (1 # 10) + inject_Z (Z.of_nat k) * qv_step)).
  - apply ramp_equispaced.
  - intros k Hk. apply in_seq in Hk. unfold qv, np_linspace.
    rewrite nth_ramp; [reflexivity | unfold numq; lia].
Qed.

Lemma indlq_in_range (n : nat) : n = numq -> Forall (fun i => (i < n)%nat) indlq.
Proof.
  intro E. subst. rewrite indlq_eq. rewrite Forall_forall. intros i Hi.
  apply in_seq in Hi. unfold numq. lia.
Qed.

Lemma H_step_nonneg : Forall (fun v => 0 <= v) H_step.
Proof.
  unfold H_step. rewrite Forall_forall. intros v Hin.
  apply in_map_iff in Hin. destruct Hin as [q [E _]]. subst v.
  destruct (Qleb (95 # 100) q); lra.
Qed.

Lemma H_step_length : List.length H_step = numq.
Proof. unfold H_step. rewrite length_map. apply qv_length. Qed.

Lemma H_nonneg : Forall (fun v => 0 <= v) H.
Proof.
  assert (Hd : 0 <= idl_tabulate qv H_step).
  { apply (idl_tabulate_nonneg qv_step).
    - apply qv_step_pos.
    - apply qv_equispaced.
    - rewrite H_step_length, qv_length. reflexivity.
    - apply H_step_nonneg. }
  unfold H. pose proof H_step_nonneg as Hs. rewrite Forall_forall in *.
  intros v Hin. apply in_map_iff in Hin. destruct Hin as [h [E Hh]]. subst v.
  unfold Qdiv. apply Qmult_le_0_compat; [apply Hs; assumption|].
  apply Qinv_le_0_compat. assumption.
Qed.

Lemma H_length : List.length H = numq.
Proof. unfold H. rewrite length_map. apply H_step_length. Qed.

Section MassRatio.

Context {NL : NumLib}.
Hypothesis Hpow : pow_positive.

Lemma fq_of_length (Ftw gl gs : Q) : List.length (fq_of Ftw gl gs) = numq.
Proof.
  unfold fq_of. rewrite !map2_length, !length_map, qv_length, H_length.
  reflexivity.
Qed.

(** With a twin fraction in [[0, 1)] every entry of the tabulated density
    is positive. *)
Lemma fq_of_positive (Ftw gl gs : Q) :
  0 <= Ftw -> Ftw < 1 -> Forall (fun v => 0 < v) (fq_of Ftw gl gs).
Proof.
  intros H0 H1. unfold fq_of.
  set (fq1 := map (fun q => pow q gl) qv).
  assert (P1 : Forall (fun v => 0 < v) fq1).
  { unfold fq1. pose proof qv_positive as Hq. rewrite Forall_forall in *.
    intros v Hin. apply in_map_iff in Hin. destruct Hin as [q [E Hin]]. subst v.
    apply Hpow. apply Hq. assumption. }
  assert (L1 : List.length fq1 = numq).
  { unfold fq1. rewrite length_map. apply qv_length. }
  set (norm := idl_tabulate (take_idx qv indlq) (take_idx fq1 indlq)).
  assert (Pn : 0 < norm).
  { unfold norm. apply (idl_tabulate_pos qv_step).
    - apply qv_step_pos.
    - apply qv_indlq_equispaced.
    - rewrite !take_idx_length. reflexivity.
    - rewrite take_idx_length, indlq_eq, length_seq. lia.
    - apply take_idx_Forall; [assumption|]. apply indlq_in_range. assumption. }
  set (fq2 := map (fun v => v / norm) fq1).
  assert (P2 : Forall (fun v => 0 < v) fq2).
  { unfold fq2. rewrite Forall_forall in *.
    intros v Hin. apply in_map_iff in Hin. destruct Hin as [u [E Hin]]. subst v.
    apply Qlt_shift_div_l; [assumption|]. specialize (P1 u Hin). lra. }
  set (fq3 := map2 (fun v h => v * (1 - Ftw) + h * Ftw) fq2 H).
  assert (P3 : Forall (fun v => 0 < v) fq3).
  { unfold fq3.
    apply (Forall_map2 (fun v => 0 < v) (fun v => 0 <= v)); [|assumption|apply H_nonneg].
    intros x y Hx Hy.
    assert (0 < x * (1 - Ftw)) by (apply Qmult_lt_0_compat; lra).
    assert (0 <= y * Ftw) by (apply Qmult_le_0_compat; lra).
    lra. }
  assert (L3 : List.length fq3 = numq).
  { unfold fq3, fq2. rewrite map2_length, length_map, L1, H_length. reflexivity. }
  assert (P0 : 0 < nth indq0p3 fq3 0).
  { rewrite Forall_forall in P3. apply P3. apply nth_In.
    rewrite L3, indq0p3_eq. unfold numq. lia. }
  apply (Forall_map2 (fun q => 0 < q) (fun v => 0 < v)); [|apply qv_positive|assumption].
  intros q v Hq Hv. destruct (Qltb q (3 # 10)); [|assumption].
  apply Qmult_lt_0_compat; [assumption|].
  apply Hpow. apply Qlt_shift_div_l; lra.
Qed.

Lemma positive_density_cum_max (f : list Q) :
  (2 <= List.length f)%nat -> Forall (fun v => 0 < v) f -> 0 < np_max (cum_offset f).
Proof.
  intros Hlen Hf. destruct f as [|f0 [|f1 r]]; simpl in Hlen; try lia.
  apply np_max_cum_offset_pos.
  inversion Hf as [|? ? _ Hf']; subst. inversion Hf'; subst. assumption.
Qed.

Lemma Forall_pos_nonneg (f : list Q) :
  Forall (fun v => 0 < v) f -> Forall (fun v => 0 <= v) f.
Proof. intro H. apply Forall_impl with (2 := H). intros; lra. Qed.

Lemma cumqdist_slice_of (Ftw gl gs : Q) :
  0 <= Ftw -> Ftw < 1 -> cdf_slice 1 (normalise_cdf (fq_of Ftw gl gs)).
Proof.
  intros H0 H1. pose proof (fq_of_positive Ftw gl gs H0 H1) as Hp.
  apply cdf_slice_of_density.
  - apply Forall_pos_nonneg. assumption.
  - apply positive_density_cum_max; [|assumption].
    rewrite fq_of_length. unfold numq. lia.
Qed.

(** The twin fraction of a grid mass lies in [[0, 1)] at every period. *)
Lemma Ftwin_range (myM1 mylogP : Q) :
  grid_mass myM1 -> 0 <= Ftwin myM1 mylogP /\ Ftwin myM1 mylogP < 1.
Proof.
  intros [HL HU]. unfold Ftwin.
  assert (HF : 0 < FtwinlogPle1 myM1 /\ FtwinlogPle1 myM1 < 1).
  { unfold FtwinlogPle1. split; lra. }
  assert (HT : 3 # 2 <= logPtwin myM1).
  { unfold logPtwin. destruct (Qleb (65 # 10) myM1) eqn:E; [lra|].
    apply Qleb_false in E. lra. }
  destruct (Qleb (logPtwin myM1) mylogP) eqn:E1; [lra|].
  apply Qleb_false in E1.
  destruct (Qleb mylogP 1) eqn:E2; [lra|].
  apply Qleb_false in E2.
  set (t := (mylogP - 1) / (logPtwin myM1 - 1)).
  assert (Ht : 0 < t /\ t < 1).
  { unfold t. split.
    - apply Qlt_shift_div_l; lra.
    - apply Qlt_shift_div_r; lra. }
  set (F := FtwinlogPle1 myM1) in *.
  assert (0 <= F * (1 - t)) by (apply Qmult_le_0_compat; lra).
  assert (F * (1 - t) < 1 * 1).
  { apply Qle_lt_trans with (F * 1).
    - apply Qmult_le_l; lra.
    - lra. }
  lra.
Qed.

End MassRatio.

(** *** [np.interp] stays between the tabulated values *)

Lemma chord_bounds (x x0 x1 f0 f1 lo hi : Q) :
  x0 <= x -> x < x1 -> lo <= f0 <= hi -> lo <= f1 <= hi ->
  lo <= (f1 - f0) / (x1 - x0) * (x - x0) + f0 <= hi.
Proof.
  intros H0 H1 [L0 U0] [L1 U1].
  set (t := (x - x0) / (x1 - x0)).
  assert (Ht0 : 0 <= t) by (unfold t; apply Qle_shift_div_l; lra).
  assert (Ht1 : t <= 1) by (unfold t; apply Qle_shift_div_r; lra).
  assert (E : (f1 - f0) / (x1 - x0) * (x - x0) + f0 == f0 + t * (f1 - f0)).
  { unfold t. field. lra. }
  rewrite E.
  assert (0 <= t * (f1 - lo)) by (apply Qmult_le_0_compat; lra).
  assert (0 <= (1 - t) * (f0 - lo)) by (apply Qmult_le_0_compat; lra).
  assert (0 <= t * (hi - f1)) by (apply Qmult_le_0_compat; lra).
  assert (0 <= (1 - t) * (hi - f0)) by (apply Qmult_le_0_compat; lra).
  split; nra.
Qed.

Lemma interp_scan_step (x x0 x1 f0 f1 : Q) (xr fr : list Q) :
  interp_scan x (x0 :: x1 :: xr) (f0 :: f1 :: fr)
  = if Qleb x1 x then interp_scan x (x1 :: xr) (f1 :: fr)
    else if Qeq_bool x0 x then f0
    else (f1 - f0) / (x1 - x0) * (x - x0) + f0.
Proof. reflexivity. Qed.

Lemma interp_scan_bounds (x lo hi : Q) (xp fp : list Q) :
  List.length xp = List.length fp -> xp <> [] ->
  Forall (fun v => lo <= v <= hi) fp -> hd 0 xp <= x ->
  lo <= interp_scan x xp fp <= hi.
Proof.
  revert fp. induction xp as [|x0 xr IH]; intros fp Hlen Hne Hf Hx; [congruence|].
  destruct fp as [|f0 fr]; [discriminate|].
  inversion Hf as [|? ? Hf0 Hfr]; subst.
  destruct xr as [|x1 xr]; [destruct fr; simpl; assumption|].
  destruct fr as [|f1 fr]; [discriminate|].
  rewrite interp_scan_step. simpl in Hx.
  destruct (Qleb x1 x) eqn:E1.
  - apply Qleb_true in E1. apply IH.
    + simpl in *. lia.
    + discriminate.
    + assumption.
    + simpl. assumption.
  - apply Qleb_false in E1.
    destruct (Qeq_bool x0 x); [assumption|].
    inversion Hfr; subst. apply chord_bounds; assumption.
Qed.

Lemma Forall_last (P : Q -> Prop) (l : list Q) :
  l <> [] -> Forall P l -> P (last l 0).
Proof.
  intros Hne H. destruct l as [|x l]; [congruence|].
  rewrite Forall_forall in H. apply H. apply last_In.
Qed.

Lemma np_interp_bounds (x lo hi : Q) (xp fp : list Q) :
  List.length xp = List.length fp -> xp <> [] ->
  Forall (fun v => lo <= v <= hi) fp ->
  lo <= np_interp x xp fp <= hi.
Proof.
  intros Hlen Hne Hf. unfold np_interp.
  assert (Hfne : fp <> []).
  { intro E. subst. destruct xp; [congruence | discriminate]. }
  destruct (Qltb (last xp 0) x); [apply (Forall_last _ fp Hfne Hf)|].
  destruct (Qltb x (hd 0 xp)) eqn:E.
  - destruct fp as [|f0 fr]; [congruence|]. inversion Hf; subst. assumption.
  - apply Qltb_false in E. apply interp_scan_bounds; assumption.
Qed.

(** *** The eccentricity density of a cell *)

Lemma Returns_inj (A : Type) (a b : A) : Returns a = Returns b -> a = b.
Proof. intro E. congruence. Qed.

Lemma ev_positive : Forall (fun e => 0 < e) ev.
Proof.
  unfold ev, np_linspace. rewrite Forall_forall. intros e Hin.
  apply in_map_iff in Hin. destruct Hin as [e0 [E Hin]]. subst e.
  apply in_map_iff in Hin. destruct Hin as [k [E _]]. subst e0.
  pose proof (inject_Z_of_nat_nonneg k) as Hk.
  assert (Hs : 0 < ((99 # 100) - 0) / inject_Z (Z.of_nat (nume - 1))) by reflexivity.
  assert (0 <= inject_Z (Z.of_nat k) * (((99 # 100) - 0) / inject_Z (Z.of_nat (nume - 1)))).
  { apply Qmult_le_0_compat; lra. }
  lra.
Qed.

Lemma ev_length : List.length ev = nume.
Proof. unfold ev. rewrite length_map. apply np_linspace_length. Qed.

Lemma Forall_nth_default (P : Q -> Prop) (l : list Q) (i : nat) :
  P 0 -> Forall P l -> P (nth i l 0).
Proof.
  intros H0 H. destruct (Nat.lt_ge_cases i (List.length l)) as [Hi | Hi].
  - rewrite Forall_forall in H. apply H. apply nth_In. assumption.
  - rewrite nth_overflow by assumption. assumption.
Qed.

Lemma Forall_last_default (P : Q -> Prop) (l : list Q) :
  P 0 -> Forall P l -> P (last l 0).
Proof.
  intros H0 H. destruct l as [|x l]; [assumption|].
  apply Forall_last; [discriminate | assumption].
Qed.

Section Eccentricity.

Context {NL : NumLib}.
Hypothesis Hpow : pow_positive.

(** Whenever the density of a cell is built, its entries are non-negative
    and there are [nume] of them. *)
Lemma fe_nonneg (mylogP eta : Q) (f : list Q) :
  fe mylogP eta = Returns f -> Forall (fun v => 0 <= v) f.
Proof.
  unfold fe. destruct (Qleb (pow 10 mylogP) 2).
  - intro E. apply Returns_inj in E. subst f.
    pose proof ev_positive as He. rewrite Forall_forall in *.
    intros v Hin. apply in_map_iff in Hin. destruct Hin as [e [E Hin]]. subst v.
    apply Qlt_le_weak, Hpow, He, Hin.
  - set (e_max := 1 - pow (pow 10 mylogP / 2) (- (2 # 3))).
    set (fe1 := map (fun e => pow e eta) ev).
    set (fe2 := map2 (fun e v => if Qleb e_max e then 0 else v) ev fe1).
    assert (P1 : Forall (fun v => 0 <= v) fe1).
    { unfold fe1. pose proof ev_positive as He. rewrite Forall_forall in *.
      intros v Hin. apply in_map_iff in Hin. destruct Hin as [e [E Hin]]. subst v.
      apply Qlt_le_weak, Hpow, He, Hin. }
    assert (P2 : Forall (fun v => 0 <= v) fe2).
    { unfold fe2. apply (Forall_map2 (fun _ => True) (fun v => 0 <= v)); [| |assumption].
      - intros e v _ Hv. destruct (Qleb e_max e); [lra | assumption].
      - rewrite Forall_forall. auto. }
    destruct (np_where _) as [|i0 ind]; [discriminate|].
    intro E. apply Returns_inj in E. subst f.
    set (fe_cont := match fold_right Nat.min i0 ind with
                    | O => last fe2 0
                    | S ind_cont => nth ind_cont fe2 0
                    end).
    assert (Pc : 0 <= fe_cont).
    { unfold fe_cont. destruct (fold_right Nat.min i0 ind).
      - apply (Forall_last_default (fun v => 0 <= v)); [lra | assumption].
      - apply (Forall_nth_default (fun v => 0 <= v)); [lra | assumption]. }
    apply (Forall_map2 (fun _ => True) (fun v => 0 <= v)); [| |assumption].
    + intros e v _ Hv. destruct (_ && _); [|assumption].
      apply (np_interp_bounds e 0 fe_cont).
      * reflexivity.
      * discriminate.
      * repeat constructor; lra.
    + rewrite Forall_forall. auto.
Qed.

End Eccentricity.

(** *** The period column of a mass *)

Lemma Qsquare (x : Q) : x ^ 2 == x * x.
Proof. reflexivity. Qed.

Section PeriodColumn.

Context {NL : NumLib}.
Hypothesis Hpow : pow_positive.
Hypothesis Hexp : exp_positive.

Lemma flogP_anchors (myM1 : Q) :
  grid_mass myM1 ->
  0 < flogPle1 myM1 /\ (126 # 10000) < flogPeq2p7 myM1 /\ 0 < flogPeq5p5 myM1.
Proof.
  intros [HL HU]. unfold flogPle1, flogPeq2p7, flogPeq5p5.
  rewrite !Qsquare. generalize dependent (log10 myM1). intros L HL HU.
  repeat split; nra.
Qed.

(** The frequency of companions of a grid mass is positive at every
    period. *)
Lemma flogP_positive (myM1 mylogP : Q) : grid_mass myM1 -> 0 < flogP myM1 mylogP.
Proof.
  intro Hg. destruct (flogP_anchors myM1 Hg) as [Ha [Hb Hc]].
  unfold flogP, alpha, DlogP.
  set (a := flogPle1 myM1) in *. set (b := flogPeq2p7 myM1) in *.
  set (c := flogPeq5p5 myM1) in *.
  destruct (Qleb mylogP 1) eqn:E1; [assumption|]. apply Qleb_false in E1.
  destruct (Qleb mylogP ((27 # 10) - (7 # 10))) eqn:E2.
  { apply Qleb_true in E2.
    setoid_replace (a + (mylogP - 1) / ((17 # 10) - (7 # 10)) * (b - a - (18 # 1000) * (7 # 10)))
      with ((2 - mylogP) * a + (mylogP - 1) * (b - (126 # 10000))) by field.
    assert (0 <= (2 - mylogP) * a) by (apply Qmult_le_0_compat; lra).
    assert (0 < (mylogP - 1) * (b - (126 # 10000))) by (apply Qmult_lt_0_compat; lra).
    lra. }
  apply Qleb_false in E2.
  destruct (Qleb mylogP ((27 # 10) + (7 # 10))) eqn:E3.
  { apply Qleb_true in E3. lra. }
  apply Qleb_false in E3.
  destruct (Qleb mylogP (55 # 10)) eqn:E4.
  { apply Qleb_true in E4.
    setoid_replace (b + (18 # 1000) * (7 # 10)
                    + (mylogP - (27 # 10) - (7 # 10)) / ((28 # 10) - (7 # 10))
                      * (c - b - (18 # 1000) * (7 # 10)))
      with (((55 # 10) - mylogP) * (10 # 21) * (b + (126 # 10000))
            + (mylogP - (34 # 10)) * (10 # 21) * c) by field.
    assert (0 <= ((55 # 10) - mylogP) * (10 # 21) * (b + (126 # 10000))).
    { apply Qmult_le_0_compat; [apply Qmult_le_0_compat|]; lra. }
    assert (0 < (mylogP - (34 # 10)) * (10 # 21) * c).
    { apply Qmult_lt_0_compat; [apply Qmult_lt_0_compat|]; lra. }
    lra. }
  apply Qmult_lt_0_compat; [assumption | apply Hexp].
Qed.

Lemma probbin_nonneg (myM1 mylogP : Q) : 0 <= probbin myM1 mylogP.
Proof.
  unfold probbin.
  destruct (Qleb mylogP (15 # 10)).
  - destruct (Qleb 1 0) eqn:E; lra.
  - match goal with |- 0 <= (if Qleb ?p 0 then _ else _) =>
      destruct (Qleb p 0) eqn:E; [lra | apply Qleb_false in E; lra] end.
Qed.

Lemma probbin_short_period (myM1 mylogP : Q) :
  mylogP <= (15 # 10) -> probbin myM1 mylogP = 1.
Proof.
  intro H. unfold probbin. apply Qleb_true in H. rewrite H. reflexivity.
Qed.

Lemma fq_positive (myM1 mylogP : Q) :
  grid_mass myM1 -> Forall (fun v => 0 < v) (fq myM1 mylogP).
Proof.
  intro Hg. destruct (Ftwin_range myM1 mylogP Hg) as [H0 H1].
  unfold fq. apply fq_of_positive; assumption.
Qed.

Lemma q_factor_positive (myM1 mylogP : Q) :
  grid_mass myM1 -> 0 < idl_tabulate qv (fq myM1 mylogP).
Proof.
  intro Hg. apply (idl_tabulate_pos qv_step).
  - apply qv_step_pos.
  - apply qv_equispaced.
  - unfold fq. rewrite fq_of_length, qv_length. reflexivity.
  - rewrite qv_length. unfold numq. lia.
  - apply fq_positive. assumption.
Qed.

Lemma period_weights_nonneg (myM1 : Q) :
  grid_mass myM1 -> Forall (fun v => 0 <= v) (period_weights myM1).
Proof.
  intro Hg. unfold period_weights. rewrite Forall_forall. intros v Hin.
  apply in_map_iff in Hin. destruct Hin as [lp [E _]]. subst v.
  apply Qmult_le_0_compat; [apply Qmult_le_0_compat|].
  - apply Qlt_le_weak, flogP_positive, Hg.
  - apply Qlt_le_weak, q_factor_positive, Hg.
  - apply probbin_nonneg.
Qed.

Lemma period_weights_length (myM1 : Q) : List.length (period_weights myM1) = numlogP.
Proof. unfold period_weights. rewrite length_map. apply logPv_length. Qed.

Lemma logPv_second :
  exists lp0 lp1 r, logPv = lp0 :: lp1 :: r /\ lp1 <= 1.
Proof.
  unfold logPv, logP, np_linspace, numlogP.
  change 158%nat with (S (S 156)). rewrite <- !cons_seq. rewrite !map_cons.
  eexists. eexists. eexists. split; [reflexivity|].
  apply Qlt_le_weak. reflexivity.
Qed.

Lemma period_weights_cum_max (myM1 : Q) :
  grid_mass myM1 -> 0 < np_max (cum_offset (period_weights myM1)).
Proof.
  intro Hg. unfold period_weights.
  destruct logPv_second as [lp0 [lp1 [r [E Hlp]]]]. rewrite E. rewrite !map_cons.
  apply np_max_cum_offset_pos.
  rewrite probbin_short_period by lra.
  apply Qmult_lt_0_compat; [apply Qmult_lt_0_compat|]; try lra.
  - apply flogP_positive, Hg.
  - apply q_factor_positive, Hg.
Qed.

(** The binary fraction of a grid mass, the integral that closes the
    period column, is non-negative. *)
Lemma binary_fraction_nonneg (myM1 : Q) :
  grid_mass myM1 -> 0 <= idl_tabulate logPv (period_weights myM1).
Proof.
  intro Hg. apply (idl_tabulate_nonneg logP_step).
  - apply logP_step_pos.
  - apply logPv_equispaced.
  - rewrite period_weights_length, logPv_length. reflexivity.
  - apply period_weights_nonneg, Hg.
Qed.

(** The cells that [build_cells] returns carry the tabulations above. *)
Lemma build_cells_spec (myM1 : Q) (periods : list Q) (cs : list cell) :
  build_cells myM1 periods = Returns cs ->
  Forall2 (fun mylogP c =>
             cumfq c = normalise_cdf (fq myM1 mylogP) /\
             (exists f, fe mylogP (eta myM1 mylogP) = Returns f /\ cumfe c = normalise_cdf f) /\
             flogP_sq c * probbin_c c
             = flogP myM1 mylogP * idl_tabulate qv (fq myM1 mylogP) * probbin myM1 mylogP)
          periods cs.
Proof.
  revert cs. induction periods as [|lp periods IH]; intros cs Hb; simpl in Hb.
  - apply Returns_inj in Hb. subst. constructor.
  - unfold build_cell in Hb.
    destruct (fe lp (eta myM1 lp)) as [f| |msg] eqn:Ef; try discriminate.
    destruct (build_cells myM1 periods) as [cs'| |msg] eqn:Eb; try discriminate.
    apply Returns_inj in Hb. subst cs. constructor.
    + simpl. split; [reflexivity|]. split; [|reflexivity].
      exists f. split; [exact Ef | reflexivity].
    + apply IH. reflexivity.
Qed.

Lemma build_column_period (myM1 : Q) (col : column) :
  build_column myM1 = Returns col ->
  mycumPbindist col = normalise_period logPv (period_weights myM1).
Proof.
  unfold build_column. destruct (build_cells myM1 logPv) as [cs| |msg] eqn:Eb; try discriminate.
  intro E. apply Returns_inj in E. subst col. simpl. f_equal.
  unfold period_weights. apply build_cells_spec in Eb.
  induction Eb as [|lp c periods cs [_ [_ Hw]] _ IH]; [reflexivity|].
  simpl. rewrite Hw, IH. reflexivity.
Qed.

End PeriodColumn.

(** The rational library meets what the statements ask of a library. *)
Lemma RationalLib_pow_positive : @pow_positive RationalLib.
Proof. intros x y Hx. simpl. apply Qpower_0_lt. assumption. Qed.

Lemma RationalLib_exp_positive : @exp_positive RationalLib.
Proof. intro x. simpl. apply Qpower_0_lt. reflexivity. Qed.

Lemma RationalLib_grid_mass_one : @grid_mass RationalLib 1.
Proof. split; vm_compute; discriminate. Qed.

Lemma short_period_density_positive (NL : NumLib) :
  pow_positive -> Forall (fun v => 0 < v) (map (fun e => pow e (- (32 # 10))) ev).
Proof.
  intro Hpow. pose proof ev_positive as He. rewrite Forall_forall in *.
  intros v Hin. apply in_map_iff in Hin. destruct Hin as [e [E Hin]]. subst v.
  apply Hpow, He, Hin.
Qed.

Lemma RationalLib_fe_short_period (eta : Q) :
  @fe RationalLib 0 eta = Returns (map (fun e => @pow RationalLib e (- (32 # 10))) ev).
Proof. reflexivity. Qed.

(** ** The sampler [initial_sample] *)

(** *** The primary mass function *)

(** One step of a computation on the generator. *)
Ltac rand_step := cbv beta iota zeta delta [bind random_rand ret]; cbn [fst snd].

Section SamplerProps.

Context {NL : NumLib}.

Lemma M1_length : List.length M1 = Z.to_nat 150000.
Proof. unfold M1. rewrite length_map. apply np_linspace_length. Qed.

Lemma M1_entry_range (k : nat) :
  (k < Z.to_nat 150000)%nat ->
  (8 # 100) <= 0 + inject_Z (Z.of_nat k)
                   * ((150 - 0) / inject_Z (Z.of_nat (Z.to_nat 150000 - 1))) + (8 # 100)
            <= (15008 # 100).
Proof.
  intro Hk.
  assert (Ed : Z.of_nat (Z.to_nat 150000 - 1) = 149999%Z) by lia.
  rewrite Ed.
  assert (Hd : (150 - 0) / inject_Z 149999 == (150 # 149999)) by reflexivity.
  rewrite Hd.
  assert (H0 : 0 <= inject_Z (Z.of_nat k)) by apply inject_Z_of_nat_nonneg.
  assert (H1 : inject_Z (Z.of_nat k) <= 149999) by (unfold Qle; simpl; lia).
  generalize dependent (inject_Z (Z.of_nat k)). intros x H0 H1.
  split; lra.
Qed.

Lemma M1_range : Forall (fun m => (8 # 100) <= m <= (15008 # 100)) M1.
Proof.
  unfold M1, np_linspace. rewrite Forall_forall. intros m Hin.
  apply in_map_iff in Hin. destruct Hin as [m0 [E Hin]]. subst m.
  apply in_map_iff in Hin. destruct Hin as [k [E Hk]]. subst m0.
  apply in_seq in Hk. apply M1_entry_range. lia.
Qed.

Lemma M1_floor : Forall (fun m => (8 # 100) <= m) M1.
Proof.
  eapply Forall_impl; [|apply M1_range]. intros m H. exact (proj1 H).
Qed.

Lemma cum_offset_length (f : list Q) : List.length (cum_offset f) = List.length f.
Proof.
  unfold cum_offset, np_cumsum. rewrite length_map.
  generalize 0. induction f as [|x f IH]; intro acc; simpl; [reflexivity|].
  rewrite IH. reflexivity.
Qed.

Lemma cumfM1_length : List.length cumfM1 = List.length M1.
Proof.
  unfold cumfM1. rewrite length_map, cum_offset_length. unfold fM1.
  apply length_map.
Qed.

Lemma M1_nonempty : M1 <> [].
Proof.
  intro E. pose proof M1_length as H. rewrite E in H. simpl in H. lia.
Qed.

Lemma cumfM1_nonempty : cumfM1 <> [].
Proof.
  intro E. apply M1_nonempty. apply length_zero_iff_nil.
  rewrite <- cumfM1_length, E. reflexivity.
Qed.

(** X2.  Line 603: whatever the minimum mass and the draw, the primary
    that a trial selects lies in the range of the mass grid, from [0.08] to
    [150.08] solar masses. *)
Theorem primary_draw_on_mass_grid (M1min u : Q) :
  (8 # 100) <= select_primary M1min u <= (15008 # 100).
Proof.
  exact (np_interp_bounds (cumf_M1min M1min + (1 - cumf_M1min M1min) * u)
           (8 # 100) (15008 # 100) cumfM1 M1 cumfM1_length cumfM1_nonempty M1_range).
Qed.


(** *** The period table below the floor: [np.interp] clamps *)

Lemma M1_first_two :
  exists m0 m1 r, M1 = m0 :: m1 :: r /\ m0 == (8 # 100) /\ (8 # 100) < m1.
Proof.
  unfold M1, np_linspace.
  assert (En : Z.to_nat 150000 = S (S (Z.to_nat 149998))) by lia.
  assert (Ed : Z.of_nat (Z.to_nat 150000 - 1) = 149999%Z) by lia.
  rewrite Ed. rewrite En. rewrite <- !cons_seq. rewrite !map_cons.
  eexists. eexists. eexists. split; [reflexivity|].
  split; reflexivity.
Qed.


(** [np.interp] at or below the first abscissa returns the first ordinate. *)
Lemma np_interp_left_clamp (x x0 x1 : Q) (xr fp : list Q) :
  List.length (x0 :: x1 :: xr) = List.length fp ->
  x <= x0 -> x0 < x1 -> x <= last (x0 :: x1 :: xr) 0 ->
  np_interp x (x0 :: x1 :: xr) fp = hd 0 fp.
Proof.
  intros Hlen Hx H01 Hlast. unfold np_interp.
  assert (E1 : Qltb (last (x0 :: x1 :: xr) 0) x = false) by (apply Qltb_false; assumption).
  rewrite E1. simpl hd.
  destruct (Qltb x x0) eqn:E2; [reflexivity|].
  apply Qltb_false in E2.
  destruct fp as [|f0 [|f1 fr]]; try discriminate.
  rewrite interp_scan_step.
  assert (E3 : Qleb x1 x = false) by (apply Qleb_false; lra).
  rewrite E3.
  assert (E4 : Qeq_bool x0 x = true) by (apply Qeq_bool_true; lra).
  rewrite E4. reflexivity.
Qed.

Lemma cumf_M1min_floor (M1min : Q) :
  M1min <= (8 # 100) -> cumf_M1min M1min = hd 0 cumfM1.
Proof.
  intro Hle. unfold cumf_M1min.
  destruct M1_first_two as [m0 [m1 [r [E [H0 H1]]]]].
  assert (Hlast : (8 # 100) <= last M1 0).
  { apply (Forall_last (fun m => (8 # 100) <= m)); [apply M1_nonempty | apply M1_floor]. }
  pose proof cumfM1_length as Hlen.
  revert Hlast Hlen. rewrite E. intros Hlast Hlen.
  apply np_interp_left_clamp; [symmetry; exact Hlen | lra | lra | lra].
Qed.

End SamplerProps.
(** *** The loop *)

Section LoopProps.

Context {NL : NumLib}.

Lemma sample_loop_step (tb : tables) (M1min : Q) (n : nat) (st : population)
      (g : rng) (s : nat) :
  sample_loop tb M1min (S n) st g s
  = let (r, s1) := draw_trial tb M1min g s in
    match r with
    | Returns t => sample_loop tb M1min n (record_trial st t)
    | ReturnsNone => ret ReturnsNone
    | Raises msg => ret (Raises msg)
    end g s1.
Proof. reflexivity. Qed.

(** The sampler sees [M1min] only through the CDF value at it. *)
Lemma select_primary_below_floor (M1min u : Q) :
  M1min <= (8 # 100) -> select_primary M1min u = select_primary (8 # 100) u.
Proof.
  intro H. unfold select_primary.
  pose proof (cumf_M1min_floor M1min H) as E1.
  assert (H8 : (8 # 100) <= (8 # 100)) by lra.
  pose proof (cumf_M1min_floor (8 # 100) H8) as E2.
  congruence.
Qed.

Lemma draw_trial_below_floor (tb : tables) (M1min : Q) (g : rng) (s : nat) :
  M1min <= (8 # 100) -> draw_trial tb M1min g s = draw_trial tb (8 # 100) g s.
Proof.
  intro H. unfold draw_trial. rand_step.
  generalize (select_primary_below_floor M1min (g s) H).
  generalize (select_primary M1min (g s)). intros a E. subst a. reflexivity.
Qed.

(** X5.  A minimum mass at or below the floor [0.08] is not rejected:
    the CDF value at it is the clamped left end of the table, and the
    sampler runs exactly as it does for [M1min = 0.08]. *)
Theorem min_mass_below_floor_is_clamped (tb : tables) (total_mass0 M1min : Q) (N : nat)
        (g : rng) (s : nat) :
  M1min <= (8 # 100) ->
  initial_sample tb total_mass0 M1min N g s
  = initial_sample tb total_mass0 (8 # 100) N g s.
Proof.
  intro H. unfold initial_sample. generalize
    {| primary_mass_list := []; secondary_mass_list := []; porb_list := [];
       ecc_list := []; total_mass := total_mass0 |}.
  revert s. induction N as [|N IH]; intros s st; [reflexivity|].
  rewrite !sample_loop_step.
  pose proof (draw_trial_below_floor tb M1min g s H) as E.
  destruct (draw_trial tb M1min g s) as [rt s1].
  destruct (draw_trial tb (8 # 100) g s) as [rt' s1'].
  injection E as Er Es. subst rt' s1'.
  destruct rt; try reflexivity. apply IH.
Qed.

End LoopProps.

Lemma min_mass_below_floor_is_clamped_witness :
  @initial_sample RationalLib uniform_tables 0 (1 # 100) 3 (constant_draws (1 # 2)) 0%nat
  = @initial_sample RationalLib uniform_tables 0 (8 # 100) 3 (constant_draws (1 # 2)) 0%nat.
Proof.
  apply (@min_mass_below_floor_is_clamped RationalLib uniform_tables 0 (1 # 100) 3
           (constant_draws (1 # 2)) 0%nat).
  unfold Qle. simpl. lia.
Defined.

(** ** class [Sample], continued *)

Lemma random_uniform_range (lo hi : Q) (n : nat) (g : rng) (s : nat) :
  unit_draws g -> lo < hi ->
  Forall (fun v => lo <= v /\ v < hi) (fst (random_uniform lo hi n g s)) /\
  List.length (fst (random_uniform lo hi n g s)) = n /\
  snd (random_uniform lo hi n g s) = (s + n)%nat.
Proof.
  intros Hg Hlh. unfold random_uniform. cbn [fst snd].
  split; [|split; [rewrite length_map, length_seq; reflexivity | reflexivity]].
  rewrite Forall_forall. intros v Hin.
  apply in_map_iff in Hin. destruct Hin as [k [E _]]. subst v.
  destruct (Hg (s + k)%nat) as [H0 H1].
  generalize dependent (g (s + k)%nat). intros u H0 H1. split; nra.
Qed.

(** X8.  For unit draws, [sample_SFH] returns [size] times and advances
    the generator by [size]: under ['const'] every time lies in
    [[0, 10000)], under ['burst'] in [(9000, 10000]].  The method of
    [MultiDimSample] is the same function. *)
Theorem sample_SFH_ranges (size : nat) (g : rng) (s : nat) :
  unit_draws g ->
  (exists tphys,
     Sample.sample_SFH "const" size g s = (Returns tphys, (s + size)%nat) /\
     List.length tphys = size /\
     Forall (fun t => 0 <= t /\ t < 10000) tphys) /\
  (exists tphys,
     Sample.sample_SFH "burst" size g s = (Returns tphys, (s + size)%nat) /\
     List.length tphys = size /\
     Forall (fun t => 9000 < t /\ t <= 10000) tphys) /\
  (forall model,
     MultiDimSample.sample_SFH model size g s = Sample.sample_SFH model size g s).
Proof.
  intro Hg. split; [|split; [|reflexivity]].
  - destruct (random_uniform_range 0 10000 size g s Hg) as [Hr [Hl Hs]]; [lra|].
    exists (fst (random_uniform 0 10000 size g s)).
    split; [reflexivity|]. split; assumption.
  - destruct (random_uniform_range 0 1000 size g s Hg) as [Hr [Hl Hs]]; [lra|].
    exists (map (fun t => 10000 - t) (fst (random_uniform 0 1000 size g s))).
    split; [reflexivity|]. split; [rewrite length_map; exact Hl|].
    apply Forall_map. eapply Forall_impl; [|exact Hr].
    intros t Ht. simpl in Ht. lra.
Qed.

Lemma sample_SFH_ranges_witness :
  exists tphys,
    Sample.sample_SFH "burst" 2 (constant_draws (1 # 2)) 0%nat = (Returns tphys, (0 + 2)%nat) /\
    List.length tphys = 2%nat /\ Forall (fun t => 9000 < t /\ t <= 10000) tphys.
Proof.
  apply (sample_SFH_ranges 2 (constant_draws (1 # 2)) 0%nat).
  intro n. unfold constant_draws. split; [unfold Qle | unfold Qlt]; simpl; lia.
Defined.

(** *** [sample_primary]: the two models *)

(** X9.  The Salpeter model cannot be sampled: each of its three
    branches (lines 97, 99 and 101) asks [np.random.power] for the exponent
    [-1.3], numpy accepts a positive exponent only, and the call raises
    [ValueError] before a single draw is read, whatever [kstar1_final] and
    [size] are.  The Kroupa model returns after [n] draws, [n] being [size]
    times [500], [50] or [1]. *)
Theorem salpeter55_always_raises {NL : NumLib} (kstar1_final : Q) (size : nat)
        (g : rng) (s : nat) :
  Sample.sample_primary kstar1_final "salpeter55" size g s
  = (Raises "ValueError: a <= 0", s) /\
  exists a_0 total_sampled_mass,
    Sample.sample_primary kstar1_final "kroupa93" size g s
    = (Returns (a_0, total_sampled_mass),
       (s + (if Qltb 14 kstar1_final then size * 500
             else if Qltb 12 kstar1_final then size * 50 else size))%nat).
Proof.
  split; [reflexivity|].
  unfold Sample.sample_primary. cbn [String.eqb Ascii.eqb Bool.eqb].
  unfold bind, random_uniform, ret.
  eexists. eexists. reflexivity.
Qed.

(** *** [binary_select] off ties *)

Lemma take_idx_cons_shift (pre : list Q) (m : Q) (l : list Q) (idx : list nat) :
  take_idx (pre ++ m :: l) idx = take_idx ((pre ++ [m]) ++ l) idx.
Proof. rewrite <- app_assoc. reflexivity. Qed.

Lemma nth_middle_Q (pre : list Q) (m : Q) (l : list Q) :
  nth (List.length pre) (pre ++ m :: l) 0 = m.
Proof. induction pre as [|x pre IH]; [reflexivity | exact IH]. Qed.

Lemma select_lengths {NL : NumLib} (l c : list Q) (a : nat) :
  (List.length (where_from a (Sample.mask2 Sample.fraction_above l c))
   + List.length (where_from a (Sample.mask2 Sample.fraction_below l c))
   <= List.length l)%nat.
Proof.
  revert c a. induction l as [|m l IH]; intros [|y c] a; simpl; try lia.
  specialize (IH c (S a)).
  destruct (Sample.fraction_above m y) eqn:E1;
    destruct (Sample.fraction_below m y) eqn:E2; simpl; try lia.
  exfalso. unfold Sample.fraction_above in E1. unfold Sample.fraction_below in E2.
  apply andb_true_iff in E1. destruct E1 as [Hm E1].
  apply Qltb_true in Hm. apply Qltb_true in E1.
  apply orb_true_iff in E2. destruct E2 as [E2 | E2].
  - apply Qeq_bool_true in E2. lra.
  - apply andb_true_iff in E2. destruct E2 as [_ E2]. apply Qltb_true in E2. lra.
Qed.

(** For a positive mass the two masks are the two strict comparisons. *)
Lemma fraction_masks_positive {NL : NumLib} (m u : Q) :
  0 < m ->
  Sample.fraction_above m u = Qltb u (Sample.binary_fraction m) /\
  Sample.fraction_below m u = Qltb (Sample.binary_fraction m) u.
Proof.
  intro Hm. unfold Sample.fraction_above, Sample.fraction_below.
  assert (E1 : Qltb 0 m = true) by (apply Qltb_true; exact Hm).
  assert (E2 : Qeq_bool m 0 = false) by (apply Qeq_bool_false; lra).
  rewrite E1, E2. split; reflexivity.
Qed.

Lemma select_split {NL : NumLib} (pre l c : list Q) :
  Forall (fun m => 0 < m) l ->
  Forall2 (fun m u => ~ Sample.binary_fraction m == u) l c ->
  Permutation
    (take_idx (pre ++ l)
       (where_from (List.length pre) (Sample.mask2 Sample.fraction_above l c))
     ++ take_idx (pre ++ l)
          (where_from (List.length pre) (Sample.mask2 Sample.fraction_below l c)))
    l.
Proof.
  intros Hpos H. revert pre Hpos. induction H as [|m u l c Hmu Hl IH]; intros pre Hpos.
  - simpl. constructor.
  - inversion Hpos as [|? ? Hm Hpos']; subst.
    specialize (IH (pre ++ [m]) Hpos'). rewrite length_app in IH. simpl in IH.
    replace (List.length pre + 1)%nat with (S (List.length pre)) in IH by lia.
    rewrite <- !take_idx_cons_shift in IH.
    simpl Sample.mask2. simpl where_from.
    destruct (fraction_masks_positive m u Hm) as [Ea Eb]. rewrite Ea, Eb.
    destruct (Qltb u (Sample.binary_fraction m)) eqn:E1;
      destruct (Qltb (Sample.binary_fraction m) u) eqn:E2.
    + apply Qltb_true in E1. apply Qltb_true in E2. lra.
    + unfold take_idx at 1. simpl map. rewrite nth_middle_Q.
      simpl. apply perm_skip. exact IH.
    + unfold take_idx at 2. simpl map. rewrite nth_middle_Q.
      apply Permutation_sym. apply Permutation_cons_app.
      apply Permutation_sym. exact IH.
    + apply Qltb_false in E1. apply Qltb_false in E2. exfalso. apply Hmu. lra.
Qed.

(** X10.  [binary_select] never puts a primary in both outputs, and for
    positive primaries, when no draw equals its binary fraction, the two
    outputs together are a rearrangement of the input: every primary is a
    binary or a single.  (A negative primary has the fraction [nan] and is
    in neither output.) *)
Theorem binary_select_partition {NL : NumLib} (primary_mass : list Q) (g : rng) (s : nat)
        (binaries singles : list Q) :
  fst (Sample.binary_select primary_mass "vanHaaften" g s) = Returns (binaries, singles) ->
  (List.length binaries + List.length singles <= List.length primary_mass)%nat /\
  (Forall (fun m => 0 < m) primary_mass ->
   Forall2 (fun m u => ~ Sample.binary_fraction m == u) primary_mass
           (fst (random_uniform 0 1 (List.length primary_mass) g s)) ->
   Permutation (binaries ++ singles) primary_mass).
Proof.
  unfold Sample.binary_select. simpl String.eqb. cbv iota.
  unfold bind, ret. unfold random_uniform. cbn [fst].
  intro E. apply Returns_inj in E. injection E as Eb Es. subst binaries singles.
  set (c := map (fun k => 0 + (1 - 0) * g (s + k)%nat) (seq 0 (List.length primary_mass))).
  split.
  - rewrite !take_idx_length. unfold np_where.
    exact (select_lengths primary_mass c 0).
  - intros Hpos Hnt. exact (select_split [] primary_mass c Hpos Hnt).
Qed.

Lemma binary_select_partition_witness :
  exists binaries singles,
    fst (@Sample.binary_select RationalLib [10; 1] "vanHaaften" (constant_draws (6 # 10)) 0%nat)
    = Returns (binaries, singles) /\
    Permutation (binaries ++ singles) [10; 1].
Proof.
  eexists. eexists. split; [reflexivity|].
  apply (@binary_select_partition RationalLib [10; 1] (constant_draws (6 # 10)) 0%nat _ _ eq_refl).
  - repeat constructor.
  - repeat constructor; intro E; vm_compute in E; discriminate E.
Defined.

(** ** The quadrature [idl_tabulate], continued *)

Lemma fold_windows_acc (F : nat -> Q) (l : list nat) (acc : Q) :
  fold_left (fun ret idx => ret + F idx) l acc
  == acc + fold_left (fun ret idx => ret + F idx) l 0.
Proof.
  revert acc. induction l as [|a l IH]; intro acc; simpl; [ring|].
  rewrite (IH (acc + F a)), (IH (0 + F a)). ring.
Qed.

Lemma fold_windows_lin (F G1 G2 : nat -> Q) (c d : Q) (l : list nat) (a a1 a2 : Q) :
  (forall idx, F idx == c * G1 idx + d * G2 idx) -> a == c * a1 + d * a2 ->
  fold_left (fun ret idx => ret + F idx) l a
  == c * fold_left (fun ret idx => ret + G1 idx) l a1
     + d * fold_left (fun ret idx => ret + G2 idx) l a2.
Proof.
  intro HF. revert a a1 a2. induction l as [|i l IH]; intros a a1 a2 Ha; simpl; [exact Ha|].
  apply IH. rewrite HF, Ha. ring.
Qed.

Lemma fold_windows_shift (F : nat -> Q) (k : nat) (l : list nat) (acc : Q) :
  fold_left (fun ret idx => ret + F idx) (map (fun j => (j + k)%nat) l) acc
  = fold_left (fun ret idx => ret + F (idx + k)%nat) l acc.
Proof.
  revert acc. induction l as [|a l IH]; intro acc; simpl; [reflexivity | apply IH].
Qed.

Lemma dot_lin (c d : Q) (w f g : list Q) :
  List.length f = List.length g ->
  dot w (map2 (fun a b => a * c + b * d) f g) == c * dot w f + d * dot w g.
Proof.
  revert f g. induction w as [|x w IH]; intros [|a f] [|b g] H; simpl in *;
    try discriminate; try ring.
  rewrite IH by lia. ring.
Qed.

Lemma dot_scale (k : Q) (w f : list Q) :
  dot w (map (fun v => v / k) f) == dot w f / k.
Proof.
  revert f. induction w as [|x w IH]; intros [|a f]; simpl; try (unfold Qdiv; ring).
  rewrite IH. unfold Qdiv. ring.
Qed.

Lemma window_lin (c d : Q) (x f g : list Q) :
  List.length f = List.length g ->
  newton_cotes x (map2 (fun a b => a * c + b * d) f g)
  == c * newton_cotes x f + d * newton_cotes x g.
Proof.
  intro H. unfold newton_cotes. destruct (List.length x <? 2)%nat; [ring|].
  cbv zeta. rewrite (dot_lin c d _ f g H). ring.
Qed.

Lemma window_scale (k : Q) (x f : list Q) :
  newton_cotes x (map (fun v => v / k) f) == newton_cotes x f / k.
Proof.
  unfold newton_cotes. destruct (List.length x <? 2)%nat; [unfold Qdiv; ring|].
  cbv zeta. rewrite dot_scale. unfold Qdiv. ring.
Qed.

Lemma skipn_map2 (h : Q -> Q -> Q) (f g : list Q) (i : nat) :
  skipn i (map2 h f g) = map2 h (skipn i f) (skipn i g).
Proof.
  revert f g. induction i as [|i IH]; intros f g; [reflexivity|].
  destruct f as [|a f]; destruct g as [|b g]; simpl; try reflexivity.
  - destruct (skipn i f); reflexivity.
  - apply IH.
Qed.

Lemma firstn_map2 (h : Q -> Q -> Q) (f g : list Q) (m : nat) :
  firstn m (map2 h f g) = map2 h (firstn m f) (firstn m g).
Proof.
  revert f g. induction m as [|m IH]; intros f g; [reflexivity|].
  destruct f as [|a f]; destruct g as [|b g]; simpl; try reflexivity.
  rewrite IH. reflexivity.
Qed.

Lemma slice_map2 (h : Q -> Q -> Q) (f g : list Q) (i j : nat) :
  slice (map2 h f g) i j = map2 h (slice f i j) (slice g i j).
Proof. unfold slice. rewrite skipn_map2, firstn_map2. reflexivity. Qed.

Lemma slice_length_eq (f g : list Q) (i j : nat) :
  List.length f = List.length g -> List.length (slice f i j) = List.length (slice g i j).
Proof.
  intro H. unfold slice. rewrite !length_firstn, !length_skipn, H. reflexivity.
Qed.

Lemma idl_tabulate_lin (c d : Q) (x f g : list Q) :
  List.length f = List.length g ->
  idl_tabulate x (map2 (fun a b => a * c + b * d) f g)
  == c * idl_tabulate x f + d * idl_tabulate x g.
Proof.
  intro H. unfold idl_tabulate, idl_tabulate_p.
  apply (fold_windows_lin
           (fun idx => newton_cotes (slice x idx (idx + 5))
                         (slice (map2 (fun a b => a * c + b * d) f g) idx (idx + 5)))
           (fun idx => newton_cotes (slice x idx (idx + 5)) (slice f idx (idx + 5)))
           (fun idx => newton_cotes (slice x idx (idx + 5)) (slice g idx (idx + 5)))).
  - intro idx. rewrite slice_map2. apply window_lin. apply slice_length_eq. exact H.
  - ring.
Qed.

Lemma idl_tabulate_scale (k : Q) (x f : list Q) :
  idl_tabulate x (map (fun v => v / k) f) == idl_tabulate x f / k.
Proof.
  unfold idl_tabulate, idl_tabulate_p.
  transitivity ((1 / k) * fold_left
     (fun ret idx => ret + newton_cotes (slice x idx (idx + 5)) (slice f idx (idx + 5)))
     (xrange0 (List.length x) (5 - 1)) 0
     + 0 * fold_left (fun ret idx => ret + 0) (xrange0 (List.length x) (5 - 1)) 0).
  - apply (fold_windows_lin
             (fun idx => newton_cotes (slice x idx (idx + 5))
                           (slice (map (fun v => v / k) f) idx (idx + 5)))
             (fun idx => newton_cotes (slice x idx (idx + 5)) (slice f idx (idx + 5)))
             (fun _ => 0)).
    + intro idx. rewrite slice_map, window_scale. unfold Qdiv. ring.
    + ring.
  - unfold Qdiv. ring.
Qed.

Lemma xrange0_restart (n : nat) :
  xrange0 n 4 = if (n =? 0)%nat then [] else 0%nat :: map (fun j => (j + 4)%nat) (xrange0 (n - 4) 4).
Proof.
  unfold xrange0. destruct n as [|n]; [reflexivity|].
  cbn [Nat.eqb].
  assert (E : ((S n + 4 - 1) / 4 = S ((S n - 4 + 4 - 1) / 4))%nat).
  { destruct (le_lt_dec 4 (S n)) as [H | H].
    - replace (S n + 4 - 1)%nat with ((S n - 4 + 4 - 1) + 1 * 4)%nat by lia.
      rewrite Nat.div_add by lia. lia.
    - replace (S n - 4 + 4 - 1)%nat with 3%nat by lia.
      replace ((3 / 4)%nat) with 0%nat by reflexivity.
      assert (H4 : (S n + 4 - 1 = (S n - 1) + 1 * 4)%nat) by lia.
      rewrite H4, Nat.div_add by lia. rewrite Nat.div_small by lia. reflexivity. }
  rewrite E. rewrite <- cons_seq. rewrite <- seq_shift. rewrite !map_cons, !map_map.
  f_equal. apply map_ext. intro j. lia.
Qed.

Lemma slice_restart (a : list Q) (idx : nat) :
  slice a (idx + 4) (idx + 4 + 5) = slice (skipn 4 a) idx (idx + 5).
Proof.
  unfold slice. replace (idx + 4 + 5 - (idx + 4))%nat with 5%nat by lia.
  replace (idx + 5 - idx)%nat with 5%nat by lia.
  rewrite skipn_skipn. reflexivity.
Qed.

Lemma tabulate_restart_eq (x f : list Q) :
  idl_tabulate x f
  == newton_cotes (firstn 5 x) (firstn 5 f) + idl_tabulate (skipn 4 x) (skipn 4 f).
Proof.
  unfold idl_tabulate, idl_tabulate_p. change (5 - 1)%nat with 4%nat.
  rewrite xrange0_restart. destruct (List.length x =? 0)%nat eqn:E.
  - apply Nat.eqb_eq in E. apply length_zero_iff_nil in E. subst x.
    simpl. unfold newton_cotes. simpl. ring.
  - rewrite length_skipn. cbn [fold_left].
    rewrite fold_windows_acc.
    rewrite (fold_windows_shift
               (fun idx => newton_cotes (slice x idx (idx + 5)) (slice f idx (idx + 5)))).
    assert (Ew : forall l acc,
      fold_left (fun ret idx => ret + newton_cotes (slice x (idx + 4) (idx + 4 + 5))
                                        (slice f (idx + 4) (idx + 4 + 5))) l acc
      = fold_left (fun ret idx => ret + newton_cotes (slice (skipn 4 x) idx (idx + 5))
                                          (slice (skipn 4 f) idx (idx + 5))) l acc).
    { induction l as [|a l IH]; intro acc; simpl; [reflexivity|].
      rewrite !slice_restart. apply IH. }
    rewrite Ew.
    change (slice x 0 (0 + 5)) with (firstn 5 x).
    change (slice f 0 (0 + 5)) with (firstn 5 f). ring.
Qed.

(** X11.  A tabulation of fewer than two points integrates to zero. *)
Theorem idl_tabulate_short (x f : list Q) :
  (List.length x < 2)%nat -> idl_tabulate x f == 0.
Proof.
  intro H. rewrite tabulate_restart_eq.
  destruct x as [|x0 [|x1 x]]; simpl in H; try lia.
  - unfold newton_cotes, idl_tabulate, idl_tabulate_p. simpl. ring.
  - unfold newton_cotes, idl_tabulate, idl_tabulate_p. simpl. ring.
Qed.

Lemma idl_tabulate_short_witness : idl_tabulate [3] [7] == 0.
Proof. apply idl_tabulate_short. simpl. lia. Defined.

(** X13.  On six evenly spaced points the quadrature is Boole's rule on
    the first five followed by the trapezium rule on the last interval. *)
Theorem idl_tabulate_six_points (h x0 x1 x2 x3 x4 x5 f0 f1 f2 f3 f4 f5 : Q) :
  equispaced h [x0; x1; x2; x3; x4; x5] -> ~ h == 0 ->
  idl_tabulate [x0; x1; x2; x3; x4; x5] [f0; f1; f2; f3; f4; f5]
  == h * (2 # 45) * (7 * f0 + 32 * f1 + 12 * f2 + 32 * f3 + 7 * f4)
     + h * (1 # 2) * (f4 + f5).
Proof.
  intros He Hh. simpl in He. destruct He as [H1 [H2 [H3 [H4 [H5 _]]]]].
  rewrite tabulate_restart_eq. cbn [firstn skipn].
  rewrite (window5_even h) by (try assumption; lra).
  rewrite tabulate_restart_eq. cbn [firstn skipn].
  rewrite (window2_even h) by assumption.
  assert (E0 : idl_tabulate [] [] == 0) by reflexivity.
  rewrite E0. ring.
Qed.

Lemma idl_tabulate_six_points_witness :
  idl_tabulate [0; 1; 2; 3; 4; 5] [1; 0; 0; 0; 1; 3]
  == 1 * (2 # 45) * (7 * 1 + 32 * 0 + 12 * 0 + 32 * 0 + 7 * 1) + 1 * (1 # 2) * (1 + 3).
Proof.
  apply (idl_tabulate_six_points 1 0 1 2 3 4 5 1 0 0 0 1 3).
  - simpl. repeat split; reflexivity.
  - intro E. discriminate E.
Defined.

(** *** The quadrature with the positions tested *)

Lemma newton_cotes64_modes (x f : list Q) :
  match newton_cotes64 x f with
  | Returns v => v = newton_cotes x f
  | ReturnsNone => False
  | Raises msg =>
      msg = "ValueError: The sample positions must start at 0 and end at N"%string
  end.
Proof.
  unfold newton_cotes64, newton_cotes.
  destruct (List.length x <? 2)%nat; [reflexivity|].
  destruct (Qeq_bool _ 0); [reflexivity|].
  destruct (Scipy.positions_rejected _); reflexivity.
Qed.

(** Whether a window is accepted depends on the abscissas only. *)
Lemma newton_cotes64_accepts (x f g : list Q) (v : Q) :
  newton_cotes64 x f = Returns v -> newton_cotes64 x g = Returns (newton_cotes x g).
Proof.
  unfold newton_cotes64, newton_cotes.
  destruct (List.length x <? 2)%nat; [reflexivity|].
  destruct (Qeq_bool _ 0); [discriminate|].
  destruct (Scipy.positions_rejected _); [discriminate | reflexivity].
Qed.

Lemma tabulate_windows64_returns (x f g : list Q) (p : nat) (idxs : list nat) (r r' v : Q) :
  tabulate_windows64 x f p idxs r = Returns v ->
  tabulate_windows64 x g p idxs r'
  = Returns (fold_left
               (fun ret idx => ret + newton_cotes (slice x idx (idx + p)) (slice g idx (idx + p)))
               idxs r').
Proof.
  revert r r'. induction idxs as [|idx idxs IH]; intros r r' H; [reflexivity|].
  cbn [tabulate_windows64 fold_left] in *.
  destruct (newton_cotes64 (slice x idx (idx + p)) (slice f idx (idx + p))) as [w| |msg] eqn:E;
    try discriminate.
  rewrite (newton_cotes64_accepts _ _ (slice g idx (idx + p)) _ E).
  exact (IH _ _ H).
Qed.

(** A call that returns has the value of the exact quadrature, and the
    same grid is accepted with any other tabulation. *)
Lemma idl_tabulate64_returns (x f g : list Q) (v : Q) :
  idl_tabulate64 x f = Returns v -> idl_tabulate64 x g = Returns (idl_tabulate x g).
Proof. exact (tabulate_windows64_returns x f g 5 _ 0 0 v). Qed.

Lemma idl_tabulate64_value (x f : list Q) (v : Q) :
  idl_tabulate64 x f = Returns v -> v = idl_tabulate x f.
Proof.
  intro H. pose proof (idl_tabulate64_returns x f f v H) as H'.
  rewrite H in H'. apply Returns_inj in H'. exact H'.
Qed.

(** X14.  On an evenly spaced increasing grid, whenever the quadrature
    returns, its value is non-negative for a non-negative tabulation and
    positive for a positive tabulation of two points or more.  The even
    spacing is needed: on the grid [[0; 1; 10]] the call returns a negative
    number for the tabulation [[1; 0; 0]]. *)
Theorem idl_tabulate_sign (h : Q) (x f : list Q) (v : Q) :
  0 < h -> equispaced h x -> List.length f = List.length x ->
  idl_tabulate64 x f = Returns v ->
  (Forall (fun v => 0 <= v) f -> 0 <= v) /\
  ((2 <= List.length x)%nat -> Forall (fun v => 0 < v) f -> 0 < v) /\
  exists v', idl_tabulate64 [0; 1; 10] [1; 0; 0] = Returns v' /\ v' < 0.
Proof.
  intros Hh He Hlen Hv. apply idl_tabulate64_value in Hv. subst v. split; [|split].
  - intro Hf. exact (idl_tabulate_nonneg h x f Hh He Hlen Hf).
  - intros H2 Hf. exact (idl_tabulate_pos h x f Hh He Hlen H2 Hf).
  - eexists. split; [vm_compute; reflexivity|]. vm_compute. reflexivity.
Qed.

Lemma idl_tabulate_sign_witness :
  0 < idl_tabulate [0; 1; 2] [1; 2; 1].
Proof.
  assert (Hh : 0 < 1) by reflexivity.
  assert (He : equispaced 1 [0; 1; 2]) by (simpl; repeat split; reflexivity).
  assert (Hv : idl_tabulate64 [0; 1; 2] [1; 2; 1] = Returns (idl_tabulate [0; 1; 2] [1; 2; 1]))
    by (vm_compute; reflexivity).
  destruct (idl_tabulate_sign 1 [0; 1; 2] [1; 2; 1] _ Hh He eq_refl Hv) as [_ [H _]].
  apply H; [simpl; lia | repeat constructor].
Defined.

(** X15.  On a grid that the quadrature accepts, it is linear in the
    tabulated values: a combination [a * c + b * d] of two tabulations
    returns the combination of their integrals, and dividing the values by
    a non-zero [k] divides the integral by [k]. *)
Theorem idl_tabulate_linear (c d k : Q) (x f g : list Q) (vf vg : Q) :
  List.length f = List.length x -> List.length g = List.length x ->
  idl_tabulate64 x f = Returns vf -> idl_tabulate64 x g = Returns vg ->
  (exists v, idl_tabulate64 x (map2 (fun a b => a * c + b * d) f g) = Returns v /\
             v == c * vf + d * vg) /\
  (~ k == 0 ->
   exists v, idl_tabulate64 x (map (fun a => a / k) f) = Returns v /\ v == vf / k).
Proof.
  intros Hf Hg Ef Eg.
  pose proof (idl_tabulate64_value x f vf Ef) as Vf.
  pose proof (idl_tabulate64_value x g vg Eg) as Vg. subst vf vg. split.
  - eexists. split; [exact (idl_tabulate64_returns x f _ _ Ef)|].
    apply idl_tabulate_lin. rewrite Hf, Hg. reflexivity.
  - intros _. eexists. split; [exact (idl_tabulate64_returns x f _ _ Ef)|].
    exact (idl_tabulate_scale k x f).
Qed.

Lemma idl_tabulate_linear_witness :
  exists v, idl_tabulate64 [0; 1; 3] (map (fun a => a / 2) [2; 4; 6]) = Returns v /\
            v == idl_tabulate [0; 1; 3] [2; 4; 6] / 2.
Proof.
  assert (E1 : idl_tabulate64 [0; 1; 3] [2; 4; 6] = Returns (idl_tabulate [0; 1; 3] [2; 4; 6]))
    by (vm_compute; reflexivity).
  assert (E2 : idl_tabulate64 [0; 1; 3] [0; 0; 0] = Returns (idl_tabulate [0; 1; 3] [0; 0; 0]))
    by (vm_compute; reflexivity).
  apply (proj2 (idl_tabulate_linear 1 1 2 [0; 1; 3] [2; 4; 6] [0; 0; 0] _ _
                  eq_refl eq_refl E1 E2)).
  intro H. discriminate H.
Defined.

(** ** The grid builder [populate_pdfs], continued *)

Lemma nth_map2 (h : Q -> Q -> Q) (a b : list Q) (k : nat) :
  (k < List.length a)%nat -> (k < List.length b)%nat ->
  nth k (map2 h a b) 0 = h (nth k a 0) (nth k b 0).
Proof.
  revert a b. induction k as [|k IH]; intros [|x a] [|y b] Ha Hb; simpl in *; try lia.
  - reflexivity.
  - apply IH; lia.
Qed.

Lemma interp_logM_bounds {NL : NumLib} (myM1 a b va vb lo hi : Q) :
  lo <= va <= hi -> lo <= vb <= hi -> lo <= interp_logM myM1 a b va vb <= hi.
Proof.
  intros Ha Hb. unfold interp_logM.
  apply np_interp_bounds; [reflexivity | discriminate|].
  constructor; [assumption|]. constructor; [assumption | constructor].
Qed.

Section Slopes.

Context {NL : NumLib}.

Lemma gl_1p2_range (mylogP : Q) : mylogP <= 8 -> - 2 <= gl_1p2 mylogP <= - (1 # 2).
Proof.
  intro H. unfold gl_1p2. destruct (Qleb mylogP 5) eqn:E; [split; lra|].
  apply Qleb_false in E. split; lra.
Qed.

Lemma gl_3p5_range (mylogP : Q) : - 2 <= gl_3p5 mylogP <= - (1 # 2).
Proof.
  unfold gl_3p5.
  destruct (Qleb mylogP 1) eqn:E1; [split; lra|]. apply Qleb_false in E1.
  destruct (Qleb mylogP (45 # 10)) eqn:E2; [apply Qleb_true in E2; split; lra|].
  apply Qleb_false in E2.
  destruct (Qleb mylogP (65 # 10)) eqn:E3; [apply Qleb_true in E3; split; lra|].
  split; lra.
Qed.

Lemma gl_6_range (mylogP : Q) : - 2 <= gl_6 mylogP <= - (1 # 2).
Proof.
  unfold gl_6.
  destruct (Qleb mylogP 1) eqn:E1; [split; lra|]. apply Qleb_false in E1.
  destruct (Qleb mylogP 2) eqn:E2; [apply Qleb_true in E2; split; lra|].
  apply Qleb_false in E2.
  destruct (Qleb mylogP 4) eqn:E3; [apply Qleb_true in E3; split; lra|].
  split; lra.
Qed.

Lemma gs_3p5_range (mylogP : Q) : mylogP <= 8 -> - (3 # 2) <= gs_3p5 mylogP <= (3 # 10).
Proof.
  intro H. unfold gs_3p5.
  destruct (Qleb mylogP (25 # 10)) eqn:E1; [split; lra|]. apply Qleb_false in E1.
  destruct (Qleb mylogP (55 # 10)) eqn:E2; [apply Qleb_true in E2; split; lra|].
  apply Qleb_false in E2. split; lra.
Qed.

Lemma gs_6_range (mylogP : Q) : - (3 # 2) <= gs_6 mylogP <= (3 # 10).
Proof.
  unfold gs_6.
  destruct (Qleb mylogP 1) eqn:E1; [split; lra|]. apply Qleb_false in E1.
  destruct (Qleb mylogP 3) eqn:E2; [apply Qleb_true in E2; split; lra|].
  apply Qleb_false in E2.
  destruct (Qleb mylogP (56 # 10)) eqn:E3; [apply Qleb_true in E3; split; lra|].
  split; lra.
Qed.

Lemma eta_3_range (mylogP : Q) : - (29 # 10) <= eta_3 mylogP <= (9 # 10).
Proof.
  unfold eta_3. destruct (Qleb (7 # 10) mylogP) eqn:E; [|split; lra].
  apply Qleb_true in E.
  assert (H0 : 0 <= (7 # 10) / (mylogP - (5 # 10))) by (apply Qle_shift_div_l; lra).
  assert (H1 : (7 # 10) / (mylogP - (5 # 10)) <= (35 # 10)) by (apply Qle_shift_div_r; lra).
  split; lra.
Qed.

Lemma eta_7_range (mylogP : Q) : - (29 # 10) <= eta_7 mylogP <= (9 # 10).
Proof.
  unfold eta_7. destruct (Qleb (7 # 10) mylogP) eqn:E; [|split; lra].
  apply Qleb_true in E.
  assert (H0 : 0 <= (2 # 10) / (mylogP - (5 # 10))) by (apply Qle_shift_div_l; lra).
  assert (H1 : (2 # 10) / (mylogP - (5 # 10)) <= 1) by (apply Qle_shift_div_r; lra).
  split; lra.
Qed.

(** X16.  Over the period grid ([mylogP <= 8]) and for every mass, the
    slope of the mass-ratio density lies in [[-2, -0.5]] above [q = 0.3]
    and in [[-1.5, 0.3]] below it, and the slope of the eccentricity
    density lies in [[-2.9, 0.9]]. *)
Theorem slope_ranges (myM1 mylogP : Q) :
  mylogP <= 8 ->
  - 2 <= gl myM1 mylogP <= - (1 # 2) /\
  - (3 # 2) <= gs myM1 mylogP <= (3 # 10) /\
  - (29 # 10) <= eta myM1 mylogP <= (9 # 10).
Proof.
  intro H.
  pose proof (gl_1p2_range mylogP H) as G1. pose proof (gl_3p5_range mylogP) as G2.
  pose proof (gl_6_range mylogP) as G3. pose proof (gs_3p5_range mylogP H) as S2.
  pose proof (gs_6_range mylogP) as S3.
  pose proof (eta_3_range mylogP) as E3. pose proof (eta_7_range mylogP) as E7.
  assert (S1 : - (3 # 2) <= gs_1p2 <= (3 # 10)) by (unfold gs_1p2; split; lra).
  split; [|split].
  - unfold gl. destruct (Qleb myM1 (12 # 10)); [exact G1|].
    destruct (Qleb myM1 (35 # 10)); [apply interp_logM_bounds; assumption|].
    destruct (Qleb myM1 6); [apply interp_logM_bounds; assumption | exact G3].
  - unfold gs. destruct (Qleb myM1 (12 # 10)); [exact S1|].
    destruct (Qleb myM1 (35 # 10)); [apply interp_logM_bounds; assumption|].
    destruct (Qleb myM1 6); [apply interp_logM_bounds; assumption | exact S3].
  - unfold eta. destruct (Qleb myM1 3); [exact E3|].
    destruct (Qleb myM1 7); [apply interp_logM_bounds; assumption | exact E7].
Qed.

(** X17.  For a grid mass the excess twin fraction lies in
    [[0, 0.315]], and it is zero from the period [logPtwin] on. *)
Theorem twin_fraction_range (myM1 mylogP : Q) :
  grid_mass myM1 ->
  0 <= Ftwin myM1 mylogP <= (315 # 1000) /\
  (logPtwin myM1 <= mylogP -> Ftwin myM1 mylogP = 0).
Proof.
  intros [HL HU]. unfold Ftwin.
  assert (HF : 0 < FtwinlogPle1 myM1 /\ FtwinlogPle1 myM1 <= (315 # 1000)).
  { unfold FtwinlogPle1. split; lra. }
  assert (HT : (3 # 2) <= logPtwin myM1).
  { unfold logPtwin. destruct (Qleb (65 # 10) myM1) eqn:E; [lra|].
    apply Qleb_false in E. lra. }
  destruct (Qleb (logPtwin myM1) mylogP) eqn:E1.
  - split; [split; lra | reflexivity].
  - apply Qleb_false in E1. split; [|intro; lra].
    destruct (Qleb mylogP 1) eqn:E2; [split; lra|].
    apply Qleb_false in E2.
    assert (Ht : 0 <= (mylogP - 1) / (logPtwin myM1 - 1) <= 1).
    { split; [apply Qle_shift_div_l; lra | apply Qle_shift_div_r; lra]. }
    generalize dependent (FtwinlogPle1 myM1). intros F HF.
    generalize dependent ((mylogP - 1) / (logPtwin myM1 - 1)). intros t Ht.
    split; nra.
Qed.

(** X18.  The probability that a companion belongs to the inner binary
    is one up to [log P = 1.5] and a number in [[0, 1]] beyond. *)
Theorem inner_binary_probability_range (myM1 mylogP : Q) :
  pow_positive -> 0 < myM1 ->
  0 <= probbin myM1 mylogP <= 1 /\
  (mylogP <= (15 # 10) -> probbin myM1 mylogP = 1).
Proof.
  intros Hpow Hm. split; [|apply probbin_short_period].
  split; [apply probbin_nonneg|].
  unfold probbin. cbv zeta.
  destruct (Qleb mylogP (15 # 10)) eqn:E.
  - destruct (Qleb 1 0); lra.
  - apply Qleb_false in E.
    assert (H1 : 0 < pow (mylogP - (15 # 10)) (143 # 100)) by (apply Hpow; lra).
    assert (H2 : 0 < pow (myM1 / 10) (56 # 100)).
    { apply Hpow. apply Qlt_shift_div_l; lra. }
    generalize dependent (pow (mylogP - (15 # 10)) (143 # 100)). intros a Ha.
    generalize dependent (pow (myM1 / 10) (56 # 100)). intros c Hc.
    destruct (Qleb (1 - (11 # 100) * a * c) 0); [lra|]. nra.
Qed.

(** X19.  The frequency of companions per decade of period takes the
    three anchor values that name it: [flogPle1] up to [log P = 1],
    [flogPeq2p7] at [2.7] and [flogPeq5p5] at [5.5]; for a grid mass it is
    positive at every period. *)
Theorem companion_frequency_anchors (myM1 : Q) :
  (forall mylogP, mylogP <= 1 -> flogP myM1 mylogP = flogPle1 myM1) /\
  flogP myM1 (27 # 10) == flogPeq2p7 myM1 /\
  flogP myM1 (55 # 10) == flogPeq5p5 myM1 /\
  (exp_positive -> grid_mass myM1 -> forall mylogP, 0 < flogP myM1 mylogP).
Proof.
  split; [|split; [|split]].
  - intros mylogP H. unfold flogP.
    destruct (Qleb mylogP 1) eqn:E; [reflexivity|]. apply Qleb_false in E. lra.
  - unfold flogP, DlogP, alpha.
    destruct (Qleb (27 # 10) 1) eqn:E1; [apply Qleb_true in E1; lra|].
    destruct (Qleb (27 # 10) ((27 # 10) - (7 # 10))) eqn:E2; [apply Qleb_true in E2; lra|].
    destruct (Qleb (27 # 10) ((27 # 10) + (7 # 10))) eqn:E3; [ring|].
    apply Qleb_false in E3. lra.
  - unfold flogP, DlogP, alpha.
    destruct (Qleb (55 # 10) 1) eqn:E1; [apply Qleb_true in E1; lra|].
    destruct (Qleb (55 # 10) ((27 # 10) - (7 # 10))) eqn:E2; [apply Qleb_true in E2; lra|].
    destruct (Qleb (55 # 10) ((27 # 10) + (7 # 10))) eqn:E3; [apply Qleb_true in E3; lra|].
    destruct (Qleb (55 # 10) (55 # 10)) eqn:E4; [field|].
    apply Qleb_false in E4. lra.
  - intros Hexp Hg mylogP. exact (flogP_positive Hexp myM1 mylogP Hg).
Qed.

End Slopes.

Lemma slope_ranges_witness :
  - 2 <= @gl RationalLib 1 3 <= - (1 # 2) /\
  - (3 # 2) <= @gs RationalLib 1 3 <= (3 # 10) /\
  - (29 # 10) <= @eta RationalLib 1 3 <= (9 # 10).
Proof.
  apply (@slope_ranges RationalLib 1 3). unfold Qle. simpl. lia.
Defined.

Lemma twin_fraction_range_witness :
  0 <= @Ftwin RationalLib 1 3 <= (315 # 1000).
Proof.
  exact (proj1 (@twin_fraction_range RationalLib 1 3 RationalLib_grid_mass_one)).
Defined.

Lemma inner_binary_probability_range_witness :
  0 <= @probbin RationalLib 1 3 <= 1.
Proof.
  apply (@inner_binary_probability_range RationalLib 1 3 RationalLib_pow_positive).
  reflexivity.
Defined.

Lemma companion_frequency_anchors_witness :
  0 < @flogP RationalLib 1 3.
Proof.
  exact (proj2 (proj2 (proj2 (@companion_frequency_anchors RationalLib 1)))
           RationalLib_exp_positive RationalLib_grid_mass_one 3).
Defined.

(** *** The eccentricity density *)

Lemma where_from_nil (a : nat) (mask : list bool) :
  where_from a mask = [] <-> Forall (fun b => b = false) mask.
Proof.
  revert a. induction mask as [|b mask IH]; intro a; simpl.
  - split; [constructor | reflexivity].
  - destruct b.
    + split; [discriminate | intro H; inversion H; discriminate].
    + rewrite IH. split; [intro H; constructor; [reflexivity | exact H]|].
      intro H. inversion H. assumption.
Qed.

Section EccentricityCut.

Context {NL : NumLib}.

Lemma fe_length (mylogP eta : Q) (f : list Q) :
  fe mylogP eta = Returns f -> List.length f = nume.
Proof.
  unfold fe. destruct (Qleb (pow 10 mylogP) 2).
  - intro E. apply Returns_inj in E. subst f. rewrite length_map. apply ev_length.
  - destruct (np_where _) as [|i0 ind]; [discriminate|].
    intro E. apply Returns_inj in E. subst f.
    rewrite !map2_length, length_map, ev_length. lia.
Qed.

(** X20.  Whenever the eccentricity density of a cell is built, it has
    [nume] non-negative entries; beyond two days it is zero at every grid
    eccentricity at or above [e_max]. *)
Theorem eccentricity_density_cut (mylogP eta : Q) (f : list Q) :
  pow_positive ->
  fe mylogP eta = Returns f ->
  List.length f = nume /\
  Forall (fun v => 0 <= v) f /\
  (2 < pow 10 mylogP ->
   forall k, (k < nume)%nat ->
     1 - pow (pow 10 mylogP / 2) (- (2 # 3)) <= nth k ev 0 -> nth k f 0 == 0).
Proof.
  intros Hpow E. split; [exact (fe_length _ _ _ E)|].
  split; [exact (fe_nonneg Hpow _ _ _ E)|].
  intros HP k Hk Hcut. revert E. unfold fe.
  destruct (Qleb (pow 10 mylogP) 2) eqn:E2; [apply Qleb_true in E2; lra|].
  set (e_max := 1 - pow (pow 10 mylogP / 2) (- (2 # 3))) in *.
  set (fe1 := map (fun e => pow e eta) ev).
  set (fe2 := map2 (fun e v => if Qleb e_max e then 0 else v) ev fe1).
  destruct (np_where _) as [|i0 ind]; [discriminate|].
  intro E. apply Returns_inj in E. subst f.
  assert (L1 : List.length fe1 = nume) by (unfold fe1; rewrite length_map; apply ev_length).
  assert (L2 : List.length fe2 = nume)
    by (unfold fe2; rewrite map2_length, L1, ev_length; lia).
  rewrite nth_map2 by (rewrite ?ev_length, ?L2; assumption).
  assert (Ek : nth k fe2 0 == 0).
  { unfold fe2. rewrite nth_map2 by (rewrite ?ev_length, ?L1; assumption).
    destruct (Qleb e_max (nth k ev 0)) eqn:Ec; [reflexivity|].
    apply Qleb_false in Ec. lra. }
  generalize dependent (nth k ev 0). intros e Hcut.
  generalize dependent (nth k fe2 0). intros v Ek.
  destruct (Qleb ((8 # 10) * e_max) e && Qleb e (1 * e_max)) eqn:Eb; [|exact Ek].
  apply andb_true_iff in Eb. destruct Eb as [Eb1 Eb2].
  apply Qleb_true in Eb1. apply Qleb_true in Eb2.
  unfold np_interp. cbn [last hd].
  assert (E3 : Qltb (1 * e_max) e = false) by (apply Qltb_false; lra).
  assert (E4 : Qltb e ((8 # 10) * e_max) = false) by (apply Qltb_false; lra).
  rewrite E3, E4. rewrite interp_scan_step.
  assert (E5 : Qleb (1 * e_max) e = true) by (apply Qleb_true; lra).
  rewrite E5. reflexivity.
Qed.

Lemma band_empty (lo hi : Q) (l : list Q) :
  np_where (map (fun e => Qleb lo e && Qleb e hi) l) = [] ->
  Forall (fun e => ~ (lo <= e /\ e <= hi)) l.
Proof.
  unfold np_where. intro Ew. apply where_from_nil in Ew.
  rewrite Forall_forall in *. intros e Hin [H1 H2].
  assert (Hb : Qleb lo e && Qleb e hi = false).
  { apply Ew. apply in_map_iff. exists e. split; [reflexivity | exact Hin]. }
  apply andb_false_iff in Hb. destruct Hb as [Hb | Hb]; apply Qleb_false in Hb; lra.
Qed.

Lemma band_nonempty (lo hi : Q) (l : list Q) (i0 : nat) (ind : list nat) :
  np_where (map (fun e => Qleb lo e && Qleb e hi) l) = i0 :: ind ->
  Exists (fun e => lo <= e /\ e <= hi) l.
Proof.
  unfold np_where. generalize 0%nat. induction l as [|e l IH]; intros a Ew; [discriminate Ew|].
  cbn [map where_from] in Ew.
  destruct (Qleb lo e && Qleb e hi) eqn:Eb.
  - apply andb_true_iff in Eb. destruct Eb as [B1 B2].
    apply Qleb_true in B1. apply Qleb_true in B2. apply Exists_cons_hd. split; assumption.
  - apply Exists_cons_tl. exact (IH _ Ew).
Qed.

(** X21.  The only failure of the density: it raises the [ValueError]
    of [np.min] on an empty array exactly when the period is beyond two
    days and no grid eccentricity lies in [[0.8 * e_max, e_max]]. *)
Theorem eccentricity_band_empty_raises (mylogP eta : Q) :
  match fe mylogP eta with
  | Returns _ =>
      pow 10 mylogP <= 2 \/
      Exists (fun e => (8 # 10) * (1 - pow (pow 10 mylogP / 2) (- (2 # 3))) <= e /\
                       e <= 1 - pow (pow 10 mylogP / 2) (- (2 # 3))) ev
  | ReturnsNone => False
  | Raises msg =>
      msg = "ValueError: zero-size array to reduction operation minimum which has no identity"%string /\
      2 < pow 10 mylogP /\
      Forall (fun e => ~ ((8 # 10) * (1 - pow (pow 10 mylogP / 2) (- (2 # 3))) <= e /\
                          e <= 1 - pow (pow 10 mylogP / 2) (- (2 # 3)))) ev
  end.
Proof.
  unfold fe. destruct (Qleb (pow 10 mylogP) 2) eqn:E2.
  - left. apply Qleb_true in E2. exact E2.
  - apply Qleb_false in E2.
    generalize (band_empty ((8 # 10) * (1 - pow (pow 10 mylogP / 2) (- (2 # 3))))
                  (1 * (1 - pow (pow 10 mylogP / 2) (- (2 # 3)))) ev).
    generalize (band_nonempty ((8 # 10) * (1 - pow (pow 10 mylogP / 2) (- (2 # 3))))
                  (1 * (1 - pow (pow 10 mylogP / 2) (- (2 # 3)))) ev).
    generalize (1 - pow (pow 10 mylogP / 2) (- (2 # 3))). intro e_max.
    generalize ev. intro l.
    destruct (np_where _) as [|i0 ind].
    + intros _ He. split; [reflexivity|]. split; [exact E2|].
      eapply Forall_impl; [|exact (He eq_refl)]. intros e H [H1 H2]. apply H. split; lra.
    + intros Hn _. right.
      eapply Exists_impl; [|exact (Hn i0 ind eq_refl)]. intros e [H1 H2]. split; lra.
Qed.

End EccentricityCut.



(** *** The end points of the stored CDFs *)

Lemma cum_offset_hd (f : list Q) : hd 0 (cum_offset f) == 0.
Proof. destruct f as [|f0 r]; [reflexivity|]. unfold cum_offset. simpl. ring. Qed.

Lemma hd_map_Q (g : Q -> Q) (l : list Q) : l <> [] -> hd 0 (map g l) = g (hd 0 l).
Proof. destruct l; [congruence | reflexivity]. Qed.

Lemma scaled_cdf_endpoints (f : list Q) (B : Q) :
  Forall (fun v => 0 <= v) f -> 0 < np_max (cum_offset f) ->
  hd 0 (map (fun c => c / np_max (cum_offset f) * B) (cum_offset f)) == 0 /\
  last (map (fun c => c / np_max (cum_offset f) * B) (cum_offset f)) 0 == B /\
  hd 0 (map (fun c => c / np_max (cum_offset f)) (cum_offset f)) == 0 /\
  last (map (fun c => c / np_max (cum_offset f)) (cum_offset f)) 0 == 1.
Proof.
  intros Hf Hm.
  assert (Hne : cum_offset f <> []).
  { intro E. rewrite E in Hm. simpl in Hm. lra. }
  pose proof (np_max_nondecreasing _ Hne (cum_offset_nondecreasing f Hf)) as Hmax.
  pose proof (cum_offset_hd f) as Hh.
  rewrite !hd_map_Q, !last_map by assumption.
  rewrite <- Hmax.
  generalize dependent (np_max (cum_offset f)). intros m Hm _.
  generalize dependent (hd 0 (cum_offset f)). intros h Hh.
  repeat split.
  - rewrite Hh. unfold Qdiv. ring.
  - field. lra.
  - rewrite Hh. unfold Qdiv. ring.
  - field. lra.
Qed.

(** X23.  For a grid mass every stored mass-ratio CDF starts at
    exactly [0] and ends at exactly [1], and the period column starts at
    [0] and ends at exactly the integral of its weights, the binary
    fraction of the mass. *)
Theorem built_cdf_endpoints {NL : NumLib} (myM1 : Q) :
  pow_positive -> exp_positive -> grid_mass myM1 ->
  (forall mylogP, exists c,
     normalise_cdf (fq myM1 mylogP) = map Fin c /\ hd 0 c == 0 /\ last c 0 == 1) /\
  (exists c,
     normalise_period logPv (period_weights myM1) = map Fin c /\
     hd 0 c == 0 /\ last c 0 == idl_tabulate logPv (period_weights myM1)).
Proof.
  intros Hpow Hexp Hg. split.
  - intro mylogP.
    pose proof (fq_positive Hpow myM1 mylogP Hg) as Hp.
    assert (Hm : 0 < np_max (cum_offset (fq myM1 mylogP))).
    { apply positive_density_cum_max; [|exact Hp].
      unfold fq. rewrite fq_of_length. unfold numq. lia. }
    destruct (scaled_cdf_endpoints (fq myM1 mylogP) 1 (Forall_pos_nonneg _ Hp) Hm)
      as [_ [_ [H0 H1]]].
    eexists. split; [exact (normalise_cdf_finite _ Hm)|]. split; assumption.
  - pose proof (period_weights_nonneg Hpow Hexp myM1 Hg) as Hw.
    pose proof (period_weights_cum_max Hpow Hexp myM1 Hg) as Hm.
    destruct (scaled_cdf_endpoints (period_weights myM1)
                (idl_tabulate logPv (period_weights myM1)) Hw Hm) as [H0 [H1 _]].
    eexists. split; [exact (normalise_period_finite logPv _ Hm)|]. split; assumption.
Qed.

Lemma built_cdf_endpoints_witness :
  exists c,
    normalise_cdf (@fq RationalLib 1 3) = map Fin c /\ hd 0 c == 0 /\ last c 0 == 1.
Proof.
  exact (proj1 (@built_cdf_endpoints RationalLib 1 RationalLib_pow_positive
                  RationalLib_exp_positive RationalLib_grid_mass_one) 3).
Defined.

Lemma eccentricity_density_cut_witness :
  exists f, @fe RationalLib 1 0 = Returns f /\ nth 90 f 0 == 0.
Proof.
  eexists. split; [vm_compute; reflexivity|].
  refine (proj2 (proj2 (@eccentricity_density_cut RationalLib 1 0 _
                          RationalLib_pow_positive _)) _ 90%nat _ _).
  - vm_compute. reflexivity.
  - vm_compute. reflexivity.
  - unfold nume. lia.
  - vm_compute. discriminate.
Defined.

(** *** The normalisation of the mass-ratio density *)

Lemma skipn_cons_nth (a : list Q) (i : nat) :
  (i < List.length a)%nat -> skipn i a = nth i a 0 :: skipn (S i) a.
Proof.
  revert a. induction i as [|i IH]; intros [|x a] H; simpl in H; try lia.
  - reflexivity.
  - simpl. apply IH. lia.
Qed.

Lemma take_idx_seq (a : list Q) (i n : nat) :
  (i + n <= List.length a)%nat -> take_idx a (seq i n) = firstn n (skipn i a).
Proof.
  revert i. induction n as [|n IH]; intros i H; [reflexivity|].
  rewrite (skipn_cons_nth a i) by lia. cbn [seq firstn]. unfold take_idx in *.
  cbn [map]. rewrite IH by lia. reflexivity.
Qed.

(** [a[indlq]] is the tail of [a] from the index of [q = 0.3]. *)
Lemma take_idx_indlq (a : list Q) :
  List.length a = numq -> take_idx a indlq = skipn 20 a.
Proof.
  intro H. rewrite indlq_eq, take_idx_seq by (rewrite H; unfold numq; lia).
  apply firstn_all2. rewrite length_skipn, H. unfold numq. lia.
Qed.

Lemma dot_zero (w g : list Q) : Forall (fun v => v == 0) g -> dot w g == 0.
Proof.
  intro H. revert w. induction H as [|v g Hv Hg IH]; intros [|x w]; simpl; try reflexivity.
  rewrite Hv, IH. ring.
Qed.

Lemma window_zero (w g : list Q) : Forall (fun v => v == 0) g -> newton_cotes w g == 0.
Proof.
  intro H. unfold newton_cotes. destruct (List.length w <? 2)%nat; [reflexivity|].
  cbv zeta. rewrite (dot_zero _ g H). ring.
Qed.

(** Leading windows of zeros contribute nothing. *)
Lemma idl_tabulate_skip_zeros (m : nat) (x f : list Q) :
  Forall (fun v => v == 0) (firstn (4 * m + 1) f) ->
  idl_tabulate x f == idl_tabulate (skipn (4 * m) x) (skipn (4 * m) f).
Proof.
  revert x f. induction m as [|m IH]; intros x f Hz; [reflexivity|].
  rewrite tabulate_restart_eq.
  assert (H5 : Forall (fun v => v == 0) (firstn 5 f)).
  { replace (firstn 5 f) with (firstn 5 (firstn (4 * S m + 1) f)).
    - apply Forall_firstn_Q. exact Hz.
    - rewrite firstn_firstn. f_equal. lia. }
  rewrite (window_zero _ _ H5).
  rewrite (IH (skipn 4 x) (skipn 4 f)).
  - rewrite !skipn_skipn. replace (4 * m + 4)%nat with (4 * S m)%nat by lia. ring.
  - rewrite firstn_skipn_comm. apply Forall_skipn_Q.
    replace (4 + (4 * m + 1))%nat with (4 * S m + 1)%nat by lia. exact Hz.
Qed.

(** On an even grid, dropping leading windows of a non-negative
    tabulation does not increase the integral. *)
Lemma idl_tabulate_tail_le (h : Q) (m : nat) (x f : list Q) :
  0 < h -> equispaced h x -> List.length f = List.length x ->
  Forall (fun v => 0 <= v) f ->
  idl_tabulate (skipn (4 * m) x) (skipn (4 * m) f) <= idl_tabulate x f.
Proof.
  intro Hh. revert x f. induction m as [|m IH]; intros x f He Hl Hf; [apply Qle_refl|].
  rewrite (tabulate_restart_eq x f).
  assert (Hw : 0 <= newton_cotes (firstn 5 x) (firstn 5 f)).
  { apply (window_even_nonneg h).
    - exact Hh.
    - apply equispaced_firstn. exact He.
    - rewrite !length_firstn, Hl. reflexivity.
    - rewrite length_firstn. lia.
    - apply Forall_firstn_Q. exact Hf. }
  assert (Ht : idl_tabulate (skipn (4 * m) (skipn 4 x)) (skipn (4 * m) (skipn 4 f))
               <= idl_tabulate (skipn 4 x) (skipn 4 f)).
  { apply IH.
    - apply equispaced_skipn. exact He.
    - rewrite !length_skipn, Hl. reflexivity.
    - apply Forall_skipn_Q. exact Hf. }
  rewrite !skipn_skipn in Ht.
  replace (4 * m + 4)%nat with (4 * S m)%nat in Ht by lia. lra.
Qed.

Lemma H_step_head : firstn 21 H_step = repeat 0 21.
Proof. vm_compute. reflexivity. Qed.

Lemma H_step_tail : skipn 88 H_step = [1; 1; 1].
Proof. vm_compute. reflexivity. Qed.

(** The integral of the twin step is positive. *)
Lemma H_step_integral_pos : 0 < idl_tabulate qv H_step.
Proof.
  apply Qlt_le_trans with (idl_tabulate (skipn (4 * 22) qv) (skipn (4 * 22) H_step)).
  - change (4 * 22)%nat with 88%nat. apply (idl_tabulate_pos qv_step).
    + apply qv_step_pos.
    + apply equispaced_skipn. apply qv_equispaced.
    + rewrite !length_skipn, H_step_length, qv_length. reflexivity.
    + rewrite length_skipn, qv_length. unfold numq. lia.
    + rewrite H_step_tail. repeat constructor.
  - apply (idl_tabulate_tail_le qv_step).
    + apply qv_step_pos.
    + apply qv_equispaced.
    + rewrite H_step_length, qv_length. reflexivity.
    + apply H_step_nonneg.
Qed.

Lemma H_step_integral_above_0p3 :
  idl_tabulate (skipn 20 qv) (skipn 20 H_step) == idl_tabulate qv H_step.
Proof.
  symmetry. apply (idl_tabulate_skip_zeros 5).
  change (4 * 5 + 1)%nat with 21%nat. rewrite H_step_head.
  apply Forall_forall. intros v Hin. apply repeat_spec in Hin. subst v. reflexivity.
Qed.

Lemma qv_tail_above_0p3 : Forall (fun q => Qltb q (3 # 10) = false) (skipn 20 qv).
Proof.
  assert (Hb : forallb (fun q => negb (Qltb q (3 # 10))) (skipn 20 qv) = true)
    by (vm_compute; reflexivity).
  rewrite forallb_forall in Hb. apply Forall_forall. intros q Hin.
  specialize (Hb q Hin). destruct (Qltb q (3 # 10)); [discriminate Hb | reflexivity].
Qed.

Lemma map2_keep (c : Q -> bool) (g : Q -> Q) (a b : list Q) :
  Forall (fun q => c q = false) a -> List.length a = List.length b ->
  map2 (fun q v => if c q then g q else v) a b = b.
Proof.
  intro H. revert b. induction H as [|q a Hq Ha IH]; intros [|v b] Hl; simpl in *;
    try discriminate; [reflexivity|].
  rewrite Hq, IH by lia. reflexivity.
Qed.

Lemma eq_Qeq (a b : Q) : a = b -> a == b.
Proof. intro E. subst. reflexivity. Qed.

Lemma idl_tabulate_eq (a b a' b' : list Q) (r : Q) :
  a = a' -> b = b' -> idl_tabulate a' b' == r -> idl_tabulate a b == r.
Proof. intros Ea Eb H. subst. exact H. Qed.

(** Dividing a tabulation by its integral gives a unit integral. *)
Lemma scaled_unit (X f : list Q) (k : Q) :
  idl_tabulate X f == k -> 0 < k -> idl_tabulate X (map (fun v => v / k) f) == 1.
Proof.
  intros E Hk. rewrite idl_tabulate_scale, E. field. lra.
Qed.

(** A mixture of two unit tabulations is a unit tabulation. *)
Lemma mixed_unit (X f1 f2 : list Q) (Ftw : Q) :
  List.length f1 = List.length f2 ->
  idl_tabulate X f1 == 1 -> idl_tabulate X f2 == 1 ->
  idl_tabulate X (map2 (fun v h => v * (1 - Ftw) + h * Ftw) f1 f2) == 1.
Proof.
  intros Hl E1 E2. rewrite (idl_tabulate_lin (1 - Ftw) Ftw X f1 f2 Hl), E1, E2. ring.
Qed.

Lemma H_unit_integral : idl_tabulate qv H == 1.
Proof.
  unfold H. apply scaled_unit; [reflexivity | exact H_step_integral_pos].
Qed.

Lemma H_tail : skipn 20 H = map (fun h => h / idl_tabulate qv H_step) (skipn 20 H_step).
Proof. unfold H. apply skipn_map. Qed.

Lemma H_unit_integral_above_0p3 : idl_tabulate (skipn 20 qv) (skipn 20 H) == 1.
Proof.
  apply (idl_tabulate_eq _ _ _ _ 1 eq_refl H_tail).
  apply scaled_unit; [exact H_step_integral_above_0p3 | exact H_step_integral_pos].
Qed.

Section Normalised.

Context {NL : NumLib}.
Hypothesis Hpow : pow_positive.

Lemma fq_of_tail (Ftw gl gs : Q) :
  take_idx (fq_of Ftw gl gs) indlq
  = map2 (fun v h => v * (1 - Ftw) + h * Ftw)
      (map (fun v => v / idl_tabulate (take_idx qv indlq)
                         (take_idx (map (fun q => pow q gl) qv) indlq))
           (skipn 20 (map (fun q => pow q gl) qv)))
      (skipn 20 H).
Proof.
  etransitivity; [exact (take_idx_indlq _ (fq_of_length Ftw gl gs))|].
  unfold fq_of. cbv zeta.
  etransitivity; [apply skipn_map2|].
  etransitivity.
  - apply (map2_keep (fun q => Qltb q (3 # 10))); [exact qv_tail_above_0p3|].
    rewrite !length_skipn, !map2_length, !length_map, qv_length, H_length. reflexivity.
  - etransitivity; [apply skipn_map2|]. f_equal; try apply skipn_map.
Qed.

(** X24.  The normalisations of the mass-ratio density do what their
    comments say: the twin step [H] integrates to one over [qv], and the
    density of every cell integrates to one over [0.3 <= q <= 1],
    whatever the twin fraction and the two slopes. *)
Theorem mass_ratio_density_normalised (Ftw gl gs : Q) :
  idl_tabulate qv H == 1 /\
  idl_tabulate (take_idx qv indlq) (take_idx (fq_of Ftw gl gs) indlq) == 1.
Proof.
  split; [exact H_unit_integral|].
  assert (P1 : Forall (fun v => 0 < v) (map (fun q => pow q gl) qv)).
  { pose proof qv_positive as Hq. rewrite Forall_forall in *.
    intros v Hin. apply in_map_iff in Hin. destruct Hin as [q [E Hin]]. subst v.
    apply Hpow. apply Hq. assumption. }
  assert (L1 : List.length (map (fun q => pow q gl) qv) = numq).
  { rewrite length_map. apply qv_length. }
  assert (Pn : 0 < idl_tabulate (take_idx qv indlq)
                     (take_idx (map (fun q => pow q gl) qv) indlq)).
  { apply (idl_tabulate_pos qv_step).
    - apply qv_step_pos.
    - apply qv_indlq_equispaced.
    - rewrite !take_idx_length. reflexivity.
    - rewrite take_idx_length, indlq_eq, length_seq. lia.
    - apply take_idx_Forall; [assumption|]. apply indlq_in_range. assumption. }
  assert (En : idl_tabulate (skipn 20 qv) (skipn 20 (map (fun q => pow q gl) qv))
               == idl_tabulate (take_idx qv indlq)
                    (take_idx (map (fun q => pow q gl) qv) indlq)).
  { apply eq_Qeq. symmetry.
    exact (f_equal2 idl_tabulate (take_idx_indlq qv qv_length) (take_idx_indlq _ L1)). }
  apply (idl_tabulate_eq _ _ _ _ 1 (take_idx_indlq qv qv_length) (fq_of_tail Ftw gl gs)).
  generalize dependent (idl_tabulate (take_idx qv indlq)
                          (take_idx (map (fun q => pow q gl) qv) indlq)).
  intros norm Pn En.
  apply mixed_unit.
  - rewrite length_map, !length_skipn, L1, H_length. reflexivity.
  - apply scaled_unit; assumption.
  - exact H_unit_integral_above_0p3.
Qed.

End Normalised.

Lemma mass_ratio_density_normalised_witness :
  idl_tabulate (take_idx qv indlq)
    (take_idx (@fq_of RationalLib (1 # 10) (- (1 # 2)) (3 # 10)) indlq) == 1.
Proof.
  exact (proj2 (@mass_ratio_density_normalised RationalLib RationalLib_pow_positive
                  (1 # 10) (- (1 # 2)) (3 # 10))).
Defined.

(** ** The index of the nearest grid point *)

Lemma fold_left_Qmin_le (l : list Q) (a : Q) : fold_left Qmin l a <= a.
Proof.
  revert a. induction l as [|x l IH]; intro a; simpl; [lra|].
  eapply Qle_trans; [apply IH | apply Q.le_min_l].
Qed.

Lemma fold_left_Qmin_lower (l : list Q) (a : Q) :
  Forall (fun v => fold_left Qmin l a <= v) l.
Proof.
  revert a. induction l as [|x l IH]; intro a; simpl; constructor.
  - eapply Qle_trans; [apply fold_left_Qmin_le | apply Q.le_min_r].
  - apply IH.
Qed.

Lemma np_min_lower (l : list Q) : Forall (fun v => np_min l <= v) l.
Proof.
  destruct l as [|x l]; simpl; constructor.
  - apply fold_left_Qmin_le.
  - apply fold_left_Qmin_lower.
Qed.

Lemma fold_left_Qmin_attained (l : list Q) (a : Q) :
  fold_left Qmin l a == a \/
  exists j, (j < List.length l)%nat /\ nth j l 0 == fold_left Qmin l a.
Proof.
  revert a. induction l as [|x l IH]; intro a; simpl; [left; reflexivity|].
  destruct (IH (Qmin a x)) as [E | [j [Hj E]]].
  - destruct (Q.min_spec a x) as [[_ Em] | [_ Em]].
    + left. rewrite E. exact Em.
    + right. exists 0%nat. split; [lia|]. rewrite E. symmetry. exact Em.
  - right. exists (S j). split; [lia | exact E].
Qed.

Lemma np_min_attained (l : list Q) :
  l <> [] -> exists j, (j < List.length l)%nat /\ nth j l 0 == np_min l.
Proof.
  destruct l as [|x l]; [congruence|]. intros _. simpl np_min.
  destruct (fold_left_Qmin_attained l x) as [E | [j [Hj E]]].
  - exists 0%nat. split; [simpl; lia|]. simpl. symmetry. exact E.
  - exists (S j). split; [simpl; lia | exact E].
Qed.

Lemma where_from_spec (mask : list bool) (a i : nat) :
  In i (where_from a mask) <->
  (a <= i)%nat /\ (i < a + List.length mask)%nat /\ nth (i - a) mask false = true.
Proof.
  revert a. induction mask as [|b mask IH]; intro a; simpl.
  - split; [contradiction | lia].
  - assert (Hs : In i (where_from (S a) mask) <->
                 (S a <= i)%nat /\ (i < a + S (List.length mask))%nat /\
                 nth (i - a) (b :: mask) false = true).
    { rewrite IH. replace (S a + List.length mask)%nat with (a + S (List.length mask))%nat by lia.
      split; intros [H1 [H2 H3]]; (split; [lia|]; split; [lia|]).
      - replace (i - a)%nat with (S (i - S a)) by lia. exact H3.
      - replace (i - a)%nat with (S (i - S a)) in H3 by lia. exact H3. }
    destruct b.
    + simpl. rewrite Hs. split.
      * intros [E | [H1 [H2 H3]]].
        -- subst i. split; [lia|]. split; [lia|]. rewrite Nat.sub_diag. reflexivity.
        -- split; [lia|]. split; [lia | exact H3].
      * intros [H1 [H2 H3]]. destruct (Nat.eq_dec a i) as [E | N]; [left; exact E|].
        right. split; [lia|]. split; [lia | exact H3].
    + rewrite Hs. split.
      * intros [H1 [H2 H3]]. split; [lia|]. split; [lia | exact H3].
      * intros [H1 [H2 H3]]. destruct (Nat.eq_dec a i) as [E | N].
        -- subst i. rewrite Nat.sub_diag in H3. discriminate H3.
        -- split; [lia|]. split; [lia | exact H3].
Qed.

Lemma nth_map_lt {A : Type} (f : Q -> A) (l : list Q) (i : nat) (d : A) :
  (i < List.length l)%nat -> nth i (map f l) d = f (nth i l 0).
Proof.
  revert i. induction l as [|x l IH]; intros i H; simpl in H; [lia|].
  destruct i; simpl; [reflexivity | apply IH; lia].
Qed.

Lemma nearest_In (v : Q) (grid : list Q) (i : nat) :
  In i (nearest v grid) <->
  (i < List.length grid)%nat /\
  Qabs (v - nth i grid 0) == np_min (map (fun g => Qabs (v - g)) grid).
Proof.
  unfold nearest. cbv zeta. unfold np_where. rewrite where_from_spec.
  rewrite !length_map, Nat.sub_0_r. simpl.
  split.
  - intros [_ [Hi Hb]]. split; [exact Hi|].
    rewrite nth_map_lt in Hb by (rewrite length_map; exact Hi).
    rewrite nth_map_lt in Hb by exact Hi.
    apply Qeq_bool_true in Hb. exact Hb.
  - intros [Hi He]. split; [lia|]. split; [exact Hi|].
    rewrite nth_map_lt by (rewrite length_map; exact Hi).
    rewrite nth_map_lt by exact Hi.
    apply Qeq_bool_true. exact He.
Qed.

(** X25.  On a non-empty grid [np.where(abs(v - grid) == min(...))]
    is never empty, and it holds exactly the indices of the grid points
    closest to [v]: all of them when several are at the same distance. *)
Theorem nearest_is_closest (v : Q) (grid : list Q) :
  grid <> [] ->
  nearest v grid <> [] /\
  forall i, In i (nearest v grid) <->
            (i < List.length grid)%nat /\
            forall j, (j < List.length grid)%nat ->
                      Qabs (v - nth i grid 0) <= Qabs (v - nth j grid 0).
Proof.
  intro Hne.
  set (d := map (fun g => Qabs (v - g)) grid).
  assert (Hd : d <> []) by (unfold d; destruct grid; [congruence | discriminate]).
  destruct (np_min_attained d Hd) as [j0 [Hj0 E0]].
  unfold d in Hj0. rewrite length_map in Hj0.
  unfold d in E0 at 1. rewrite nth_map_lt in E0 by exact Hj0.
  assert (Hlow : forall j, (j < List.length grid)%nat -> np_min d <= Qabs (v - nth j grid 0)).
  { intros j Hj. pose proof (np_min_lower d) as Hl. rewrite Forall_forall in Hl.
    apply Hl. unfold d. apply in_map_iff. exists (nth j grid 0).
    split; [reflexivity | apply nth_In; exact Hj]. }
  split.
  - intro E. assert (Hin : In j0 (nearest v grid)) by (apply nearest_In; split; assumption).
    rewrite E in Hin. contradiction.
  - intro i. rewrite nearest_In. fold d. split.
    + intros [Hi He]. split; [exact Hi|]. intros j Hj. rewrite He. apply Hlow. exact Hj.
    + intros [Hi Hall]. split; [exact Hi|]. apply Qle_antisym.
      * rewrite <- E0. apply Hall. exact Hj0.
      * apply Hlow. exact Hi.
Qed.

Lemma nearest_is_closest_witness :
  nearest 2 [1; 3; 5] <> [] /\ (In 1%nat (nearest 2 [1; 3; 5]) <->
    (1 < 3)%nat /\ forall j, (j < 3)%nat -> Qabs (2 - nth 1 [1; 3; 5] 0) <= Qabs (2 - nth j [1; 3; 5] 0)).
Proof.
  destruct (nearest_is_closest 2 [1; 3; 5]) as [H1 H2]; [discriminate|].
  split; [exact H1 | exact (H2 1%nat)].
Defined.

(** ** The sampler on the edges of the mass grid *)

Lemma flat_map_const_length {A : Type} (f : A -> list Q) (l : list A) (k : nat) :
  (forall a, List.length (f a) = k) -> List.length (flat_map f l) = (List.length l * k)%nat.
Proof.
  intro H. induction l as [|a l IH]; [reflexivity|].
  simpl. rewrite length_app, H, IH. reflexivity.
Qed.

Lemma np_max_zero (l : list Q) : Forall (fun v => v == 0) l -> np_max l == 0.
Proof.
  intro H. apply Qle_antisym.
  - apply np_max_le; [lra|]. eapply Forall_impl; [|exact H]. intros v Hv. simpl in Hv. lra.
  - destruct l as [|x l]; [simpl; lra|].
    pose proof (np_max_upper (x :: l)) as Hu. inversion Hu; subst. inversion H; subst. lra.
Qed.

Section Edges.

Context {NL : NumLib}.

Lemma period_cdf_length (tb : tables) (myM1 : Q) (indM1 : list nat) :
  List.length (period_cdf tb myM1 indM1) = (numlogP * List.length indM1)%nat.
Proof.
  assert (Hc : List.length (column_of (cumPbin tb) indM1) = (numlogP * List.length indM1)%nat).
  { unfold column_of. rewrite (flat_map_const_length _ _ (List.length indM1)).
    - rewrite length_seq. reflexivity.
    - intro j. apply length_map. }
  unfold period_cdf. cbv zeta. destruct (Qleb myM1 (8 # 10)); [rewrite length_map|]; exact Hc.
Qed.

(** X26.  When the primary is equally close to two grid masses, or to
    more, [indM1] holds several indices, the flattened period column is
    that many times too long, and the binary branch stops at its first
    interpolation with the [ValueError] of [np.interp]; no draw is read. *)
Theorem ambiguous_mass_index_raises (tb : tables) (myM1 myrand : Q) (indM1 : list nat)
        (g : rng) (s : nat) :
  (2 <= List.length indM1)%nat ->
  draw_binary tb myM1 myrand indM1 (period_cdf tb myM1 indM1) g s
  = (Raises "ValueError: fp and xp are not of the same length.", s).
Proof.
  intro H. unfold draw_binary, np_interp_chk.
  rewrite period_cdf_length, logPv_length.
  assert (E : (numlogP * List.length indM1 =? numlogP)%nat = false).
  { apply Nat.eqb_neq. unfold numlogP. lia. }
  rewrite E. reflexivity.
Qed.

(** X27.  At the floor of the mass range the binary fraction is scaled
    to zero: for a primary of at most [0.8] solar masses whose logarithm is
    at most that of [0.08], the period CDF of the trial has maximum zero,
    and no draw from [[0, 1)] makes the trial a binary. *)
Theorem floor_mass_is_single (tb : tables) (myM1 : Q) (indM1 : list nat) :
  indM1 <> [] -> myM1 <= (8 # 10) ->
  log10 myM1 <= log10 (8 # 100) -> log10 (8 # 100) < log10 (8 # 10) ->
  np_max (period_cdf tb myM1 indM1) == 0 /\
  forall myrand, 0 <= myrand -> Qltb myrand (np_max (period_cdf tb myM1 indM1)) = false.
Proof.
  intros _ Hm Hl Hinc.
  assert (Hz : np_max (period_cdf tb myM1 indM1) == 0).
  { apply np_max_zero. unfold period_cdf. cbv zeta.
    assert (E : Qleb myM1 (8 # 10) = true) by (apply Qleb_true; exact Hm).
    rewrite E.
    assert (Ei : np_interp (log10 myM1) [log10 (8 # 100); log10 (8 # 10)] [0; 1] = 0).
    { rewrite np_interp_left_clamp; [reflexivity | reflexivity | exact Hl | exact Hinc|].
      simpl. lra. }
    rewrite Ei. apply Forall_map. apply Forall_forall. intros v _. simpl. ring. }
  split; [exact Hz|]. intros myrand Hr. apply Qltb_false. rewrite Hz. exact Hr.
Qed.

End Edges.

Lemma ambiguous_mass_index_raises_witness :
  @draw_binary RationalLib uniform_tables 1 (1 # 4) [0; 1]%nat
    (@period_cdf RationalLib uniform_tables 1 [0; 1]%nat) (constant_draws (1 # 2)) 0%nat
  = (Raises "ValueError: fp and xp are not of the same length.", 0%nat).
Proof.
  apply (@ambiguous_mass_index_raises RationalLib). simpl. lia.
Defined.

Lemma floor_mass_is_single_witness :
  np_max (@period_cdf RationalLib uniform_tables (8 # 100) [0%nat]) == 0.
Proof.
  apply (@floor_mass_is_single RationalLib uniform_tables (8 # 100) [0%nat]).
  - discriminate.
  - vm_compute. discriminate.
  - vm_compute. discriminate.
  - vm_compute. reflexivity.
Defined.

(** ** The truncated mass-ratio CDF *)
(** ** No cell of the grid is degenerate *)

(** *** The eccentricity band beyond two days *)

Lemma ev_second : nth 1 ev 0 == (101 # 10000).
Proof. vm_compute. reflexivity. Qed.

(** The eccentricity grid has a point in every interval of length [0.01]
    that starts between [0.0001] and [0.8]. *)
Lemma ev_grid_point (a b : Q) :
  (1 # 10000) <= a -> a <= (8 # 10) -> a + (1 # 100) <= b ->
  Exists (fun e => a <= e /\ e <= b) ev.
Proof.
  intros Ha0 Ha1 Hab.
  set (y := (a - (1 # 10000)) * 100).
  set (C := Qceiling y).
  assert (Hy0 : 0 <= y) by (unfold y; lra).
  assert (Hy1 : y <= 80) by (unfold y; lra).
  assert (HC0 : (0 <= C)%Z).
  { change 0%Z with (Qceiling 0). apply Qceiling_resp_le. exact Hy0. }
  assert (HC1 : (C <= 80)%Z).
  { change 80%Z with (Qceiling 80). apply Qceiling_resp_le. exact Hy1. }
  assert (Hle : y <= inject_Z C) by apply Qle_ceiling.
  assert (Hlt : inject_Z C - 1 < y).
  { pose proof (Qceiling_lt y) as H. fold C in H.
    unfold Z.sub in H. rewrite inject_Z_plus in H. exact H. }
  apply Exists_exists.
  exists ((0 + inject_Z (Z.of_nat (Z.to_nat C))
               * (((99 # 100) - 0) / inject_Z (Z.of_nat (nume - 1)))) + (1 # 10000)).
  split.
  - unfold ev, np_linspace.
    apply (in_map (fun e => e + (1 # 10000))).
    apply (in_map (fun k => 0 + inject_Z (Z.of_nat k)
                                * (((99 # 100) - 0) / inject_Z (Z.of_nat (nume - 1))))).
    apply in_seq. unfold nume. lia.
  - rewrite Z2Nat.id by exact HC0.
    assert (Hs : ((99 # 100) - 0) / inject_Z (Z.of_nat (nume - 1)) == (1 # 100))
      by reflexivity.
    rewrite Hs. unfold y in Hle, Hlt. split; lra.
Qed.

Lemma band_exists_nonempty (lo hi : Q) (l : list Q) :
  Exists (fun e => lo <= e /\ e <= hi) l ->
  np_where (map (fun e => Qleb lo e && Qleb e hi) l) <> [].
Proof.
  intros Hex E. apply band_empty in E.
  apply Exists_exists in Hex. destruct Hex as [e [Hin He]].
  rewrite Forall_forall in E. exact (E e Hin He).
Qed.

Section GridCells.

Context {NL : NumLib}.
Hypothesis Hpow : pow_positive.
Hypothesis Hexp : exp_positive.
Hypothesis Hecc : eccentricity_resolved.

(** Beyond two days, with [e_max >= 0.05], the band
    [[0.8 * e_max, e_max]] holds a grid eccentricity, so the density is
    built, and its second entry, at [e = 0.0101], is the uncut power law. *)
Lemma fe_long_period (mylogP eta : Q) :
  2 < pow 10 mylogP ->
  (5 # 100) <= 1 - pow (pow 10 mylogP / 2) (- (2 # 3)) ->
  exists f, fe mylogP eta = Returns f /\ 0 < nth 1 f 0.
Proof.
  intros HP He. unfold fe.
  destruct (Qleb (pow 10 mylogP) 2) eqn:E2; [apply Qleb_true in E2; lra|].
  assert (Hp : 0 < pow (pow 10 mylogP / 2) (- (2 # 3))).
  { apply Hpow. apply Qlt_shift_div_l; lra. }
  revert He Hp.
  generalize (pow (pow 10 mylogP / 2) (- (2 # 3))). intros pp He Hp.
  cbv zeta. set (e_max := 1 - pp) in *.
  set (fe1 := map (fun e => pow e eta) ev).
  set (fe2 := map2 (fun e v => if Qleb e_max e then 0 else v) ev fe1).
  assert (Hne : np_where (map (fun e => Qleb ((8 # 10) * e_max) e && Qleb e (1 * e_max)) ev)
                <> []).
  { apply band_exists_nonempty. apply ev_grid_point; unfold e_max in *; lra. }
  revert Hne.
  destruct (np_where _) as [|i0 ind]; intro Hne; [exfalso; apply Hne; reflexivity|].
  eexists. split; [reflexivity|].
  assert (L1 : List.length fe1 = nume) by (unfold fe1; rewrite length_map; apply ev_length).
  assert (L2 : List.length fe2 = nume)
    by (unfold fe2; rewrite map2_length, L1, ev_length; lia).
  rewrite nth_map2 by (rewrite ?ev_length, ?L2; unfold nume; lia).
  assert (Ek : 0 < nth 1 fe2 0).
  { unfold fe2. rewrite nth_map2 by (rewrite ?ev_length, ?L1; unfold nume; lia).
    pose proof ev_second as E1.
    destruct (Qleb e_max (nth 1 ev 0)) eqn:Ec; [apply Qleb_true in Ec; unfold e_max in *; lra|].
    unfold fe1. rewrite nth_map_lt by (rewrite ev_length; unfold nume; lia).
    apply Hpow. lra. }
  pose proof ev_second as E1.
  destruct (Qleb ((8 # 10) * e_max) (nth 1 ev 0)) eqn:Eb;
    [apply Qleb_true in Eb; unfold e_max in *; lra|].
  exact Ek.
Qed.

(** The eccentricity density of every grid period is built and has a
    positive cumulative maximum. *)
Lemma fe_grid_period (mylogP eta : Q) :
  In mylogP logPv ->
  exists f, fe mylogP eta = Returns f /\
            Forall (fun v => 0 <= v) f /\ 0 < np_max (cum_offset f).
Proof.
  intro Hin. destruct (Qlt_le_dec 2 (pow 10 mylogP)) as [HP | HP].
  - destruct (fe_long_period mylogP eta HP (Hecc mylogP Hin HP)) as [f [Ef H1]].
    exists f. split; [exact Ef|]. split; [exact (fe_nonneg Hpow _ _ _ Ef)|].
    pose proof (fe_length _ _ _ Ef) as Hlen.
    destruct f as [|f0 [|f1 r]]; try discriminate Hlen.
    apply np_max_cum_offset_pos. exact H1.
  - exists (map (fun e => pow e (- (32 # 10))) ev). split.
    + unfold fe. apply Qleb_true in HP. rewrite HP. reflexivity.
    + split.
      * apply Forall_pos_nonneg. apply short_period_density_positive. exact Hpow.
      * apply positive_density_cum_max.
        -- rewrite length_map, ev_length. unfold nume. lia.
        -- apply short_period_density_positive. exact Hpow.
Qed.


(** C1.  For a grid mass, with a library of positive powers and
    exponentials that resolves the eccentricity band: the mass-ratio slice
    of every period, the eccentricity slice of every grid period (which is
    always built), and the period column are arrays of finite numbers,
    non-decreasing along their axis; a mass-ratio or eccentricity slice
    ends at a value in [[0, 1]], and the period column at a value in
    [[0, binary fraction of the mass]]. *)
Theorem built_cdfs_monotone_bounded (myM1 : Q) :
  grid_mass myM1 ->
  (forall mylogP, cdf_slice 1 (normalise_cdf (fq myM1 mylogP))) /\
  (forall mylogP, In mylogP logPv ->
     exists f, fe mylogP (eta myM1 mylogP) = Returns f /\
               cdf_slice 1 (normalise_cdf f)) /\
  cdf_slice (idl_tabulate logPv (period_weights myM1))
            (normalise_period logPv (period_weights myM1)).
Proof.
  intro Hg. split; [|split].
  - intro mylogP. destruct (Ftwin_range myM1 mylogP Hg) as [H0 H1].
    unfold fq. apply cumqdist_slice_of; assumption.
  - intros mylogP Hin.
    destruct (fe_grid_period mylogP (eta myM1 mylogP) Hin) as [f [Ef [Hf Hm]]].
    exists f. split; [exact Ef|]. exact (cdf_slice_of_density f Hf Hm).
  - apply cdf_slice_of_period.
    + apply (period_weights_nonneg Hpow Hexp), Hg.
    + apply (period_weights_cum_max Hpow Hexp), Hg.
    + apply (binary_fraction_nonneg Hpow Hexp), Hg.
Qed.


End GridCells.

(** The rational library resolves the eccentricity band. *)
Lemma RationalLib_eccentricity_resolved : @eccentricity_resolved RationalLib.
Proof.
  assert (H : forallb (fun lp => implb (Qltb 2 (@pow RationalLib 10 lp))
                                   (Qleb (5 # 100)
                                         (1 - @pow RationalLib (@pow RationalLib 10 lp / 2)
                                                               (- (2 # 3)))))
                      logPv = true) by (vm_compute; reflexivity).
  rewrite forallb_forall in H.
  intros mylogP Hin HP. specialize (H mylogP Hin).
  apply Qltb_true in HP. rewrite HP in H. simpl in H. apply Qleb_true in H. exact H.
Qed.

Lemma built_cdfs_monotone_bounded_witness :
  cdf_slice 1 (normalise_cdf (@fq RationalLib 1 3)) /\
  (exists f, @fe RationalLib (nth 100 logPv 0) (@eta RationalLib 1 (nth 100 logPv 0))
             = Returns f /\ cdf_slice 1 (normalise_cdf f)) /\
  cdf_slice (idl_tabulate logPv (@period_weights RationalLib 1))
            (normalise_period logPv (@period_weights RationalLib 1)).
Proof.
  destruct (@built_cdfs_monotone_bounded RationalLib RationalLib_pow_positive
              RationalLib_exp_positive RationalLib_eccentricity_resolved
              1 RationalLib_grid_mass_one) as [Hq [He HP]].
  split; [apply Hq | split; [|exact HP]].
  apply He. apply nth_In. rewrite logPv_length. unfold numlogP. lia.
Defined.

(** ** A strictly increasing grid that the quadrature rejects *)

(** The numbers of the example, as binary64 computes them: the width
    [1.0 - 0.3] at a tie that rounds down, its triple at a tie that rounds
    down again, and a quotient one unit in the last place below [3]. *)
Lemma four_point_positions :
  Binary64.sub 1 (Binary64.round (3 # 10)) == (3152519739159347 # 4503599627370496) /\
  Binary64.mul 3 (Binary64.sub 1 (Binary64.round (3 # 10)))
  == (1182194902184755 # 562949953421312) /\
  Binary64.div (Binary64.mul 3 (Binary64.sub 1 (Binary64.round (3 # 10))))
               (Binary64.sub 1 (Binary64.round (3 # 10)))
  == 3 - (1 # 2251799813685248).
Proof. repeat split; vm_compute; reflexivity. Qed.

(** C5.  The grid [[0.3; 0.5; 0.6; 1.0]] is strictly increasing and is
    one window of four points.  In binary64 its last sample position is
    [3 * (1.0 - 0.3) / (1.0 - 0.3) = 2.9999999999999996], not [3], so scipy
    rejects the positions and [idl_tabulate] raises [ValueError] for every
    constant [k], where the claim (and exact arithmetic) has it return
    [k * (x[-1] - x[0])]. *)
Theorem idl_tabulate_rejects_increasing_grid :
  let x := map Binary64.round [(3 # 10); (5 # 10); (6 # 10); 1] in
  increasing x /\
  nth 3 (rn64 x) 0 == 3 - (1 # 2251799813685248) /\
  (forall k : Q,
     idl_tabulate64 x [k; k; k; k]
     = Raises "ValueError: The sample positions must start at 0 and end at N") /\
  (forall k : Q, idl_tabulate x [k; k; k; k] == k * (last x 0 - hd 0 x)).
Proof.
  cbv zeta.
  assert (Hinc : increasing (map Binary64.round [(3 # 10); (5 # 10); (6 # 10); 1])).
  { vm_compute. repeat split; reflexivity. }
  split; [exact Hinc|]. split; [vm_compute; reflexivity|]. split.
  - intro k. vm_compute. reflexivity.
  - intro k.
    apply (tabulate_constant_exact k (map Binary64.round [(3 # 10); (5 # 10); (6 # 10); 1])).
    + exact Hinc.
    + simpl. lia.
Qed.
(** ** The sampler [initial_sample], statement by statement *)

(** *** The minimum mass *)

Section MinimumMass.

Context {NL : NumLib}.

Lemma np_interp_chk_same_length (x : Q) (xp fp : list Q) :
  List.length fp = List.length xp -> np_interp_chk x xp fp = Returns (np_interp x xp fp).
Proof. intro H. unfold np_interp_chk. rewrite H, Nat.eqb_refl. reflexivity. Qed.

(** C9 (as amended).  A minimum mass at or below the floor [0.08] is not
    refused.  The one statement that reads [M1min], [np.interp] at line
    598, returns for it the value of the mass CDF at the floor, and every
    primary is then selected exactly as for [M1min = 0.08]. *)
Theorem min_mass_is_not_checked (M1min : Q) :
  M1min <= (8 # 100) ->
  np_interp_chk M1min M1 cumfM1 = Returns (cumf_M1min (8 # 100)) /\
  forall u, select_primary M1min u = select_primary (8 # 100) u.
Proof.
  intro H. split.
  - assert (H8 : (8 # 100) <= (8 # 100)) by lra.
    pose proof (cumf_M1min_floor M1min H) as E1.
    pose proof (cumf_M1min_floor (8 # 100) H8) as E2.
    transitivity (Returns (cumf_M1min M1min)).
    + exact (np_interp_chk_same_length M1min M1 cumfM1 cumfM1_length).
    + exact (f_equal Returns (eq_trans E1 (eq_sym E2))).
  - intro u. exact (select_primary_below_floor M1min u H).
Qed.

End MinimumMass.

Lemma min_mass_is_not_checked_witness :
  np_interp_chk (1 # 100) M1 (@cumfM1 RationalLib) = Returns (@cumf_M1min RationalLib (8 # 100)) /\
  forall u, @select_primary RationalLib (1 # 100) u = @select_primary RationalLib (8 # 100) u.
Proof.
  apply (@min_mass_is_not_checked RationalLib (1 # 100)).
  unfold Qle. simpl. lia.
Defined.

(** C9 (counterexample).  With [M1min = 0.01], below the floor, line 598
    returns a number; it does not raise. *)
Lemma min_mass_below_floor_no_error :
  np_interp_chk (1 # 100) M1 (@cumfM1 RationalLib)
  = Returns (@cumf_M1min RationalLib (1 # 100)) /\
  ~ is_error (np_interp_chk (1 # 100) M1 (@cumfM1 RationalLib)).
Proof.
  assert (E : np_interp_chk (1 # 100) M1 (@cumfM1 RationalLib)
              = Returns (@cumf_M1min RationalLib (1 # 100)))
    by exact (np_interp_chk_same_length (1 # 100) M1 (@cumfM1 RationalLib)
                (@cumfM1_length RationalLib)).
  split; [exact E|]. rewrite E. simpl. tauto.
Qed.

(** *** The names that a trial reads *)

Lemma mem_app (n : string) (a b : list string) :
  Scope.mem n (a ++ b) = Scope.mem n a || Scope.mem n b.
Proof. unfold Scope.mem. apply existsb_app. Qed.

Lemma read_names_unbound (locals outer bound : list string) (l : nat) (n : string)
      (ns : list string) :
  Scope.mem n ns = true -> Scope.mem n locals = true -> Scope.mem n bound = false ->
  Scope.read_names locals outer bound l ns <> None.
Proof.
  intros Hin Hl Hb. induction ns as [|a r IH]; [discriminate Hin|].
  cbn [Scope.read_names].
  destruct (Scope.read_name locals outer bound l a) as [f|] eqn:E; [discriminate|].
  apply IH. unfold Scope.mem in Hin. cbn [existsb] in Hin.
  apply orb_true_iff in Hin. destruct Hin as [Hna | Hr]; [|exact Hr].
  exfalso. apply String.eqb_eq in Hna. subst a.
  unfold Scope.read_name in E. rewrite Hl, Hb in E. discriminate E.
Qed.

(** A path that reads a local which nothing before has bound is stopped,
    there or earlier, whatever is visible outside the function. *)
Lemma run_stops_at_unbound (locals outer : list string) (n : string)
      (p1 : list Scope.stmt) (s : Scope.stmt) (p2 : list Scope.stmt) (bound : list string) :
  Scope.mem n locals = true -> Scope.mem n bound = false ->
  Scope.mem n (flat_map Scope.binds p1) = false -> Scope.mem n (Scope.reads s) = true ->
  Scope.run locals outer bound (p1 ++ s :: p2) <> None.
Proof.
  intros Hl Hb Hp Hs. revert bound Hb. induction p1 as [|t p1 IH]; intros bound Hb.
  - cbn [app Scope.run].
    pose proof (read_names_unbound locals outer bound (Scope.line s) n (Scope.reads s) Hs Hl Hb)
      as Hne.
    destruct (Scope.read_names locals outer bound (Scope.line s) (Scope.reads s));
      [discriminate | contradiction].
  - cbn [app Scope.run].
    destruct (Scope.read_names locals outer bound (Scope.line t) (Scope.reads t));
      [discriminate|].
    cbn [flat_map] in Hp. rewrite mem_app in Hp. apply orb_false_iff in Hp.
    destruct Hp as [Hp1 Hp2]. apply IH; [exact Hp2|].
    rewrite mem_app, Hp1, Hb. reflexivity.
Qed.

(** C2.  A call of [initial_sample] cannot return.  [total_mass] is a
    local of the function, bound by no statement before the additions to
    it on lines 663 and 666, so every first trial, binary or single, is
    stopped there at the latest, whatever names are visible outside the
    function; with [size = 0] the [return] of line 667 reads it unbound.
    With the names of the module and the builtins alone the call is stopped
    at line 580, which reads [populate_pdfs]; with every borrowed name
    granted, [logP] included, it is stopped at the first addition to
    [total_mass]. *)
Theorem first_trial_cannot_complete (rescaled binary truncated : bool) :
  (forall outer,
     Scope.run Scope.locals outer Scope.params
               (Scope.first_trial rescaled binary truncated) <> None) /\
  (forall outer,
     Scope.run Scope.locals outer Scope.params
               (Scope.prologue ++ firstn 1 Scope.trial_head ++ Scope.epilogue) <> None) /\
  Scope.run Scope.locals (Scope.module_names ++ Scope.builtins) Scope.params
            (Scope.first_trial rescaled binary truncated)
  = Some (Scope.NameError 580 "populate_pdfs") /\
  Scope.run Scope.locals
            (Scope.module_names ++ Scope.builtins ++ Scope.borrowed_names ++ ["logP"%string])
            Scope.params (Scope.first_trial rescaled binary truncated)
  = Some (Scope.UnboundLocalError (if binary then 663 else 666) "total_mass").
Proof.
  split; [|split; [|split]].
  - intro outer. destruct binary.
    + destruct rescaled, truncated;
        match goal with
        | |- Scope.run _ _ _ ?path <> None =>
            let l := eval vm_compute in (List.length path - 2)%nat in
            let p := eval vm_compute in path in
            change path with (firstn l p ++ nth l p (Scope.at_line 0 [] []) :: skipn (S l) p)
        end;
        apply (run_stops_at_unbound Scope.locals outer "total_mass"); reflexivity.
    + destruct rescaled;
        match goal with
        | |- Scope.run _ _ _ ?path <> None =>
            let l := eval vm_compute in (List.length path - 1)%nat in
            let p := eval vm_compute in path in
            change path with (firstn l p ++ nth l p (Scope.at_line 0 [] []) :: skipn (S l) p)
        end;
        apply (run_stops_at_unbound Scope.locals outer "total_mass"); reflexivity.
  - intro outer.
    apply (run_stops_at_unbound Scope.locals outer "total_mass"
             (Scope.prologue ++ firstn 1 Scope.trial_head)
             (Scope.at_line 667 ["np"; "primary_mass_list"; "secondary_mass_list"; "porb_list";
                                 "ecc_list"; "total_mass"] [])%string
             [] Scope.params); reflexivity.
  - destruct rescaled, binary, truncated; reflexivity.
  - destruct rescaled, binary, truncated; reflexivity.
Qed.

(** C8.  Line 660 appends [10**logP * sec_in_day]: it reads the name
    [logP], not [mylogP], the period selected for the trial on line 630.
    [logP] is neither a local of [initial_sample] nor a name of the module
    (it is a local of [populate_pdfs]), so with every other name granted a
    binary trial is stopped at line 660 by a [NameError], and no period is
    appended. *)
Theorem period_append_reads_unbound_name (rescaled truncated : bool) :
  Scope.run Scope.locals (Scope.module_names ++ Scope.builtins ++ Scope.borrowed_names)
            Scope.params (Scope.first_trial rescaled true truncated)
  = Some (Scope.NameError 660 "logP") /\
  Scope.mem "mylogP" Scope.locals = true /\
  Scope.mem "logP" Scope.locals = false /\
  Scope.mem "logP" (Scope.module_names ++ Scope.builtins) = false /\
  Forall (fun s => Scope.mem "mylogP" (Scope.reads s) = false) Scope.binary_tail.
Proof.
  split; [destruct rescaled, truncated; reflexivity|].
  split; [reflexivity|]. split; [reflexivity|]. split; [reflexivity|].
  repeat constructor.
Qed.
(** *** The truncated mass-ratio CDF (lines 642 to 655) *)

Lemma interp_scan_skip (x : Q) (xa fa : list Q) (x0 f0 : Q) (xr fr : list Q) :
  List.length xa = List.length fa ->
  Forall (fun v => v <= x) xa -> x0 <= x ->
  interp_scan x (xa ++ x0 :: xr) (fa ++ f0 :: fr) = interp_scan x (x0 :: xr) (f0 :: fr).
Proof.
  revert fa. induction xa as [|a xa IH]; intros [|b fa] Hlen Hxa H0; try discriminate Hlen.
  - reflexivity.
  - inversion Hxa as [|? ? _ Hxa']; subst. injection Hlen as Hlen.
    specialize (IH fa Hlen Hxa' H0).
    destruct xa as [|a2 xa]; destruct fa as [|b2 fa]; try discriminate Hlen.
    + cbn [app]. rewrite interp_scan_step.
      assert (E : Qleb x0 x = true) by (apply Qleb_true; exact H0). rewrite E. reflexivity.
    + cbn [app] in *. rewrite interp_scan_step.
      inversion Hxa' as [|? ? Ha2 _]; subst.
      assert (E : Qleb a2 x = true) by (apply Qleb_true; exact Ha2). rewrite E. exact IH.
Qed.

Lemma last_app_cons (a : list Q) (b : Q) (c : list Q) :
  last (a ++ b :: c) 0 = last (b :: c) 0.
Proof.
  induction a as [|x a IH]; [reflexivity|].
  cbn [app]. destruct (a ++ b :: c) eqn:E; [destruct a; discriminate E|].
  rewrite <- IH. reflexivity.
Qed.

Lemma map2_app (f : Q -> Q -> Q) (a b a' b' : list Q) :
  List.length a = List.length b ->
  map2 f (a ++ a') (b ++ b') = map2 f a b ++ map2 f a' b'.
Proof.
  revert b. induction a as [|x a IH]; intros [|y b] H; try discriminate H; [reflexivity|].
  injection H as H. cbn [app map2]. rewrite IH by exact H. reflexivity.
Qed.

Lemma np_interp_inside (x : Q) (xp fp : list Q) :
  x <= last xp 0 -> hd 0 xp <= x -> np_interp x xp fp = interp_scan x xp fp.
Proof.
  intros H1 H2. unfold np_interp.
  assert (E1 : Qltb (last xp 0) x = false) by (apply Qltb_false; exact H1).
  assert (E2 : Qltb x (hd 0 xp) = false) by (apply Qltb_false; exact H2).
  rewrite E1, E2. reflexivity.
Qed.

Lemma last_lower (b : Q) (l : list Q) : Forall (fun v => b <= v) l -> b <= last (b :: l) 0.
Proof.
  intro H. apply (Forall_last (fun v => b <= v)); [discriminate|].
  constructor; [lra | exact H].
Qed.

(** The truncation on a grid with [q_min] strictly between two
    neighbouring ratios [qj < q_min < qk].  The CDF is zeroed up to [qj];
    its next entry [xk] is positive; and a draw below
    [xk * (q_min - qj) / (qk - qj)] is interpolated between [qj] and [qk]
    to a ratio below [q_min]. *)
Lemma truncated_draw_leaks (qa qr ca cr : list Q) (qj qk cj ck q_min u : Q) :
  List.length ca = List.length qa -> List.length cr = List.length qr ->
  Forall (fun q => q <= qj) qa -> qj < q_min -> q_min < qk ->
  Forall (fun q => qk <= q) qr ->
  cj < ck -> Forall (fun c => ck <= c) cr ->
  forall g cum, g = qa ++ qj :: qk :: qr -> cum = ca ++ cj :: ck :: cr ->
  forall cum_qmin, cum_qmin = np_interp q_min g cum ->
  forall c1, c1 = map (fun v => v - cum_qmin) cum ->
  forall c2, c2 = map (fun v => v / np_max c1) c1 ->
  forall xp, xp = map2 (fun q v => if Qleb q q_min then 0 else v) g c2 ->
  0 < (ck - cum_qmin) / np_max c1 /\
  (0 <= u -> u < (ck - cum_qmin) / np_max c1 * ((q_min - qj) / (qk - qj)) ->
   np_interp u xp g < q_min).
Proof.
  intros Hca Hcr Hqa Hj Hk Hqr Hc Hcrf g cum Eg Ecum cum_qmin Eq c1 E1 c2 E2 xp Exp.
  set (r := (q_min - qj) / (qk - qj)).
  assert (Hr0 : 0 < r) by (unfold r; apply Qlt_shift_div_l; lra).
  assert (Hr1 : r < 1) by (unfold r; apply Qlt_shift_div_r; lra).
  assert (Hrq : r * (qk - qj) == q_min - qj) by (unfold r; field; lra).
  (* the CDF at q_min *)
  assert (Vq : cum_qmin == (ck - cj) * r + cj).
  { rewrite Eq, Eg, Ecum. rewrite np_interp_inside.
    - rewrite interp_scan_skip; [| symmetry; exact Hca | | lra].
      + rewrite interp_scan_step.
        assert (F1 : Qleb qk q_min = false) by (apply Qleb_false; exact Hk).
        assert (F2 : Qeq_bool qj q_min = false) by (apply Qeq_bool_false; lra).
        rewrite F1, F2. unfold r. field. lra.
      + eapply Forall_impl; [|exact Hqa]. intros q Hq. simpl in Hq. lra.
    - rewrite last_app_cons.
      change (last (qj :: qk :: qr) 0) with (last (qk :: qr) 0).
      pose proof (last_lower qk qr Hqr). lra.
    - destruct qa as [|q0 qa]; cbn [app hd]; [lra|].
      inversion Hqa; subst. lra. }
  assert (Vl : cj <= cum_qmin) by (rewrite Vq; nra).
  assert (Vu : cum_qmin < ck) by (rewrite Vq; nra).
  (* the maximum *)
  set (M := np_max c1) in *.
  assert (HM : 0 < M).
  { pose proof (np_max_upper c1) as Hup. rewrite Forall_forall in Hup.
    assert (Hin : In (ck - cum_qmin) c1).
    { rewrite E1, Ecum. apply in_map_iff. exists ck. split; [reflexivity|].
      apply in_or_app. right. right. left. reflexivity. }
    specialize (Hup _ Hin). fold M in Hup. lra. }
  assert (Hx : 0 < (ck - cum_qmin) / M) by (apply Qlt_shift_div_l; lra).
  split; [exact Hx|]. intros Hu0 Hut. fold r in Hut.
  set (h := fun v : Q => (v - cum_qmin) / M).
  set (f := fun q v : Q => if Qleb q q_min then 0 else v).
  assert (Ec2 : c2 = map h ca ++ h cj :: h ck :: map h cr).
  { rewrite E2, E1, Ecum, map_map. rewrite map_app. reflexivity. }
  assert (Exp' : xp = map2 f qa (map h ca) ++ 0 :: h ck :: map2 f qr (map h cr)).
  { rewrite Exp, Eg, Ec2. fold f.
    rewrite map2_app by (rewrite length_map; symmetry; exact Hca).
    cbn [map2]. unfold f at 2 3.
    assert (F1 : Qleb qj q_min = true) by (apply Qleb_true; lra).
    assert (F2 : Qleb qk q_min = false) by (apply Qleb_false; exact Hk).
    rewrite F1, F2. reflexivity. }
  assert (Hxk : h ck = (ck - cum_qmin) / M) by reflexivity.
  assert (Hzero : Forall (fun v => v <= u) (map2 f qa (map h ca))).
  { apply (Forall_map2 (fun q => q <= qj) (fun _ => True) (fun v => v <= u)).
    - intros q v Hq _. unfold f.
      assert (F : Qleb q q_min = true) by (apply Qleb_true; lra).
      rewrite F. exact Hu0.
    - exact Hqa.
    - rewrite Forall_forall. auto. }
  assert (Htail : Forall (fun v => h ck <= v) (map2 f qr (map h cr))).
  { apply (Forall_map2 (fun q => qk <= q) (fun v => h ck <= v) (fun v => h ck <= v)).
    - intros q v Hq Hv. unfold f.
      assert (F : Qleb q q_min = false) by (apply Qleb_false; lra).
      rewrite F. exact Hv.
    - exact Hqr.
    - apply Forall_map. eapply Forall_impl; [|exact Hcrf].
      intros c Hcc. simpl in Hcc. unfold h.
      apply Qmult_le_compat_r; [lra|]. apply Qlt_le_weak, Qinv_lt_0_compat. exact HM. }
  assert (Hux : u < h ck) by (rewrite Hxk; nra).
  rewrite Exp', Eg. rewrite np_interp_inside.
  - rewrite interp_scan_skip.
    + rewrite interp_scan_step.
      assert (F1 : Qleb (h ck) u = false) by (apply Qleb_false; exact Hux).
      rewrite F1.
      destruct (Qeq_bool 0 u) eqn:F2; [exact Hj|].
      apply Qeq_bool_false in F2. rewrite Hxk.
      setoid_replace ((qk - qj) / ((ck - cum_qmin) / M - 0) * (u - 0) + qj)
        with ((qk - qj) * (u / ((ck - cum_qmin) / M)) + qj) by (field; lra).
      assert (Hk' : u / ((ck - cum_qmin) / M) < r) by (apply Qlt_shift_div_r; lra).
      nra.
    + rewrite map2_length, length_map, Hca. apply Nat.min_id.
    + exact Hzero.
    + exact Hu0.
  - rewrite last_app_cons.
    change (last (0 :: h ck :: map2 f qr (map h cr)) 0)
      with (last (h ck :: map2 f qr (map h cr)) 0).
    pose proof (last_lower (h ck) _ Htail). lra.
  - destruct (map2 f qa (map h ca)) as [|z zs] eqn:Ez; cbn [app hd]; [exact Hu0|].
    inversion Hzero; subst. assumption.
Qed.

(** The mass-ratio grid around [0.26]. *)
Lemma qv_around_0p26 :
  exists qa qj qk qr,
    qv = qa ++ qj :: qk :: qr /\
    List.length qa = 16%nat /\ List.length qr = 73%nat /\
    Forall (fun q => q <= qj) qa /\ qj == (26 # 100) /\ qk == (27 # 100) /\
    Forall (fun q => qk <= q) qr.
Proof.
  exists (firstn 16 qv), (nth 16 qv 0), (nth 17 qv 0), (skipn 18 qv).
  split; [vm_compute; reflexivity|].
  split; [vm_compute; reflexivity|].
  split; [vm_compute; reflexivity|].
  split.
  { assert (H : forallb (fun q => Qleb q (nth 16 qv 0)) (firstn 16 qv) = true)
      by (vm_compute; reflexivity).
    rewrite forallb_forall in H. rewrite Forall_forall. intros q Hq.
    apply Qleb_true. exact (H q Hq). }
  split; [vm_compute; reflexivity|].
  split; [vm_compute; reflexivity|].
  assert (H : forallb (fun q => Qleb (nth 17 qv 0) q) (skipn 18 qv) = true)
    by (vm_compute; reflexivity).
  rewrite forallb_forall in H. rewrite Forall_forall. intros q Hq.
  apply Qleb_true. exact (H q Hq).
Qed.

Lemma list_split_two (l : list Q) (n : nat) :
  (S n < List.length l)%nat ->
  l = firstn n l ++ nth n l 0 :: nth (S n) l 0 :: skipn (S (S n)) l.
Proof.
  revert l. induction n as [|n IH]; intros l H.
  - destruct l as [|a [|b l]]; simpl in H; try lia. reflexivity.
  - destruct l as [|a l]; simpl in H; [lia|].
    cbn [firstn nth skipn app]. f_equal. apply IH. lia.
Qed.

Lemma nondecreasing_tail (a : list Q) (b : Q) (l : list Q) :
  nondecreasing (a ++ b :: l) -> Forall (fun v => b <= v) l.
Proof.
  induction a as [|x a IH].
  - cbn [app]. revert b. induction l as [|y l IHl]; intros b H; [constructor|].
    destruct H as [Hby Hr]. constructor; [exact Hby|].
    eapply Forall_impl; [|exact (IHl y Hr)]. intros v Hv. simpl in Hv. lra.
  - intro H. apply IH. cbn [app] in H.
    destruct (a ++ b :: l) eqn:E; [destruct a; discriminate E|]. exact (proj2 H).
Qed.

(** C4.  For a primary between [0.300] and [0.305] solar masses the floor
    [q_min = 0.08 / myM1] lies strictly between the grid ratios [0.26] and
    [0.27].  Whatever the stored mass-ratio CDF of the cell (non-decreasing
    and rising from [0.26] to [0.27]), there is a positive threshold such
    that every draw below it, [0] included, returns a mass ratio strictly
    below [q_min]: the truncation zeroes the CDF up to [0.26] and the draw
    is interpolated between [0.26] and [0.27]. *)
Theorem truncated_ratio_below_q_min (myM1 : Q) (mycumqdist : list Q) :
  (300 # 1000) <= myM1 -> myM1 <= (305 # 1000) ->
  List.length mycumqdist = numq ->
  nondecreasing mycumqdist ->
  nth 16 mycumqdist 0 < nth 17 mycumqdist 0 ->
  exists t, 0 < t /\
    forall u, 0 <= u -> u < t ->
      exists myq, select_q myM1 u mycumqdist = Returns myq /\ myq < (8 # 100) / myM1.
Proof.
  intros Hlo Hhi Hlen Hnd Hrise.
  set (q_min := (8 # 100) / myM1).
  assert (Hq1 : (26 # 100) < q_min) by (unfold q_min; apply Qlt_shift_div_l; lra).
  assert (Hq2 : q_min < (27 # 100)) by (unfold q_min; apply Qlt_shift_div_r; lra).
  destruct qv_around_0p26 as (qa & qj & qk & qr & Eqv & Lqa & Lqr & Hqa & Ej & Ek & Hqr).
  assert (Ecum : mycumqdist
                 = firstn 16 mycumqdist ++ nth 16 mycumqdist 0 :: nth 17 mycumqdist 0
                   :: skipn 18 mycumqdist)
    by (apply list_split_two; rewrite Hlen; unfold numq; lia).
  set (ca := firstn 16 mycumqdist) in *. set (cj := nth 16 mycumqdist 0) in *.
  set (ck := nth 17 mycumqdist 0) in *. set (cr := skipn 18 mycumqdist) in *.
  assert (Lca : List.length ca = List.length qa).
  { unfold ca. rewrite length_firstn, Hlen, Lqa. unfold numq. reflexivity. }
  assert (Lcr : List.length cr = List.length qr).
  { unfold cr. rewrite length_skipn, Hlen, Lqr. unfold numq. reflexivity. }
  assert (Hcr : Forall (fun c => ck <= c) cr).
  { apply (nondecreasing_tail (ca ++ [cj]) ck cr).
    rewrite <- app_assoc. cbn [app]. rewrite <- Ecum. exact Hnd. }
  assert (Lg : List.length mycumqdist = List.length qv) by (rewrite Hlen; apply eq_sym, qv_length).
  pose (cum_qmin := np_interp q_min qv mycumqdist).
  pose (c1 := map (fun v => v - cum_qmin) mycumqdist).
  pose (c2 := map (fun v => v / np_max c1) c1).
  pose (xp := map2 (fun q v => if Qleb q q_min then 0 else v) qv c2).
  assert (Hsel : forall u, select_q myM1 u mycumqdist = Returns (np_interp u xp qv)).
  { intro u. unfold select_q, truncate_q.
    assert (F : Qltb myM1 (8 # 10) = true) by (apply Qltb_true; lra).
    rewrite F. fold q_min.
    rewrite (np_interp_chk_same_length q_min qv mycumqdist Lg).
    cbv zeta. fold cum_qmin. fold c1. fold c2. fold xp.
    apply np_interp_chk_same_length.
    unfold xp. rewrite map2_length. unfold c2, c1. rewrite !length_map, Lg.
    rewrite Nat.min_id. reflexivity. }
  assert (Hqj : qj < q_min) by (rewrite Ej; exact Hq1).
  assert (Hqk : q_min < qk) by (rewrite Ek; exact Hq2).
  exists ((ck - cum_qmin) / np_max c1 * ((q_min - qj) / (qk - qj))).
  assert (Hgen : forall u,
             0 < (ck - cum_qmin) / np_max c1 /\
             (0 <= u -> u < (ck - cum_qmin) / np_max c1 * ((q_min - qj) / (qk - qj)) ->
              np_interp u xp qv < q_min)).
  { intro u.
    exact (truncated_draw_leaks qa qr ca cr qj qk cj ck q_min u Lca Lcr Hqa Hqj Hqk Hqr
             Hrise Hcr qv mycumqdist Eqv Ecum cum_qmin eq_refl c1 eq_refl c2 eq_refl
             xp eq_refl). }
  split.
  - destruct (Hgen 0) as [Hx _].
    apply Qmult_lt_0_compat; [exact Hx|]. apply Qlt_shift_div_l; lra.
  - intros u Hu0 Hut. exists (np_interp u xp qv). split; [apply Hsel|].
    exact (proj2 (Hgen u) Hu0 Hut).
Qed.

Lemma truncated_ratio_below_q_min_witness :
  exists t, 0 < t /\
    forall u, 0 <= u -> u < t ->
      exists myq, select_q (3 # 10) u (ramp numq 1) = Returns myq /\
                  myq < (8 # 100) / (3 # 10).
Proof.
  apply (truncated_ratio_below_q_min (3 # 10) (ramp numq 1)).
  - unfold Qle. simpl. lia.
  - unfold Qle. simpl. lia.
  - vm_compute. reflexivity.
  - assert (H : forall l, (fix chk (l : list Q) : bool :=
                             match l with
                             | x :: ((y :: _) as r) => Qleb x y && chk r
                             | _ => true
                             end) l = true -> nondecreasing l).
    { induction l as [|x [|y l] IH]; intro E; [exact I | exact I |].
      apply andb_true_iff in E. destruct E as [E1 E2]. split.
      - apply Qleb_true. exact E1.
      - apply IH. exact E2. }
    apply H. vm_compute. reflexivity.
  - vm_compute. reflexivity.
Defined.

(** The draw [0] on the uniform CDF, for a primary of [0.3] solar masses:
    the ratio returned is [0.26], below [q_min = 0.2667]. *)
Lemma truncated_draw_at_zero :
  exists myq, select_q (3 # 10) 0 (ramp numq 1) = Returns myq /\
              myq == (26 # 100) /\ myq < (8 # 100) / (3 # 10).
Proof.
  eexists. split; [vm_compute; reflexivity|]. split; vm_compute; reflexivity.
Qed.
